(** * A shallow embedding of the free-list allocator of [src/src/mem.c]

    The allocator manages one contiguous arena with an address-ordered,
    singly linked free list threaded through the block headers.  The C code
    is pointer arithmetic over raw bytes, so the embedding keeps a flat
    byte-addressed memory and replays every load and store of the source
    in order, with the 64-bit wrap-around of [size_t] written out.

    - machine words and pointers are [Z] in [0, 2^64); [NULL] is [0];
    - memory is a total function from addresses to byte values; a 64-bit
      access is little-endian over eight consecutive bytes (x86-64, LP64:
      [sizeof(size_t) = sizeof(void* ) = 8], both headers are 16 bytes);
    - the static variable [free_block_list] has its address taken
      ([&free_block_list] is the initial [list] slot), so it lives in the
      same memory at [free_block_list_addr]; the other statics are fields
      of the state record;
    - [while] loops that chase pointers take a fuel argument and answer
      [OutOfFuel] when it is exhausted; a failed [assert] answers
      [AssertFailed]. *)

From Stdlib Require Import ZArith List Lia Bool.
Import ListNotations.
Open Scope Z_scope.

(** ** Machine words and the byte memory *)

Definition wrap (x : Z) : Z := x mod 2 ^ 64.

Definition SIZE_MAX : Z := 2 ^ 64 - 1.

(** The memory is a total map from addresses to bytes.  The arena is
    the part of it the program owns: a load elsewhere answers a value
    here, where the program would read out of bounds.  The theorems
    about the entry points therefore keep every load and store inside
    the arena and the list head by hypothesis. *)
Definition mem : Type := Z -> Z.

(** Byte [i] (little-endian) of the word [v]. *)
Definition byte_of (v i : Z) : Z := (v / 2 ^ (8 * i)) mod 256.

Definition load64 (m : mem) (a : Z) : Z :=
  (m a) mod 256
  + 2 ^ 8 * ((m (a + 1)) mod 256)
  + 2 ^ 16 * ((m (a + 2)) mod 256)
  + 2 ^ 24 * ((m (a + 3)) mod 256)
  + 2 ^ 32 * ((m (a + 4)) mod 256)
  + 2 ^ 40 * ((m (a + 5)) mod 256)
  + 2 ^ 48 * ((m (a + 6)) mod 256)
  + 2 ^ 56 * ((m (a + 7)) mod 256).

Definition store64 (m : mem) (a v : Z) : mem :=
  fun x => if (a <=? x) && (x <? a + 8) then byte_of v (x - a) else m x.

(** [memcpy(dst, src, n)] for non-overlapping regions. *)
Definition memcpy (m : mem) (dst src n : Z) : mem :=
  fun x => if (dst <=? x) && (x <? dst + n) then m (src + (x - dst)) else m x.

(** ** Outcomes of a call *)

Inductive result (A : Type) : Type :=
| Done (a : A)
| AssertFailed
| OutOfFuel.
Arguments Done {A} a.
Arguments AssertFailed {A}.
Arguments OutOfFuel {A}.

Definition bind {A B : Type} (r : result A) (k : A -> result B) : result B :=
  match r with
  | Done a => k a
  | AssertFailed => AssertFailed
  | OutOfFuel => OutOfFuel
  end.

Notation "x <- c ;; k" := (bind c (fun x => k))
  (at level 61, c at next level, right associativity).

(** ** Constants of mem.c *)

Definition SECRET_SIZE : Z := 8.
Definition MEM_FREE_BLOCK_SIZE : Z := 16.
Definition MEM_ALL_BLOCK_SIZE : Z := 16.
Definition MEM_MAX_BLOCK_SIZE : Z :=
  if MEM_FREE_BLOCK_SIZE >? MEM_ALL_BLOCK_SIZE then MEM_FREE_BLOCK_SIZE else MEM_ALL_BLOCK_SIZE.
Definition MEM_MIN_BLOCK_SIZE : Z :=
  if MEM_FREE_BLOCK_SIZE <? MEM_ALL_BLOCK_SIZE then MEM_FREE_BLOCK_SIZE else MEM_ALL_BLOCK_SIZE.
Definition MEM_FREE_ALL_DIFF : Z := wrap (wrap (- MEM_FREE_BLOCK_SIZE) + MEM_ALL_BLOCK_SIZE).

(** [offsetof(mem_free_block_t, next)] and [offsetof(mem_allocated_block_t, guard)]. *)
Definition OFF_NEXT : Z := 8.
Definition OFF_GUARD : Z := 8.

Definition NULL : Z := 0.

(** ** Placement policies *)

Fixpoint mem_first_fit (fuel : nat) (m : mem) (list size : Z) : result Z :=
  match fuel with
  | O => OutOfFuel
  | S f =>
      if list =? NULL then Done NULL
      else if load64 m list >=? size then Done list
      else mem_first_fit f m (load64 m (list + OFF_NEXT)) size
  end.

Fixpoint best_fit_loop (fuel : nat) (m : mem) (list size best_fit best_size : Z) : result Z :=
  match fuel with
  | O => OutOfFuel
  | S f =>
      if list =? NULL then Done best_fit
      else if (load64 m list >=? size) && (load64 m list <? best_size)
           then best_fit_loop f m (load64 m (list + OFF_NEXT)) size list (load64 m list)
           else best_fit_loop f m (load64 m (list + OFF_NEXT)) size best_fit best_size
  end.

Definition mem_best_fit (fuel : nat) (m : mem) (list size : Z) : result Z :=
  best_fit_loop fuel m list size NULL SIZE_MAX.

Fixpoint worst_fit_loop (fuel : nat) (m : mem) (list size worst_fit worst_size : Z) : result Z :=
  match fuel with
  | O => OutOfFuel
  | S f =>
      if list =? NULL then Done worst_fit
      else if (load64 m list >=? size) && (load64 m list >? worst_size)
           then worst_fit_loop f m (load64 m (list + OFF_NEXT)) size list (load64 m list)
           else worst_fit_loop f m (load64 m (list + OFF_NEXT)) size worst_fit worst_size
  end.

Definition mem_worst_fit (fuel : nat) (m : mem) (list size : Z) : result Z :=
  worst_fit_loop fuel m list size NULL 0.

(** The function pointer [current_fit_function] ranges over the three
    policies the file provides. *)
Inductive mem_fit_function_t : Type := FirstFit | BestFit | WorstFit.

Definition call_fit (f : mem_fit_function_t) : nat -> mem -> Z -> Z -> result Z :=
  match f with
  | FirstFit => mem_first_fit
  | BestFit => mem_best_fit
  | WorstFit => mem_worst_fit
  end.

(** ** The allocator state *)

Record state : Type := mkState {
  bytes : mem;
  free_block_list_addr : Z;
  memory_area : Z;
  MEM_SPACE_MIN : Z;
  MEM_SPACE_MAX : Z;
  secret_number : Z;
  current_fit_function : mem_fit_function_t
}.

Definition free_block_list (st : state) : Z := load64 (bytes st) (free_block_list_addr st).

Definition with_bytes (st : state) (m : mem) : state :=
  mkState m (free_block_list_addr st) (memory_area st) (MEM_SPACE_MIN st)
          (MEM_SPACE_MAX st) (secret_number st) (current_fit_function st).

(** [mem_init]: [addr] and [total] are what the memory-space provider
    answers; [m0] is the memory content at that time and [head] the address
    of the static [free_block_list]. *)
Definition mem_init (m0 : mem) (head addr total : Z) : state :=
  let m1 := store64 m0 head addr in
  let m2 := store64 m1 addr (wrap (total - MEM_FREE_BLOCK_SIZE)) in
  let m3 := store64 m2 (addr + OFF_NEXT) NULL in
  mkState m3 head addr (wrap (addr + MEM_MIN_BLOCK_SIZE)) (wrap (addr + total - 1))
          0xDEADBEEFFEEDFACE FirstFit.

Definition mem_set_fit_handler (st : state) (mff : mem_fit_function_t) : state :=
  mkState (bytes st) (free_block_list_addr st) (memory_area st) (MEM_SPACE_MIN st)
          (MEM_SPACE_MAX st) (secret_number st) mff.

(** ** List surgery: search, remove, insert *)

(** [search_block(block, &list)] advances the local slot pointer [list];
    the model returns its final value. *)
Fixpoint search_block (fuel : nat) (m : mem) (block list : Z) : result Z :=
  match fuel with
  | O => OutOfFuel
  | S f =>
      let cur := load64 m list in
      if negb (cur =? NULL) && (cur <? block)
      then search_block f m block (wrap (cur + OFF_NEXT))
      else Done list
  end.

Definition remove_block (m : mem) (block list : Z) : mem :=
  if load64 m list =? block then
    let m1 := store64 m list (load64 m (block + OFF_NEXT)) in
    store64 m1 (block + OFF_NEXT) NULL
  else m.

Definition insert_block (m : mem) (area block list : Z) : mem :=
  let m1 :=
    if negb (load64 m list =? NULL) then
      if wrap (block + load64 m block + MEM_FREE_BLOCK_SIZE) =? load64 m list then
        let ma := store64 m block
                    (wrap (load64 m block + wrap (MEM_FREE_BLOCK_SIZE + load64 m (load64 m list)))) in
        store64 ma (block + OFF_NEXT) (load64 ma (load64 ma list + OFF_NEXT))
      else store64 m (block + OFF_NEXT) (load64 m list)
    else store64 m (block + OFF_NEXT) NULL in
  let prev := wrap (list - OFF_NEXT) in
  if prev >=? area then
    if wrap (prev + MEM_FREE_BLOCK_SIZE + load64 m1 prev) =? block then
      let mb := store64 m1 prev
                  (wrap (load64 m1 prev + wrap (MEM_FREE_BLOCK_SIZE + load64 m1 block))) in
      store64 mb (prev + OFF_NEXT) (load64 mb (block + OFF_NEXT))
    else store64 m1 (prev + OFF_NEXT) block
  else store64 m1 list block.

(** ** Public operations *)

Definition guard_of (st : state) (block : Z) : Z := Z.lxor block (secret_number st).

Definition mem_alloc (fuel : nat) (st : state) (size : Z) : result (Z * state) :=
  let m := bytes st in
  let size := wrap (size + SECRET_SIZE) in
  block <- call_fit (current_fit_function st) fuel m (free_block_list st)
             (wrap (size + MEM_FREE_ALL_DIFF)) ;;
  if block =? NULL then Done (NULL, st)
  else
    list <- search_block fuel m block (free_block_list_addr st) ;;
    let m1 := remove_block m block list in
    let '(size, m2) :=
      if wrap (wrap (load64 m1 block - size) - MEM_FREE_ALL_DIFF)
           <=? wrap (MEM_MAX_BLOCK_SIZE + SECRET_SIZE)
      then (wrap (load64 m1 block - MEM_FREE_ALL_DIFF), m1)
      else
        let new_free_block := wrap (block + size + MEM_ALL_BLOCK_SIZE) in
        let ma := store64 m1 new_free_block
                    (wrap (wrap (load64 m1 block - size) - MEM_ALL_BLOCK_SIZE)) in
        let mb := store64 ma (new_free_block + OFF_NEXT) NULL in
        (size, insert_block mb (memory_area st) new_free_block list) in
    let m3 := store64 m2 block size in
    let m4 := store64 m3 (block + OFF_GUARD) (guard_of st block) in
    let m5 := store64 m4 (wrap (block + MEM_ALL_BLOCK_SIZE + size - SECRET_SIZE))
                (guard_of st block) in
    Done (wrap (block + MEM_ALL_BLOCK_SIZE), with_bytes st m5).

Definition out_of_area (st : state) (zone : Z) : bool :=
  (zone =? NULL) || (zone <? MEM_SPACE_MIN st) || (zone >=? MEM_SPACE_MAX st).

Definition mem_free (fuel : nat) (st : state) (zone : Z) : result state :=
  if out_of_area st zone then Done st
  else
    let m := bytes st in
    let block_to_free := wrap (zone - MEM_ALL_BLOCK_SIZE) in
    let guard := guard_of st block_to_free in
    if negb (load64 m (block_to_free + OFF_GUARD) =? guard) then AssertFailed
    else if negb (load64 m (wrap (block_to_free + MEM_ALL_BLOCK_SIZE
                                  + load64 m block_to_free - SECRET_SIZE)) =? guard)
    then AssertFailed
    else
      let m1 := store64 m block_to_free (wrap (load64 m block_to_free - MEM_FREE_ALL_DIFF)) in
      let m2 := store64 m1 (block_to_free + OFF_NEXT) NULL in
      list <- search_block fuel m2 block_to_free (free_block_list_addr st) ;;
      Done (with_bytes st (insert_block m2 (memory_area st) block_to_free list)).

Definition mem_get_size (st : state) (zone : Z) : result Z :=
  if out_of_area st zone then Done 0
  else
    let m := bytes st in
    let block := wrap (zone - MEM_ALL_BLOCK_SIZE) in
    let guard := guard_of st block in
    if negb (load64 m (block + OFF_GUARD) =? guard) then Done 0
    else if negb (load64 m (wrap (block + MEM_ALL_BLOCK_SIZE + load64 m block - SECRET_SIZE))
                  =? guard)
    then Done 0
    else Done (wrap (load64 m block - SECRET_SIZE)).

(** ** Traversal *)

(** One call of the visitor: [print(payload, size, free)]. *)
Record visit : Type := mkVisit { v_payload : Z; v_size : Z; v_free : bool }.

(** The inner [while] of [mem_show]: print allocated blocks from
    [allocated_current] until it meets [stop] or reaches [MEM_SPACE_MAX]. *)
Fixpoint show_allocated (fuel : nat) (m : mem) (space_max stop allocated_current : Z)
  : result (list visit) :=
  match fuel with
  | O => OutOfFuel
  | S f =>
      if negb (allocated_current =? stop) && (allocated_current <? space_max) then
        rest <- show_allocated f m space_max stop
                  (wrap (allocated_current + MEM_ALL_BLOCK_SIZE + load64 m allocated_current)) ;;
        Done (mkVisit (wrap (allocated_current + MEM_ALL_BLOCK_SIZE))
                      (wrap (load64 m allocated_current - SECRET_SIZE)) false :: rest)
      else Done []
  end.

Fixpoint show_free (fuel : nat) (m : mem) (space_max free_current : Z) : result (list visit) :=
  match fuel with
  | O => OutOfFuel
  | S f =>
      if free_current =? NULL then Done []
      else
        let here := mkVisit (wrap (free_current + MEM_FREE_BLOCK_SIZE))
                            (wrap (load64 m free_current - SECRET_SIZE)) true in
        let allocated_current :=
          wrap (free_current + MEM_FREE_BLOCK_SIZE + load64 m free_current) in
        run <- show_allocated (S f) m space_max (load64 m (free_current + OFF_NEXT))
                 allocated_current ;;
        rest <- show_free f m space_max (load64 m (free_current + OFF_NEXT)) ;;
        Done (here :: run ++ rest)
  end.

(** [mem_show] returns the sequence of visitor calls. *)
Definition mem_show (fuel : nat) (st : state) : result (list visit) :=
  let m := bytes st in
  lead <- show_allocated fuel m (MEM_SPACE_MAX st) (free_block_list st) (memory_area st) ;;
  rest <- show_free fuel m (MEM_SPACE_MAX st) (free_block_list st) ;;
  Done (lead ++ rest).

(** ** Resize *)

Definition mem_realloc (fuel : nat) (st : state) (zone size : Z) : result (Z * state) :=
  if zone =? NULL then mem_alloc fuel st size
  else if (zone <? MEM_SPACE_MIN st) || (zone >=? MEM_SPACE_MAX st) then Done (NULL, st)
  else if size =? 0 then
    st1 <- mem_free fuel st zone ;;
    mem_alloc fuel st1 size
  else
    let m := bytes st in
    let size := wrap (size + SECRET_SIZE) in
    let block_to_realloc := wrap (zone - MEM_ALL_BLOCK_SIZE) in
    let guard := guard_of st block_to_realloc in
    if negb (load64 m (block_to_realloc + OFF_GUARD) =? guard) then AssertFailed
    else if negb (load64 m (wrap (block_to_realloc + MEM_ALL_BLOCK_SIZE
                                  + load64 m block_to_realloc - SECRET_SIZE)) =? guard)
    then AssertFailed
    else if size =? load64 m block_to_realloc then Done (zone, st)
    else
      let old := load64 m block_to_realloc in
      let right_block := wrap (block_to_realloc + old + MEM_ALL_BLOCK_SIZE) in
      list <- search_block fuel m right_block (free_block_list_addr st) ;;
      let trailer := wrap (block_to_realloc + MEM_ALL_BLOCK_SIZE + size - SECRET_SIZE) in
      if size <? old then
        if right_block =? load64 m list then
          (* case 3.1: the block on the right is free *)
          let new_free_block := wrap (block_to_realloc + size + MEM_ALL_BLOCK_SIZE) in
          let new_size := wrap (load64 m right_block + wrap (old - size)) in
          let m1 := store64 m new_free_block new_size in
          let m2 := store64 m1 (new_free_block + OFF_NEXT) NULL in
          let m3 := remove_block m2 right_block list in
          let m4 := insert_block m3 (memory_area st) new_free_block list in
          let m5 := store64 m4 block_to_realloc size in
          let m6 := store64 m5 trailer guard in
          Done (zone, with_bytes st m6)
        else if wrap (old - size) <=? wrap (MEM_MAX_BLOCK_SIZE + SECRET_SIZE) then
          (* case 3.2.1 *)
          Done (zone, st)
        else
          (* case 3.2.2 *)
          let new_free_block := wrap (block_to_realloc + size + MEM_ALL_BLOCK_SIZE) in
          let new_size := wrap (wrap (old - size) - MEM_FREE_BLOCK_SIZE) in
          let m1 := store64 m new_free_block new_size in
          let m2 := store64 m1 (new_free_block + OFF_NEXT) NULL in
          let m3 := insert_block m2 (memory_area st) new_free_block list in
          let m4 := store64 m3 block_to_realloc size in
          let m5 := store64 m4 trailer guard in
          Done (zone, with_bytes st m5)
      else if negb (right_block =? load64 m list)
              || (wrap (load64 m right_block + MEM_FREE_BLOCK_SIZE) <? wrap (size - old)) then
        (* case 4.1: relocate *)
        r <- mem_alloc fuel st (wrap (size - SECRET_SIZE)) ;;
        let '(result, st1) := r in
        if result =? NULL then Done (NULL, st1)
        else
          let n := wrap (load64 (bytes st1) block_to_realloc - SECRET_SIZE) in
          let st2 := with_bytes st1 (memcpy (bytes st1) result zone n) in
          st3 <- mem_free fuel st2 zone ;;
          Done (result, st3)
      else
        (* case 4.2: grow into the free right neighbour *)
        let m1 := remove_block m right_block list in
        if wrap (wrap (wrap (load64 m1 right_block - size) + load64 m1 block_to_realloc)
                 + MEM_FREE_BLOCK_SIZE)
             <=? wrap (MEM_MAX_BLOCK_SIZE + SECRET_SIZE) then
          (* case 4.2.1: absorb the whole neighbour *)
          let grown := wrap (load64 m1 block_to_realloc
                             + wrap (load64 m1 right_block + MEM_FREE_BLOCK_SIZE)) in
          let m2 := store64 m1 block_to_realloc grown in
          let m3 := store64 m2 (wrap (block_to_realloc + MEM_ALL_BLOCK_SIZE
                                      + load64 m2 block_to_realloc - SECRET_SIZE)) guard in
          Done (zone, with_bytes st m3)
        else
          (* case 4.2.2: split the neighbour *)
          let new_free_block := wrap (block_to_realloc + size + MEM_ALL_BLOCK_SIZE) in
          let m2 := store64 m1 new_free_block
                      (wrap (wrap (load64 m1 right_block - size) + load64 m1 block_to_realloc)) in
          let m3 := store64 m2 (new_free_block + OFF_NEXT) NULL in
          let m4 := store64 m3 block_to_realloc size in
          let m5 := store64 m4 (wrap (block_to_realloc + MEM_ALL_BLOCK_SIZE
                                      + load64 m4 block_to_realloc - SECRET_SIZE)) guard in
          Done (zone, with_bytes st (insert_block m5 (memory_area st) new_free_block list)).

(** * Specification vocabulary

    None of the definitions below is executed by the allocator; they
    describe what a well-formed heap looks like in the byte memory. *)

(** A free block as the list sees it: header address and [size] field. *)
Abbreviation blk := (Z * Z)%type (only parsing).

(** [fseg m p L q]: starting from pointer [p], following [next] fields
    visits exactly the blocks of [L], whose [size] fields are as listed,
    and ends on pointer [q]. *)
Fixpoint fseg (m : mem) (p : Z) (L : list blk) (q : Z) : Prop :=
  match L with
  | [] => p = q
  | (a, s) :: L' =>
      p = a /\ a <> NULL /\ load64 m a = s /\ fseg m (load64 m (a + OFF_NEXT)) L' q
  end.

(** [spaced lo L hi]: the blocks of [L] lie inside [lo, hi), in strictly
    ascending address order, and between the end of one and the start of
    the next there is at least one byte (they are neither overlapping nor
    adjacent). *)
Fixpoint spaced (lo : Z) (L : list blk) (hi : Z) : Prop :=
  match L with
  | [] => True
  | (a, s) :: L' =>
      lo <= a /\ 0 <= s /\ a + MEM_FREE_BLOCK_SIZE + s <= hi
      /\ spaced (a + MEM_FREE_BLOCK_SIZE + s + 1) L' hi
  end.

(** The arena [memory_area, memory_area + N) and the statics around it.
    The cell of the static [free_block_list] lies below the arena, which is
    what the test [prev >= memory_area] of [insert_block] relies on. *)
Record arena_ok (st : state) (N : Z) : Prop := {
  ao_head_lo : 8 <= free_block_list_addr st;
  ao_head_hi : free_block_list_addr st + 8 <= memory_area st;
  ao_top : memory_area st + N < 2 ^ 64;
  ao_min : MEM_SPACE_MIN st = memory_area st + 16;
  ao_max : MEM_SPACE_MAX st = memory_area st + N - 1;
  ao_secret : 0 <= secret_number st < 2 ^ 64
}.

(** The heap invariant on the free list (I2 and I3 of the specification,
    with every free block inside the arena). *)
Definition free_list_is (st : state) (N : Z) (L : list blk) : Prop :=
  arena_ok st N
  /\ fseg (bytes st) (free_block_list st) L NULL
  /\ spaced (memory_area st) L (memory_area st + N).

(** An allocated block at [p] whose [size] field is [s]: inside the arena,
    and outside every free block of [L]. *)
Definition allocated_at (st : state) (N : Z) (L : list blk) (p s : Z) : Prop :=
  memory_area st <= p
  /\ load64 (bytes st) p = s
  /\ p + MEM_ALL_BLOCK_SIZE + s <= memory_area st + N
  /\ forall a sa, In (a, sa) L -> a + MEM_FREE_BLOCK_SIZE + sa <= p \/ p + MEM_ALL_BLOCK_SIZE + s <= a.

(** Both guards of the block at [p] hold [p XOR secret]. *)
Definition guards_ok (st : state) (p : Z) : Prop :=
  load64 (bytes st) (p + OFF_GUARD) = guard_of st p
  /\ load64 (bytes st) (wrap (p + MEM_ALL_BLOCK_SIZE + load64 (bytes st) p - SECRET_SIZE))
     = guard_of st p.

(** Where the entry points read the trailing guard of the block at [p]:
    at the end of what the size field says the block is. *)
Definition trailer_addr (st : state) (p : Z) : Z :=
  wrap (p + MEM_ALL_BLOCK_SIZE + load64 (bytes st) p - SECRET_SIZE).

(** The guard checks read the trailer only once the header guard has
    matched; that read stays inside the arena. *)
Definition trailer_read_in_arena (st : state) (N p : Z) : Prop :=
  load64 (bytes st) (p + OFF_GUARD) = guard_of st p ->
  memory_area st <= trailer_addr st p
  /\ trailer_addr st p + SECRET_SIZE <= memory_area st + N.

(** The slot reached from slot [s] after walking over the blocks of [L]:
    the address of the [next] field of the last of them. *)
Fixpoint slot_after (s : Z) (L : list blk) : Z :=
  match L with
  | [] => s
  | (a, _) :: L' => slot_after (a + OFF_NEXT) L'
  end.

(** Coalescing on insertion (section 4.6 of the specification), on lists:
    [x] is inserted between [L1] and [L2]. *)
Definition fuse_right (x : blk) (L2 : list blk) : list blk :=
  match L2 with
  | (c, sc) :: L2' =>
      if fst x + snd x + MEM_FREE_BLOCK_SIZE =? c
      then (fst x, snd x + MEM_FREE_BLOCK_SIZE + sc) :: L2'
      else x :: L2
  | [] => [x]
  end.

Definition fuse_left (L1 : list blk) (R : list blk) : list blk :=
  match rev L1, R with
  | (a, sa) :: rL0, (x, sx) :: R' =>
      if a + MEM_FREE_BLOCK_SIZE + sa =? x
      then rev rL0 ++ (a, sa + MEM_FREE_BLOCK_SIZE + sx) :: R'
      else L1 ++ R
  | _, _ => L1 ++ R
  end.

Definition coalesce (L1 : list blk) (x : blk) (L2 : list blk) : list blk :=
  fuse_left L1 (fuse_right x L2).

(** A block of the arena as a traversal sees it: address, [size] field,
    and whether it is on the free list. *)
Record ablock : Type := mkBlock { b_addr : Z; b_size : Z; b_free : bool }.

(** [layout m cur nf bl hi]: from address [cur] up to [hi] the arena is the
    back-to-back sequence of blocks [bl]; [nf] is the next block of the
    free list (or [NULL]); the blocks flagged free are exactly those the
    free list threads through, in order. *)
Fixpoint layout (m : mem) (cur nf : Z) (bl : list ablock) (hi : Z) : Prop :=
  match bl with
  | [] => cur = hi /\ nf = NULL
  | b :: bl' =>
      b_addr b = cur /\ load64 m cur = b_size b
      /\ cur + 16 + b_size b <= hi
      /\ (if b_free b
          then nf = cur /\ layout m (cur + 16 + b_size b) (load64 m (cur + OFF_NEXT)) bl' hi
          else nf <> cur /\ layout m (cur + 16 + b_size b) nf bl' hi)
  end.

(** What [mem_show] tells the visitor about a block. *)
Definition visit_of (b : ablock) : visit :=
  mkVisit (b_addr b + 16) (wrap (b_size b - SECRET_SIZE)) (b_free b).

(** The byte ranges [start v, start v + len v) of a sequence of visits
    follow one another from [cur] to [hi]. *)
Fixpoint ranges_tile (start len : visit -> Z) (cur : Z) (vs : list visit) (hi : Z) : Prop :=
  match vs with
  | [] => cur = hi
  | v :: vs' => start v = cur /\ ranges_tile start len (cur + len v) vs' hi
  end.

(** The extent of a visited block: it starts at its header, one header
    size before the payload the visitor is given. *)
Definition span_start (v : visit) : Z := v_payload v - MEM_ALL_BLOCK_SIZE.

(** Its length as the specification counts it: reported size plus header. *)
Definition claimed_len (v : visit) : Z := v_size v + MEM_ALL_BLOCK_SIZE.

(** Its length in the arena: header, reported size, and the [SECRET_SIZE]
    bytes that [mem_show] subtracted from the size field. *)
Definition span_len (v : visit) : Z := MEM_ALL_BLOCK_SIZE + wrap (v_size v + SECRET_SIZE).

(** The pointers of the free list, as far as [fuel] reaches. *)
Fixpoint free_list_addrs (fuel : nat) (m : mem) (p : Z) : list Z :=
  match fuel with
  | O => []
  | S f => if p =? NULL then [] else p :: free_list_addrs f m (load64 m (p + OFF_NEXT))
  end.

Fixpoint strictly_ascending (l : list Z) : bool :=
  match l with
  | a :: ((b :: _) as l') => (a <? b) && strictly_ascending l'
  | _ => true
  end.

Definition hd_ptr (L : list blk) : Z :=
  match L with
  | [] => NULL
  | (a, _) :: _ => a
  end.

(** One past the last block of [L], or [lo] when there is none. *)
Fixpoint past (lo : Z) (L : list blk) : Z :=
  match L with
  | [] => lo
  | (a, s) :: L' => past (a + 16 + s + 1) L'
  end.

(** What the loop of [mem_best_fit] holds after the blocks of [P]. *)
Definition best_so_far (req : Z) (P : list blk) (best bsz : Z) : Prop :=
  (best = NULL /\ bsz = SIZE_MAX /\ forall a s, In (a, s) P -> s < req)
  \/ (exists P1 P2, P = P1 ++ (best, bsz) :: P2 /\ req <= bsz
                    /\ (forall a s, In (a, s) P1 -> req <= s -> bsz < s)
                    /\ (forall a s, In (a, s) P2 -> req <= s -> bsz <= s)).

(** The answer: no block fits, or the first block of least fitting size. *)
Definition best_choice (req : Z) (W : list blk) (r : Z) : Prop :=
  (r = NULL /\ forall a s, In (a, s) W -> s < req)
  \/ (exists s W1 W2, W = W1 ++ (r, s) :: W2 /\ req <= s
                      /\ (forall a' s', In (a', s') W1 -> req <= s' -> s < s')
                      /\ (forall a' s', In (a', s') W2 -> req <= s' -> s <= s')).

(** The situation in which a block [x] of size [sx] is linked at the slot
    that follows [L1]: the list is [L1 ++ L2], and [x] lies between the
    two parts. *)
Record link_ctx (m : mem) (s0 lo hi : Z) (L1 L2 : list blk) (x sx : Z) : Prop := {
  lc_head_lo : 8 <= s0;
  lc_head_hi : s0 + 8 <= lo;
  lc_top : hi < 2 ^ 64;
  lc_seg1 : fseg m (load64 m s0) L1 (hd_ptr L2);
  lc_seg2 : fseg m (hd_ptr L2) L2 NULL;
  lc_sp1 : spaced lo L1 hi;
  lc_sp2 : spaced lo L2 hi;
  lc_size : load64 m x = sx;
  lc_lo : lo <= x;
  lc_hi : x + 16 + sx <= hi;
  lc_after : forall a sa, In (a, sa) L1 -> a + 16 + sa <= x;
  lc_before : forall c sc, In (c, sc) L2 -> x + 16 + sx <= c
}.

(** The memory after the first half of [insert_block]. *)
Definition insert_right (m : mem) (x slot : Z) : mem :=
  if negb (load64 m slot =? NULL) then
    if wrap (x + load64 m x + MEM_FREE_BLOCK_SIZE) =? load64 m slot then
      let ma := store64 m x
                  (wrap (load64 m x + wrap (MEM_FREE_BLOCK_SIZE + load64 m (load64 m slot)))) in
      store64 ma (x + OFF_NEXT) (load64 ma (load64 ma slot + OFF_NEXT))
    else store64 m (x + OFF_NEXT) (load64 m slot)
  else store64 m (x + OFF_NEXT) NULL.

(** What a successful [mem_alloc] leaves behind, when the policy chose the
    block [(b, sz)] between [L1] and [L2] for the effective size [e]. *)
Definition alloc_take (sz e : Z) : Z :=
  if sz - e <=? 24 then sz else e.

Definition alloc_list (L1 : list blk) (b sz e : Z) (L2 : list blk) : list blk :=
  if sz - e <=? 24 then L1 ++ L2 else L1 ++ (b + 16 + e, sz - e - 16) :: L2.

Record alloc_post (st : state) (N : Z) (L1 : list blk) (b sz : Z) (L2 : list blk)
       (e : Z) (m' : mem) : Prop := {
  ap_list : free_list_is (with_bytes st m') N (alloc_list L1 b sz e L2);
  ap_size : load64 m' b = alloc_take sz e;
  ap_guards : 8 <= alloc_take sz e -> guards_ok (with_bytes st m') b;
  ap_frame : forall y,
      y < b \/ b + 16 + sz <= y ->
      y < free_block_list_addr st \/ free_block_list_addr st + 8 <= y ->
      (forall a sa, In (a, sa) L1 -> y < a \/ a + 16 <= y) ->
      m' y = bytes st y
}.

(** The bytes the blocks of a layout occupy: header plus [size] field for
    each, free or allocated (both headers are 16 bytes). *)
Definition block_bytes (bl : list ablock) : Z :=
  fold_right (fun b acc => (if b_free b then MEM_FREE_BLOCK_SIZE else MEM_ALL_BLOCK_SIZE)
                           + b_size b + acc) 0 bl.

(** The situation of an in-place resize of the live block [p] of size
    [old]: the free list is [L1 ++ L2], with [L1] before the block and
    [L2] from its right neighbour on. *)
Record resize_ctx (st : state) (N : Z) (L1 L2 : list blk) (p old : Z) : Prop := {
  rc_list : free_list_is st N (L1 ++ L2);
  rc_lo : memory_area st <= p;
  rc_size : 0 <= old;
  rc_hi : p + 16 + old <= memory_area st + N;
  rc_before : forall a sa, In (a, sa) L1 -> a + 16 + sa <= p;
  rc_after : forall c sc, In (c, sc) L2 -> p + old + 16 <= c
}.

(** ** What the placement policies choose

    [picks f req W1 s W2]: the block of size [s] that stands between [W1]
    and [W2] in the list is the one policy [f] returns for the request
    [req]. *)
Definition picks (f : mem_fit_function_t) (req : Z) (W1 : list blk) (s : Z) (W2 : list blk)
  : Prop :=
  req <= s
  /\ match f with
     | FirstFit => forall a' s', In (a', s') W1 -> s' < req
     | BestFit => (forall a' s', In (a', s') W1 -> req <= s' -> s < s')
                  /\ (forall a' s', In (a', s') W2 -> req <= s' -> s <= s')
     | WorstFit => 0 < s
                   /\ (forall a' s', In (a', s') W1 -> req <= s' -> s' < s)
                   /\ (forall a' s', In (a', s') W2 -> req <= s' -> s' <= s)
     end.

(** No block of [W] is returned by policy [f]: every block is too small,
    or (worst fit only, whose running maximum starts at 0) empty. *)
Definition nothing_fits (f : mem_fit_function_t) (req : Z) (W : list blk) : Prop :=
  forall a s, In (a, s) W -> s < req \/ (f = WorstFit /\ s = 0).

Definition policy_choice (f : mem_fit_function_t) (req : Z) (W : list blk) (r : Z) : Prop :=
  (r = NULL /\ nothing_fits f req W)
  \/ (exists s W1 W2, W = W1 ++ (r, s) :: W2 /\ picks f req W1 s W2).

(** What the loop of [mem_worst_fit] holds after the blocks of [P]. *)
Definition worst_so_far (req : Z) (P : list blk) (worst wsz : Z) : Prop :=
  (worst = NULL /\ wsz = 0 /\ forall a s, In (a, s) P -> s < req \/ s = 0)
  \/ (exists P1 P2, P = P1 ++ (worst, wsz) :: P2 /\ req <= wsz /\ 0 < wsz
                    /\ (forall a s, In (a, s) P1 -> req <= s -> s < wsz)
                    /\ (forall a s, In (a, s) P2 -> req <= s -> s <= wsz)).

(** [st1] differs from [st] in the memory content only: the statics other
    than [free_block_list] are the same. *)
Definition same_statics (st st1 : state) : Prop := st1 = with_bytes st (bytes st1).

(** Between [st] and [st1] nothing was written inside the arena outside
    the block [p] (of size [old]) and the free blocks of [L]. *)
Definition writes_within (st st1 : state) (L : list blk) (p old : Z) : Prop :=
  same_statics st st1
  /\ forall y,
      memory_area st <= y ->
      y < p \/ p + MEM_ALL_BLOCK_SIZE + old <= y ->
      (forall a sa, In (a, sa) L -> y < a \/ a + MEM_FREE_BLOCK_SIZE + sa <= y) ->
      bytes st1 y = bytes st y.

(** ** The heap as a whole *)

(** The bytes the blocks of a list occupy, headers included (both headers
    are 16 bytes). *)
Definition block_total (L : list blk) : Z :=
  fold_right (fun b acc => MEM_FREE_BLOCK_SIZE + snd b + acc) 0 L.

(** No two blocks of [A] overlap. *)
Fixpoint apart (A : list blk) : Prop :=
  match A with
  | [] => True
  | (q, sq) :: A' =>
      (forall q' sq', In (q', sq') A' ->
                      q + MEM_ALL_BLOCK_SIZE + sq <= q' \/ q' + MEM_ALL_BLOCK_SIZE + sq' <= q)
      /\ apart A'
  end.

(** The heap invariant.  [L] is the free list and [A] the live blocks
    (address and [size] field of each): the free list is well formed; every
    live block lies inside the arena, outside every free block, with both
    guards intact and room for its trailer; no two live blocks overlap; and
    the free and live blocks together account for the [N] bytes of the
    arena. *)
Definition heap_ok (st : state) (N : Z) (L A : list blk) : Prop :=
  free_list_is st N L
  /\ (forall q sq, In (q, sq) A ->
                   allocated_at st N L q sq /\ guards_ok st q /\ SECRET_SIZE <= sq)
  /\ apart A
  /\ block_total L + block_total A = N.

(** What an in-place resize of the live block [p] leaves behind, from
    state [st] with free list [L] to state [st1] with free list [L']: the
    block has [size] in its size field and intact guards, lies inside the
    arena and outside every free block; the bytes given up or taken moved
    between the block and the free list; and whatever range avoided the
    free blocks and the block before avoids them now. *)
Record resized_in_place (st st1 : state) (N : Z) (L L' : list blk) (p old size : Z)
  : Prop := {
  rp_size : load64 (bytes st1) p = size;
  rp_guards : guards_ok st1 p;
  rp_min : SECRET_SIZE <= size;
  rp_end : p + MEM_ALL_BLOCK_SIZE + size <= memory_area st + N;
  rp_clear : forall a sa, In (a, sa) L' ->
                          a + MEM_FREE_BLOCK_SIZE + sa <= p \/ p + MEM_ALL_BLOCK_SIZE + size <= a;
  rp_total : block_total L' + size = block_total L + old;
  rp_covered : forall q qe,
      q < qe ->
      (forall a sa, In (a, sa) L -> a + MEM_FREE_BLOCK_SIZE + sa <= q \/ qe <= a) ->
      p + MEM_ALL_BLOCK_SIZE + old <= q \/ qe <= p ->
      (forall a sa, In (a, sa) L' -> a + MEM_FREE_BLOCK_SIZE + sa <= q \/ qe <= a)
      /\ (p + MEM_ALL_BLOCK_SIZE + size <= q \/ qe <= p)
}.

(** * Worked scenarios

    A 4096-byte arena at a page-aligned address, the static
    [free_block_list] below it, and memory that is zero before [mem_init]. *)

Definition ex_head : Z := 0x8000.
Definition ex_base : Z := 0x10000.
Definition ex_total : Z := 4096.
Definition ex_init : state := mem_init (fun _ => 0) ex_head ex_base ex_total.

Definition ptr_of (r : result (Z * state)) : Z :=
  match r with Done (p, _) => p | _ => NULL end.

Definition state_of (d : state) (r : result (Z * state)) : state :=
  match r with Done (_, s) => s | _ => d end.

Definition is_done {A : Type} (r : result A) : bool :=
  match r with Done _ => true | _ => false end.

Definition freed (d : state) (r : result state) : state :=
  match r with Done s => s | _ => d end.

(** The caller writing one byte, as [ptr[i] = v] does. *)
Definition poke (st : state) (x v : Z) : state :=
  with_bytes st (fun y => if y =? x then v else bytes st y).

(** Scenario S6 of the specification: [p = mem_alloc(32)], then the first
    byte after the 32 user bytes is overwritten. *)
Definition ex_s6_alloc : result (Z * state) := mem_alloc 8 ex_init 32.
Definition ex_s6_ptr : Z := ptr_of ex_s6_alloc.
Definition ex_s6_smashed : state := poke (state_of ex_init ex_s6_alloc) (ex_s6_ptr + 32) 65.

(** Three allocations of 20 bytes, the middle one freed: the arena is then
    allocated, free, allocated, free. *)
Definition ex_a : result (Z * state) := mem_alloc 8 ex_init 20.
Definition ex_b : result (Z * state) := mem_alloc 8 (state_of ex_init ex_a) 20.
Definition ex_c : result (Z * state) := mem_alloc 8 (state_of ex_init ex_b) 20.
Definition ex_holes : state :=
  freed ex_init (mem_free 8 (state_of ex_init ex_c) (ptr_of ex_b)).

Definition ex_holes_blocks : list ablock :=
  [ mkBlock ex_base 28 false;
    mkBlock (ex_base + 44) 28 true;
    mkBlock (ex_base + 88) 28 false;
    mkBlock (ex_base + 132) 3948 true ].

Definition ex_holes_free : list blk := [(ex_base + 44, 28); (ex_base + 132, 3948)].

(** A request of [2^64 - 1] bytes on the fresh arena. *)
Definition ex_huge : result (Z * state) := mem_alloc 8 ex_init (2 ^ 64 - 1).

(** The state after the three allocations, before anything is freed. *)
Definition ex_three : state := state_of ex_init ex_c.
Definition ex_three_free : list blk := [(ex_base + 132, 3948)].

(** A resize of the first of three live blocks to a size for which
    [s + 8] wraps to zero. *)
Definition ex_wrapped : result (Z * state) :=
  mem_realloc 8 ex_three (ex_base + 16) (2 ^ 64 - 8).

(** Shrinking the first block by seven bytes while its right neighbour is
    free: [mem_realloc(a, 13)] where [a] holds 20 user bytes. *)
Definition ex_shrunk : result (Z * state) := mem_realloc 8 ex_holes (ptr_of ex_a) 13.
Definition ex_after_shrink : state := state_of ex_holes ex_shrunk.

(** A request that leaves too little of the chosen block to split, and a
    shrink that leaves too little to carve a free block. *)
Definition ex_big : result (Z * state) := mem_alloc 8 ex_init 4060.
Definition ex_kept : result (Z * state) := mem_realloc 8 ex_three (ptr_of ex_a) 10.

(** * Properties *)

(** ** Words *)

Lemma wrap_small (x : Z) : 0 <= x < 2 ^ 64 -> wrap x = x.
Proof. intro H. unfold wrap. apply Z.mod_small. exact H. Qed.

Lemma wrap_range (x : Z) : 0 <= wrap x < 2 ^ 64.
Proof. unfold wrap. apply Z.mod_pos_bound. reflexivity. Qed.

Lemma wrap_sub_small (x : Z) : - 2 ^ 64 <= x < 0 -> wrap x = x + 2 ^ 64.
Proof.
  intro H. unfold wrap.
  symmetry. apply Z.mod_unique with (q := -1); lia.
Qed.

Lemma DIFF_zero : MEM_FREE_ALL_DIFF = 0.
Proof. reflexivity. Qed.

Lemma MAX_BLOCK_16 : MEM_MAX_BLOCK_SIZE = 16.
Proof. reflexivity. Qed.

(** ** Loads and stores *)

Lemma load64_range (m : mem) (a : Z) : 0 <= load64 m a < 2 ^ 64.
Proof.
  unfold load64.
  pose proof (Z.mod_pos_bound (m a) 256 eq_refl).
  pose proof (Z.mod_pos_bound (m (a + 1)) 256 eq_refl).
  pose proof (Z.mod_pos_bound (m (a + 2)) 256 eq_refl).
  pose proof (Z.mod_pos_bound (m (a + 3)) 256 eq_refl).
  pose proof (Z.mod_pos_bound (m (a + 4)) 256 eq_refl).
  pose proof (Z.mod_pos_bound (m (a + 5)) 256 eq_refl).
  pose proof (Z.mod_pos_bound (m (a + 6)) 256 eq_refl).
  pose proof (Z.mod_pos_bound (m (a + 7)) 256 eq_refl).
  change (2 ^ 8) with 256. change (2 ^ 16) with 65536.
  change (2 ^ 24) with 16777216. change (2 ^ 32) with 4294967296.
  change (2 ^ 40) with 1099511627776. change (2 ^ 48) with 281474976710656.
  change (2 ^ 56) with 72057594037927936. change (2 ^ 64) with 18446744073709551616.
  lia.
Qed.

(** A load depends on the eight bytes it covers only. *)
Lemma load64_ext (m m' : mem) (a : Z) :
  (forall i, 0 <= i < 8 -> m' (a + i) = m (a + i)) -> load64 m' a = load64 m a.
Proof.
  intro H. unfold load64.
  replace (m' a) with (m a) by (rewrite <- (Z.add_0_r a) at 1 2; symmetry; apply H; lia).
  rewrite !H by lia. reflexivity.
Qed.

Lemma store64_out (m : mem) (a v x : Z) : x < a \/ a + 8 <= x -> store64 m a v x = m x.
Proof.
  intro H. unfold store64.
  destruct (a <=? x) eqn:E1; destruct (x <? a + 8) eqn:E2; simpl; try reflexivity.
  apply Z.leb_le in E1. apply Z.ltb_lt in E2. lia.
Qed.

Lemma store64_in (m : mem) (a v i : Z) : 0 <= i < 8 -> store64 m a v (a + i) = byte_of v i.
Proof.
  intro H. unfold store64.
  replace (a <=? a + i) with true by (symmetry; apply Z.leb_le; lia).
  replace (a + i <? a + 8) with true by (symmetry; apply Z.ltb_lt; lia).
  simpl. f_equal. lia.
Qed.

Lemma load64_store64_other (m : mem) (a v b : Z) :
  b + 8 <= a \/ a + 8 <= b -> load64 (store64 m a v) b = load64 m b.
Proof.
  intro H. apply load64_ext. intros i Hi. apply store64_out. lia.
Qed.

Lemma byte_of_mod (v i : Z) : byte_of v i mod 256 = byte_of v i.
Proof. unfold byte_of. apply Z.mod_mod. lia. Qed.

Lemma word_bytes (v : Z) :
  0 <= v < 2 ^ 64 ->
  byte_of v 0 + 2 ^ 8 * byte_of v 1 + 2 ^ 16 * byte_of v 2 + 2 ^ 24 * byte_of v 3
  + 2 ^ 32 * byte_of v 4 + 2 ^ 40 * byte_of v 5 + 2 ^ 48 * byte_of v 6
  + 2 ^ 56 * byte_of v 7 = v.
Proof.
  intro H. unfold byte_of.
  change (8 * 0) with 0. change (8 * 1) with 8. change (8 * 2) with 16.
  change (8 * 3) with 24. change (8 * 4) with 32. change (8 * 5) with 40.
  change (8 * 6) with 48. change (8 * 7) with 56.
  change (2 ^ 0) with 1. rewrite Z.div_1_r.
  change (2 ^ 8) with 256. change (2 ^ 16) with (256 * 256).
  change (2 ^ 24) with (256 * 256 * 256). change (2 ^ 32) with (256 * 256 * 256 * 256).
  change (2 ^ 40) with (256 * 256 * 256 * 256 * 256).
  change (2 ^ 48) with (256 * 256 * 256 * 256 * 256 * 256).
  change (2 ^ 56) with (256 * 256 * 256 * 256 * 256 * 256 * 256).
  change (2 ^ 64) with (256 * 256 * 256 * 256 * 256 * 256 * 256 * 256) in H.
  rewrite <- !Z.div_div by lia.
  set (v1 := v / 256). set (v2 := v1 / 256). set (v3 := v2 / 256). set (v4 := v3 / 256).
  set (v5 := v4 / 256). set (v6 := v5 / 256). set (v7 := v6 / 256).
  pose proof (Z.div_mod v 256 ltac:(lia)) as E0. fold v1 in E0.
  pose proof (Z.div_mod v1 256 ltac:(lia)) as E1. fold v2 in E1.
  pose proof (Z.div_mod v2 256 ltac:(lia)) as E2. fold v3 in E2.
  pose proof (Z.div_mod v3 256 ltac:(lia)) as E3. fold v4 in E3.
  pose proof (Z.div_mod v4 256 ltac:(lia)) as E4. fold v5 in E4.
  pose proof (Z.div_mod v5 256 ltac:(lia)) as E5. fold v6 in E5.
  pose proof (Z.div_mod v6 256 ltac:(lia)) as E6. fold v7 in E6.
  pose proof (Z.div_mod v7 256 ltac:(lia)) as E7.
  assert (v7 / 256 = 0) as Z8.
  { apply Z.div_small.
    pose proof (Z.mod_pos_bound v 256 ltac:(lia)).
    pose proof (Z.mod_pos_bound v1 256 ltac:(lia)).
    pose proof (Z.mod_pos_bound v2 256 ltac:(lia)).
    pose proof (Z.mod_pos_bound v3 256 ltac:(lia)).
    pose proof (Z.mod_pos_bound v4 256 ltac:(lia)).
    pose proof (Z.mod_pos_bound v5 256 ltac:(lia)).
    pose proof (Z.mod_pos_bound v6 256 ltac:(lia)).
    lia. }
  rewrite Z8 in E7. lia.
Qed.

Lemma load64_store64_same (m : mem) (a v : Z) :
  0 <= v < 2 ^ 64 -> load64 (store64 m a v) a = v.
Proof.
  intro H. unfold load64.
  replace (store64 m a v a) with (byte_of v 0)
    by (rewrite <- (Z.add_0_r a) at 2; symmetry; apply store64_in; lia).
  rewrite !store64_in by lia. rewrite !byte_of_mod. apply word_bytes. exact H.
Qed.

Lemma memcpy_out (m : mem) (dst src n x : Z) :
  x < dst \/ dst + n <= x -> memcpy m dst src n x = m x.
Proof.
  intro H. unfold memcpy.
  destruct (dst <=? x) eqn:E1; destruct (x <? dst + n) eqn:E2; simpl; try reflexivity.
  apply Z.leb_le in E1. apply Z.ltb_lt in E2. lia.
Qed.

Lemma memcpy_in (m : mem) (dst src n i : Z) :
  0 <= i < n -> memcpy m dst src n (dst + i) = m (src + i).
Proof.
  intro H. unfold memcpy.
  replace (dst <=? dst + i) with true by (symmetry; apply Z.leb_le; lia).
  replace (dst + i <? dst + n) with true by (symmetry; apply Z.ltb_lt; lia).
  simpl. f_equal. lia.
Qed.

Lemma load64_memcpy_other (m : mem) (dst src n b : Z) :
  b + 8 <= dst \/ dst + n <= b -> load64 (memcpy m dst src n) b = load64 m b.
Proof.
  intro H. apply load64_ext. intros i Hi. apply memcpy_out. lia.
Qed.

(** ** Guard checks of the three entry points *)

Lemma guard_mismatch_cases (st : state) (p : Z) :
  ~ guards_ok st p ->
  negb (load64 (bytes st) (p + OFF_GUARD) =? guard_of st p) = true
  \/ (negb (load64 (bytes st) (p + OFF_GUARD) =? guard_of st p) = false
      /\ negb (load64 (bytes st)
                 (wrap (p + MEM_ALL_BLOCK_SIZE + load64 (bytes st) p - SECRET_SIZE))
               =? guard_of st p) = true).
Proof.
  intro H. unfold guards_ok in H.
  destruct (load64 (bytes st) (p + OFF_GUARD) =? guard_of st p) eqn:E1; simpl.
  - right. split; [reflexivity|].
    destruct (load64 (bytes st)
                (wrap (p + MEM_ALL_BLOCK_SIZE + load64 (bytes st) p - SECRET_SIZE))
              =? guard_of st p) eqn:E2; simpl; [|reflexivity].
    exfalso. apply H. split; apply Z.eqb_eq; assumption.
  - left. reflexivity.
Qed.

(** C4 (as the code has it): for a pointer inside the arena bounds, a
    header guard or trailer that differs from [guard(p)] makes the size
    query return 0 normally, without any assertion, whereas [mem_free]
    and [mem_realloc], to any size, stop on a failed assertion (a resize
    to zero in the [mem_free] it calls first).  The header the three
    functions read lies inside the arena; the trailer, which they read
    where the size field puts it once the header guard has matched, is
    required to. *)
Theorem get_size_guard_mismatch_returns_zero (st : state) (N zone : Z) :
  arena_ok st N ->
  out_of_area st zone = false ->
  trailer_read_in_arena st N (wrap (zone - MEM_ALL_BLOCK_SIZE)) ->
  ~ guards_ok st (wrap (zone - MEM_ALL_BLOCK_SIZE)) ->
  (memory_area st <= wrap (zone - MEM_ALL_BLOCK_SIZE)
   /\ wrap (zone - MEM_ALL_BLOCK_SIZE) + MEM_ALL_BLOCK_SIZE <= memory_area st + N)
  /\ mem_get_size st zone = Done 0
  /\ (forall fuel, mem_free fuel st zone = AssertFailed)
  /\ (forall fuel size, mem_realloc fuel st zone size = AssertFailed).
Proof.
  intros Hok Harea _ Hbad.
  apply guard_mismatch_cases in Hbad.
  assert ((zone =? NULL) = false
          /\ ((zone <? MEM_SPACE_MIN st) || (zone >=? MEM_SPACE_MAX st)) = false) as [Hz Hb].
  { unfold out_of_area in Harea.
    destruct (zone =? NULL); simpl in Harea; [discriminate|].
    split; [reflexivity|exact Harea]. }
  assert (forall fuel, mem_free fuel st zone = AssertFailed) as Hfree.
  { intro fuel. unfold mem_free. rewrite Harea.
    destruct Hbad as [H1 | [H1 H2]].
    + rewrite H1. reflexivity.
    + rewrite H1, H2. reflexivity. }
  split; [|split; [|split; [exact Hfree|]]].
  - destruct Hok as [Hhead_lo Hhead_hi Htop Hmin Hmax Hsecret].
    apply orb_false_iff in Hb. destruct Hb as [Hlo Hhi].
    apply Z.ltb_ge in Hlo. rewrite Z.geb_leb in Hhi. apply Z.leb_gt in Hhi.
    unfold MEM_ALL_BLOCK_SIZE.
    rewrite (wrap_small (zone - 16)) by lia. lia.
  - unfold mem_get_size. rewrite Harea.
    destruct Hbad as [H1 | [H1 H2]].
    + rewrite H1. reflexivity.
    + rewrite H1, H2. reflexivity.
  - intros fuel size. unfold mem_realloc. rewrite Hz, Hb.
    destruct (size =? 0).
    + rewrite Hfree. reflexivity.
    + destruct Hbad as [H1 | [H1 H2]].
      * rewrite H1. reflexivity.
      * rewrite H1, H2. reflexivity.
Qed.

Lemma ex_s6_guard_broken : ~ guards_ok ex_s6_smashed (wrap (ex_s6_ptr - MEM_ALL_BLOCK_SIZE)).
Proof. intros [_ H]. vm_compute in H. discriminate H. Qed.

(** C4 as the specification words it does not hold: in scenario S6 the
    trailer is corrupt, [mem_free] fails its assertion, and the size query
    on the same pointer returns 0 instead. *)
Lemma get_size_does_not_assert :
  ~ guards_ok ex_s6_smashed (wrap (ex_s6_ptr - MEM_ALL_BLOCK_SIZE))
  /\ mem_free 8 ex_s6_smashed ex_s6_ptr = AssertFailed
  /\ mem_get_size ex_s6_smashed ex_s6_ptr = Done 0
  /\ mem_get_size ex_s6_smashed ex_s6_ptr <> AssertFailed.
Proof.
  split; [exact ex_s6_guard_broken|].
  split; [vm_compute; reflexivity|].
  split; [vm_compute; reflexivity|].
  vm_compute. discriminate.
Qed.

(** ** The free list in memory *)

Ltac consts_goal :=
  change MEM_FREE_BLOCK_SIZE with 16;
  change MEM_ALL_BLOCK_SIZE with 16;
  change MEM_MAX_BLOCK_SIZE with 16;
  change MEM_MIN_BLOCK_SIZE with 16;
  change MEM_FREE_ALL_DIFF with 0;
  change SECRET_SIZE with 8;
  change OFF_NEXT with 8;
  change OFF_GUARD with 8;
  change NULL with 0.

Ltac consts :=
  change MEM_FREE_BLOCK_SIZE with 16 in *;
  change MEM_ALL_BLOCK_SIZE with 16 in *;
  change MEM_MAX_BLOCK_SIZE with 16 in *;
  change MEM_MIN_BLOCK_SIZE with 16 in *;
  change MEM_FREE_ALL_DIFF with 0 in *;
  change SECRET_SIZE with 8 in *;
  change OFF_NEXT with 8 in *;
  change OFF_GUARD with 8 in *;
  change NULL with 0 in *.

(** Strip [wrap] from terms that are in range. *)
Ltac unwrap :=
  repeat match goal with
         | |- context [wrap ?x] => rewrite (wrap_small x) by lia
         end.

(** Resolve loads through stores whose cells are equal or disjoint. *)
Ltac mem_simpl :=
  repeat first
    [ rewrite load64_store64_same by lia
    | rewrite load64_store64_other by lia ].

Ltac lsimpl :=
  cbn [fseg spaced hd_ptr fuse_right fuse_left coalesce fst snd In slot_after
       app rev length past] in *;
  consts.

Lemma fseg_hd (m : mem) (p : Z) (L : list blk) : fseg m p L NULL -> p = hd_ptr L.
Proof. destruct L as [|[a s] L]; simpl; intuition. Qed.

Lemma fseg_app (m : mem) (L1 L2 : list blk) :
  forall p q, fseg m p (L1 ++ L2) q <-> exists r, fseg m p L1 r /\ fseg m r L2 q.
Proof.
  induction L1 as [|[a s] L1 IH]; intros p q; simpl.
  - split.
    + intro H. exists p. split; [reflexivity|exact H].
    + intros [r [-> H]]. exact H.
  - split.
    + intros (Hp & Ha & Hs & Hn). apply IH in Hn. destruct Hn as [r [H1 H2]].
      exists r. repeat split; assumption.
    + intros [r [(Hp & Ha & Hs & Hn) H2]]. repeat split; try assumption.
      apply IH. exists r. split; assumption.
Qed.

Lemma fseg_frame (m m' : mem) (L : list blk) :
  forall p q,
    (forall a s, In (a, s) L ->
                 load64 m' a = load64 m a /\ load64 m' (a + 8) = load64 m (a + 8)) ->
    fseg m p L q -> fseg m' p L q.
Proof.
  induction L as [|[a s] L IH]; intros p q Hag H; simpl in *.
  - exact H.
  - destruct H as (Hp & Ha & Hs & Hn).
    destruct (Hag a s (or_introl eq_refl)) as [E1 E2].
    repeat split; try assumption.
    + rewrite E1. exact Hs.
    + change OFF_NEXT with 8. rewrite E2. apply IH.
      * intros a' s' Hin. apply (Hag a' s'). right. exact Hin.
      * exact Hn.
Qed.

Lemma spaced_weaken (L : list blk) :
  forall lo lo' hi hi', lo' <= lo -> hi <= hi' -> spaced lo L hi -> spaced lo' L hi'.
Proof.
  induction L as [|[a s] L IH]; intros lo lo' hi hi' Hlo Hhi H; simpl in *.
  - exact I.
  - consts. destruct H as (H1 & H2 & H3 & H4). repeat split; try lia.
    eapply IH; [| |exact H4]; lia.
Qed.

Lemma spaced_In (L : list blk) :
  forall lo hi a s, spaced lo L hi -> In (a, s) L -> lo <= a /\ 0 <= s /\ a + 16 + s <= hi.
Proof.
  induction L as [|[a0 s0] L IH]; intros lo hi a s H Hin; simpl in *.
  - contradiction.
  - consts. destruct H as (H1 & H2 & H3 & H4). destruct Hin as [E | Hin].
    + inversion E; subst. lia.
    + specialize (IH _ _ _ _ H4 Hin). lia.
Qed.

Lemma past_ge (L : list blk) : forall lo hi, spaced lo L hi -> lo <= past lo L <= Z.max lo (hi + 1).
Proof.
  induction L as [|[a s] L IH]; intros lo hi H; simpl in *.
  - lia.
  - consts. destruct H as (H1 & H2 & H3 & H4). specialize (IH _ _ H4). lia.
Qed.

Lemma spaced_app (L1 L2 : list blk) :
  forall lo hi, spaced lo (L1 ++ L2) hi <-> spaced lo L1 hi /\ spaced (past lo L1) L2 hi.
Proof.
  induction L1 as [|[a s] L1 IH]; intros lo hi; simpl.
  - tauto.
  - rewrite IH. consts. tauto.
Qed.

Lemma past_snoc (L : list blk) (a s : Z) :
  forall lo, past lo (L ++ [(a, s)]) = a + 16 + s + 1.
Proof.
  induction L as [|[a0 s0] L IH]; intros lo; simpl.
  - reflexivity.
  - apply IH.
Qed.

Lemma slot_after_snoc (L : list blk) (a s : Z) :
  forall s0, slot_after s0 (L ++ [(a, s)]) = a + 8.
Proof.
  induction L as [|[a0 s0'] L IH]; intros s0; simpl.
  - reflexivity.
  - apply IH.
Qed.

Lemma snoc_cases (L : list blk) : L = [] \/ exists L0 a s, L = L0 ++ [(a, s)].
Proof.
  destruct L as [|b L]; [left; reflexivity|right].
  destruct (@exists_last _ (b :: L) ltac:(discriminate)) as [L0 [[a s] E]].
  exists L0, a, s. exact E.
Qed.

Lemma slot_after_bounds (L : list blk) :
  forall s lo hi,
    spaced lo L hi -> s + 8 <= lo ->
    (L = [] /\ slot_after s L = s)
    \/ (L <> [] /\ lo + 8 <= slot_after s L /\ slot_after s L + 8 <= hi).
Proof.
  induction L as [|[a sa] L IH]; intros s lo hi H Hs; simpl in *.
  - left. split; reflexivity.
  - right. consts. destruct H as (H1 & H2 & H3 & H4).
    split; [discriminate|].
    destruct (IH (a + 8) _ _ H4 ltac:(lia)) as [[E1 E2] | (E1 & E2 & E3)].
    + rewrite E2. lia.
    + lia.
Qed.

Lemma search_block_spec (m : mem) (t : Z) (L1 : list blk) :
  forall s fuel q lo hi,
    fseg m (load64 m s) L1 q ->
    spaced lo L1 hi -> 0 <= lo -> hi < 2 ^ 64 ->
    (forall a sa, In (a, sa) L1 -> a < t) ->
    (q = NULL \/ t <= q) ->
    (length L1 < fuel)%nat ->
    search_block fuel m t s = Done (slot_after s L1) /\ load64 m (slot_after s L1) = q.
Proof.
  induction L1 as [|[a sa] L1 IH]; intros s fuel q lo hi Hseg Hsp Hlo Hhi Hlt Hq Hfuel;
    (destruct fuel as [|fuel]; [simpl in Hfuel; lia|]); simpl in *.
  - rewrite Hseg. split; [|reflexivity].
    destruct Hq as [-> | Hq].
    + reflexivity.
    + replace (q <? t) with false by (symmetry; apply Z.ltb_ge; exact Hq).
      rewrite andb_false_r. reflexivity.
  - destruct Hseg as (Hp & Ha & Hs & Hn). consts.
    destruct Hsp as (H1 & H2 & H3 & H4).
    rewrite Hp.
    replace (a =? 0) with false by (symmetry; apply Z.eqb_neq; exact Ha).
    replace (a <? t) with true
      by (symmetry; apply Z.ltb_lt; apply (Hlt a sa); left; reflexivity).
    simpl. rewrite (wrap_small (a + 8)) by lia.
    apply (IH (a + 8) fuel q (a + 16 + sa + 1) hi); try assumption; try lia.
    intros a' sa' Hin. apply (Hlt a' sa'). right. exact Hin.
Qed.

Lemma fseg_store_slot (m : mem) (v : Z) (L1 : list blk) :
  forall s q lo hi,
    fseg m (load64 m s) L1 q -> spaced lo L1 hi -> s + 8 <= lo -> 0 <= v < 2 ^ 64 ->
    fseg (store64 m (slot_after s L1) v) (load64 (store64 m (slot_after s L1) v) s) L1 v.
Proof.
  induction L1 as [|[a sa] L1 IH]; intros s q lo hi Hseg Hsp Hs Hv; simpl in *.
  - apply load64_store64_same. exact Hv.
  - destruct Hseg as (Hp & Ha & Hsz & Hn). consts.
    destruct Hsp as (H1 & H2 & H3 & H4).
    assert (a + 8 <= slot_after (a + 8) L1) as Hslot.
    { destruct (slot_after_bounds L1 (a + 8) _ _ H4 ltac:(lia)) as [[_ E] | (_ & E & _)]; lia. }
    repeat split.
    + rewrite load64_store64_other by lia. exact Hp.
    + exact Ha.
    + rewrite load64_store64_other by lia. exact Hsz.
    + apply (IH (a + 8) q (a + 16 + sa + 1) hi); try assumption; lia.
Qed.

(** ** The placement policies choose a block of the list that fits *)

Lemma mem_first_fit_spec (m : mem) (req : Z) (L : list blk) :
  forall p fuel,
    fseg m p L NULL -> (length L < fuel)%nat ->
    exists r, mem_first_fit fuel m p req = Done r
              /\ (r = NULL \/ exists sz, In (r, sz) L /\ req <= sz).
Proof.
  induction L as [|[a sa] L IH]; intros p fuel Hseg Hfuel;
    (destruct fuel as [|fuel]; [simpl in Hfuel; lia|]); simpl in *.
  - rewrite Hseg. exists NULL. split; [reflexivity|left; reflexivity].
  - destruct Hseg as (Hp & Ha & Hs & Hn). subst p.
    replace (a =? NULL) with false by (symmetry; apply Z.eqb_neq; exact Ha).
    rewrite Hs. destruct (sa >=? req) eqn:E.
    + exists a. split; [reflexivity|]. right. exists sa. split; [left; reflexivity|].
      apply Z.geb_le in E. exact E.
    + destruct (IH _ fuel Hn ltac:(lia)) as [r [E1 E2]].
      exists r. split; [exact E1|].
      destruct E2 as [-> | [sz [Hin Hsz]]]; [left; reflexivity|].
      right. exists sz. split; [right; exact Hin|exact Hsz].
Qed.

Lemma worst_fit_loop_spec (m : mem) (req : Z) (Lall : list blk) (L : list blk) :
  forall p fuel worst wsz,
    fseg m p L NULL -> (length L < fuel)%nat ->
    (forall x, In x L -> In x Lall) ->
    (worst = NULL \/ exists sz, In (worst, sz) Lall /\ req <= sz) ->
    exists r, worst_fit_loop fuel m p req worst wsz = Done r
              /\ (r = NULL \/ exists sz, In (r, sz) Lall /\ req <= sz).
Proof.
  induction L as [|[a sa] L IH]; intros p fuel worst wsz Hseg Hfuel Hsub Hw;
    (destruct fuel as [|fuel]; [simpl in Hfuel; lia|]); simpl in *.
  - rewrite Hseg. exists worst. split; [reflexivity|exact Hw].
  - destruct Hseg as (Hp & Ha & Hs & Hn). subst p.
    replace (a =? NULL) with false by (symmetry; apply Z.eqb_neq; exact Ha).
    rewrite Hs.
    destruct ((sa >=? req) && (sa >? wsz)) eqn:E.
    + apply (IH _ fuel a sa Hn); [lia|intros x Hx; apply Hsub; right; exact Hx|].
      right. exists sa. split; [apply Hsub; left; reflexivity|].
      apply andb_prop in E. destruct E as [E _]. apply Z.geb_le in E. exact E.
    + apply (IH _ fuel worst wsz Hn); [lia|intros x Hx; apply Hsub; right; exact Hx|exact Hw].
Qed.

(** ** Best fit *)

Lemma best_so_far_step (req : Z) (P : list blk) (best bsz a s : Z) :
  s < SIZE_MAX ->
  best_so_far req P best bsz ->
  if (s >=? req) && (s <? bsz)
  then best_so_far req (P ++ [(a, s)]) a s
  else best_so_far req (P ++ [(a, s)]) best bsz.
Proof.
  intros Hmax Hinv.
  destruct ((s >=? req) && (s <? bsz)) eqn:E.
  - apply andb_prop in E. destruct E as [E1 E2].
    apply Z.geb_le in E1. apply Z.ltb_lt in E2.
    right. exists P, []. split; [reflexivity|]. split; [exact E1|]. split.
    + intros a' s' Hin Hreq.
      destruct Hinv as [(_ & _ & Hall) | (P1 & P2 & -> & Hb & H1 & H2)].
      * specialize (Hall _ _ Hin). lia.
      * apply in_app_or in Hin. destruct Hin as [Hin | [Hin | Hin]].
        -- specialize (H1 _ _ Hin Hreq). lia.
        -- inversion Hin; subst. lia.
        -- specialize (H2 _ _ Hin Hreq). lia.
    + intros a' s' [].
  - apply andb_false_iff in E.
    destruct Hinv as [(-> & -> & Hall) | (P1 & P2 & -> & Hb & H1 & H2)].
    + left. split; [reflexivity|]. split; [reflexivity|].
      intros a' s' Hin. apply in_app_or in Hin. destruct Hin as [Hin | [Hin | []]].
      * apply (Hall _ _ Hin).
      * inversion Hin; subst a' s'.
        destruct E as [E | E].
        -- rewrite Z.geb_leb in E. apply Z.leb_gt in E. exact E.
        -- apply Z.ltb_ge in E. lia.
    + right. exists P1, (P2 ++ [(a, s)]). split; [rewrite <- app_assoc; reflexivity|].
      split; [exact Hb|]. split; [exact H1|].
      intros a' s' Hin Hreq. apply in_app_or in Hin. destruct Hin as [Hin | [Hin | []]].
      * apply (H2 _ _ Hin Hreq).
      * inversion Hin; subst a' s'.
        destruct E as [E | E].
        -- rewrite Z.geb_leb in E. apply Z.leb_gt in E. lia.
        -- apply Z.ltb_ge in E. exact E.
Qed.

Lemma best_fit_loop_spec (m : mem) (req : Z) (L : list blk) :
  forall p fuel best bsz P,
    fseg m p L NULL -> (length L < fuel)%nat ->
    (forall a s, In (a, s) L -> s < SIZE_MAX) ->
    best_so_far req P best bsz ->
    exists r, best_fit_loop fuel m p req best bsz = Done r /\ best_choice req (P ++ L) r.
Proof.
  induction L as [|[a sa] L IH]; intros p fuel best bsz P Hseg Hfuel Hmax Hinv;
    (destruct fuel as [|fuel]; [simpl in Hfuel; lia|]); simpl in *.
  - rewrite Hseg. exists best. split; [reflexivity|]. rewrite app_nil_r.
    destruct Hinv as [(-> & _ & Hall) | (P1 & P2 & -> & Hb & H1 & H2)].
    + left. split; [reflexivity|exact Hall].
    + right. exists bsz, P1, P2. repeat split; assumption.
  - destruct Hseg as (Hp & Ha & Hs & Hn). subst p.
    replace (a =? NULL) with false by (symmetry; apply Z.eqb_neq; exact Ha).
    rewrite Hs.
    pose proof (best_so_far_step req P best bsz a sa
                  (Hmax a sa (or_introl eq_refl)) Hinv) as Hstep.
    assert (forall a' s', In (a', s') L -> s' < SIZE_MAX) as Hmax'
      by (intros a' s' Hin; apply (Hmax a' s'); right; exact Hin).
    destruct ((sa >=? req) && (sa <? bsz)).
    + destruct (IH _ fuel a sa _ Hn ltac:(lia) Hmax' Hstep) as [r [E1 E2]].
      exists r. split; [exact E1|]. rewrite <- app_assoc in E2. exact E2.
    + destruct (IH _ fuel best bsz _ Hn ltac:(lia) Hmax' Hstep) as [r [E1 E2]].
      exists r. split; [exact E1|]. rewrite <- app_assoc in E2. exact E2.
Qed.

Lemma mem_best_fit_choice (m : mem) (req p : Z) (L : list blk) (fuel : nat) :
  fseg m p L NULL -> (length L < fuel)%nat ->
  (forall a s, In (a, s) L -> s < SIZE_MAX) ->
  exists r, mem_best_fit fuel m p req = Done r /\ best_choice req L r.
Proof.
  intros Hseg Hfuel Hmax.
  apply (best_fit_loop_spec m req L p fuel NULL SIZE_MAX [] Hseg Hfuel Hmax).
  left. split; [reflexivity|]. split; [reflexivity|]. intros a s [].
Qed.

(** In a spaced list, list order is address order. *)
Lemma spaced_order (L1 L2 : list blk) (b sz : Z) :
  forall lo hi,
    spaced lo (L1 ++ (b, sz) :: L2) hi ->
    (forall a sa, In (a, sa) L1 -> a + 16 + sa < b)
    /\ (forall c sc, In (c, sc) L2 -> b + 16 + sz < c)
    /\ lo <= b /\ 0 <= sz /\ b + 16 + sz <= hi.
Proof.
  induction L1 as [|[a0 s0] L1 IH]; intros lo hi H; simpl in *; consts.
  - destruct H as (H1 & H2 & H3 & H4). split; [intros a sa []|].
    split; [|lia].
    intros c sc Hin. pose proof (spaced_In _ _ _ _ _ H4 Hin). lia.
  - destruct H as (H1 & H2 & H3 & H4).
    destruct (IH _ _ H4) as (I1 & I2 & I3).
    split; [|split; [exact I2|lia]].
    intros a sa [E | Hin].
    + inversion E; subst. lia.
    + apply (I1 _ _ Hin).
Qed.

Lemma spaced_size_bound (L : list blk) (lo hi : Z) :
  spaced lo L hi -> 0 <= lo -> hi <= 2 ^ 64 ->
  forall a s, In (a, s) L -> s < SIZE_MAX.
Proof.
  intros Hsp Hlo Hhi a s Hin.
  pose proof (spaced_In _ _ _ _ _ Hsp Hin). unfold SIZE_MAX. lia.
Qed.

(** C7: on every free list whose blocks lie inside the 64-bit address
    space, [mem_best_fit] returns [NULL] exactly when no block has
    [size >= req]; otherwise it returns a block of the list with
    [size >= req] such that every fitting block met before it is strictly
    larger and every fitting block met after it is at least as large: the
    first encountered among those of smallest fitting size, which in an
    address-ordered list is the one of lowest address.  In particular
    the block returned is never smaller than the request. *)
Theorem mem_best_fit_correct (m : mem) (L : list blk) (fuel : nat) (list req : Z) :
  fseg m list L NULL ->
  (forall a s, In (a, s) L -> 0 <= a /\ a + MEM_FREE_BLOCK_SIZE + s <= 2 ^ 64) ->
  (length L < fuel)%nat ->
  exists r,
    mem_best_fit fuel m list req = Done r
    /\ ((r = NULL /\ forall a s, In (a, s) L -> s < req)
        \/ (r <> NULL
            /\ exists s W1 W2,
                L = W1 ++ (r, s) :: W2 /\ load64 m r = s /\ req <= s
                /\ (forall a' s', In (a', s') W1 -> req <= s' -> s < s')
                /\ (forall a' s', In (a', s') W2 -> req <= s' -> s <= s')
                /\ (forall lo hi, spaced lo L hi ->
                                  forall a' s', In (a', s') L -> req <= s' ->
                                                s < s' \/ (s = s' /\ r <= a')))).
Proof.
  intros Hseg Hspace Hfuel.
  destruct (mem_best_fit_choice m req list L fuel Hseg Hfuel) as [r [Hrun Hch]].
  { intros a s Hin. destruct (Hspace a s Hin). consts. unfold SIZE_MAX. lia. }
  exists r. split; [exact Hrun|].
  destruct Hch as [[-> Hall] | (s & W1 & W2 & -> & Hreq & H1 & H2)].
  - left. split; [reflexivity|exact Hall].
  - right.
    apply fseg_app in Hseg. destruct Hseg as [q [_ Hq]]. lsimpl.
    destruct Hq as (_ & Hnz & Hsz & _).
    split; [exact Hnz|].
    exists s, W1, W2. split; [reflexivity|]. split; [exact Hsz|]. split; [exact Hreq|].
    split; [exact H1|]. split; [exact H2|].
    intros lo hi Hsp a' s' Hin Hfit.
    destruct (spaced_order W1 W2 r s lo hi Hsp) as (O1 & O2 & O3).
    apply in_app_or in Hin. destruct Hin as [Hin | [Hin | Hin]].
    + left. apply (H1 _ _ Hin Hfit).
    + inversion Hin; subst. right. split; [reflexivity|lia].
    + specialize (H2 _ _ Hin Hfit). specialize (O2 _ _ Hin).
      destruct (Z.eq_dec s s') as [E | E]; [right; split; [exact E|] | left]; lia.
Qed.

(** ** Linking and unlinking at a slot *)

Lemma fseg_slot_value (m : mem) (L1 : list blk) :
  forall s q, fseg m (load64 m s) L1 q -> load64 m (slot_after s L1) = q.
Proof.
  induction L1 as [|[a sa] L1 IH]; intros s q H; simpl in *.
  - exact H.
  - destruct H as (_ & _ & _ & Hn). apply IH. exact Hn.
Qed.

Lemma slot_after_below (L1 : list blk) (x : Z) :
  forall s lo hi,
    spaced lo L1 hi -> s + 8 <= lo -> lo <= x ->
    (forall a sa, In (a, sa) L1 -> a + 16 + sa <= x) ->
    s <= slot_after s L1 /\ slot_after s L1 + 8 <= x.
Proof.
  induction L1 as [|[a sa] L1 IH]; intros s lo hi Hsp Hs Hx Hall; simpl in *.
  - lia.
  - consts. destruct Hsp as (H1 & H2 & H3 & H4).
    destruct L1 as [|[a1 s1] L1].
    + simpl. specialize (Hall a sa (or_introl eq_refl)). lia.
    + assert (a + 16 + sa + 1 <= x) as Hx'.
      { simpl in H4. specialize (Hall a1 s1 (or_intror (or_introl eq_refl))). lia. }
      destruct (IH (a + 8) _ _ H4 ltac:(lia) Hx') as [I1 I2].
      * intros a' sa' Hin. apply (Hall a' sa'). right. exact Hin.
      * lia.
Qed.

Lemma link_right (m : mem) (s0 lo hi : Z) (L1 L2 : list blk) (x sx : Z) :
  link_ctx m s0 lo hi L1 L2 x sx ->
  let m1 := insert_right m x (slot_after s0 L1) in
  fseg m1 x (fuse_right (x, sx) L2) NULL
  /\ spaced x (fuse_right (x, sx) L2) hi
  /\ (forall y, y < x \/ x + 16 <= y -> m1 y = m y).
Proof.
  intros [Hhead_lo Hhead_hi Htop Hseg1 Hseg2 Hsp1 Hsp2 Hx_size Hx_lo Hx_hi Hx_after Hx_before].
  assert (0 <= sx < 2 ^ 64) as Hsx by (rewrite <- Hx_size; apply load64_range).
  pose proof (fseg_slot_value _ _ _ _ Hseg1) as Hslot.
  pose proof (slot_after_below L1 x s0 lo hi Hsp1 Hhead_hi Hx_lo Hx_after) as Hbelow.
  set (slot := slot_after s0 L1) in *.
  unfold insert_right. rewrite Hslot.
  destruct L2 as [|[c sc] L2']; lsimpl; consts.
  - (* insertion at the end of the list *)
    change (negb (0 =? 0)) with false. cbv iota.
    split; [|split].
    + lsimpl. repeat split; try lia.
      * rewrite load64_store64_other by lia. exact Hx_size.
      * apply load64_store64_same. lia.
    + lsimpl. repeat split; lia.
    + intros y Hy. apply store64_out. lia.
  - destruct Hseg2 as (_ & Hc & Hsc & Hn).
    destruct Hsp2 as (Hc1 & Hc2 & Hc3 & Hc4).
    pose proof (Hx_before c sc (or_introl eq_refl)) as Hxc.
    replace (c =? 0) with false by (symmetry; apply Z.eqb_neq; exact Hc).
    cbn [negb]. cbv iota.
    rewrite Hx_size. rewrite (wrap_small (x + sx + 16)) by lia.
    destruct (x + sx + 16 =? c) eqn:E.
    + (* the right neighbour is contiguous: fuse *)
      apply Z.eqb_eq in E.
      rewrite Hsc. rewrite (wrap_small (16 + sc)) by lia.
      rewrite (wrap_small (sx + (16 + sc))) by lia.
      cbv zeta.
      rewrite (load64_store64_other m x _ slot) by lia. rewrite Hslot.
      rewrite (load64_store64_other m x _ (c + 8)) by lia.
      split; [|split].
      * lsimpl. repeat split; try lia.
        -- rewrite load64_store64_other by lia.
           rewrite load64_store64_same by lia. lia.
        -- rewrite load64_store64_same by apply load64_range.
           apply (fseg_frame m); [|exact Hn].
           intros a' s' Hin.
           pose proof (spaced_In _ _ _ _ _ Hc4 Hin).
           split; mem_simpl; reflexivity.
      * lsimpl. repeat split; try lia.
        apply (spaced_weaken L2' (c + 16 + sc + 1) _ hi hi); try lia. exact Hc4.
      * intros y Hy. rewrite store64_out by lia. apply store64_out. lia.
    + (* regular insertion before the right neighbour *)
      apply Z.eqb_neq in E.
      split; [|split].
      * lsimpl. repeat split; try lia.
        -- rewrite load64_store64_other by lia. exact Hx_size.
        -- rewrite load64_store64_same by lia. reflexivity.
        -- rewrite load64_store64_other by lia. exact Hsc.
        -- rewrite load64_store64_other by lia.
           apply (fseg_frame m); [|exact Hn].
           intros a' s' Hin.
           pose proof (spaced_In _ _ _ _ _ Hc4 Hin).
           split; mem_simpl; reflexivity.
      * lsimpl. repeat split; try lia.
        apply (spaced_weaken L2' (c + 16 + sc + 1) _ hi hi); try lia. exact Hc4.
      * intros y Hy. apply store64_out. lia.
Qed.

Lemma spaced_split (L1 L2 : list blk) (b sz : Z) :
  forall lo hi,
    spaced lo (L1 ++ (b, sz) :: L2) hi <->
    spaced lo L1 (b - 1) /\ past lo L1 <= b /\ 0 <= sz /\ b + 16 + sz <= hi
    /\ spaced (b + 16 + sz + 1) L2 hi.
Proof.
  induction L1 as [|[a sa] L1 IH]; intros lo hi; lsimpl.
  - tauto.
  - rewrite IH. split.
    + intros (H1 & H2 & H3 & H4 & H5 & H6 & H7 & H8).
      pose proof (past_ge L1 _ _ H4). repeat split; try assumption; lia.
    + intros ((H1 & H2 & H3 & H4) & H5 & H6 & H7 & H8).
      repeat split; try assumption; lia.
Qed.

Lemma spaced_join (L1 L2 : list blk) :
  forall lo mid hi,
    spaced lo L1 (mid - 1) -> past lo L1 <= mid -> mid - 1 <= hi -> spaced mid L2 hi ->
    spaced lo (L1 ++ L2) hi.
Proof.
  induction L1 as [|[a sa] L1 IH]; intros lo mid hi H1 H2 Hm H3; lsimpl.
  - apply (spaced_weaken L2 mid lo hi hi); try lia. exact H3.
  - destruct H1 as (A1 & A2 & A3 & A4).
    repeat split; try lia.
    apply (IH _ mid hi); assumption.
Qed.

Lemma fseg_frame_range (m m' : mem) (L : list blk) (lo hi : Z) :
  forall p q,
    fseg m p L q -> spaced lo L hi ->
    (forall y, lo <= y < hi -> m' y = m y) ->
    fseg m' p L q.
Proof.
  intros p q Hseg Hsp Hag. apply (fseg_frame m); [|exact Hseg].
  intros a s Hin. pose proof (spaced_In _ _ _ _ _ Hsp Hin).
  split; apply load64_ext; intros i Hi; apply Hag; lia.
Qed.

Lemma fuse_right_shape (x sx : Z) (L2 : list blk) :
  exists sR R', fuse_right (x, sx) L2 = (x, sR) :: R'.
Proof.
  destruct L2 as [|[c sc] L2']; lsimpl.
  - exists sx, []. reflexivity.
  - destruct (x + sx + 16 =? c).
    + exists (sx + 16 + sc), L2'. reflexivity.
    + exists sx, ((c, sc) :: L2'). reflexivity.
Qed.

Lemma fuse_left_snoc (L0 R' : list blk) (a sa x sR : Z) :
  fuse_left (L0 ++ [(a, sa)]) ((x, sR) :: R') =
  if a + 16 + sa =? x then L0 ++ (a, sa + 16 + sR) :: R'
  else (L0 ++ [(a, sa)]) ++ (x, sR) :: R'.
Proof.
  unfold fuse_left. rewrite rev_unit. consts.
  destruct (a + 16 + sa =? x); [|reflexivity].
  rewrite rev_involutive. reflexivity.
Qed.

Lemma insert_block_unfold (m : mem) (area x slot : Z) :
  insert_block m area x slot =
  let m1 := insert_right m x slot in
  let prev := wrap (slot - OFF_NEXT) in
  if prev >=? area then
    if wrap (prev + MEM_FREE_BLOCK_SIZE + load64 m1 prev) =? x then
      let mb := store64 m1 prev
                  (wrap (load64 m1 prev + wrap (MEM_FREE_BLOCK_SIZE + load64 m1 x))) in
      store64 mb (prev + OFF_NEXT) (load64 mb (x + OFF_NEXT))
    else store64 m1 (prev + OFF_NEXT) x
  else store64 m1 slot x.
Proof. reflexivity. Qed.

(** [insert_block] at the slot after [L1] yields the coalesced list, and
    writes only the header of [x], the slot, and the header of the block
    that owns the slot. *)
Lemma link_spec (m : mem) (s0 lo hi : Z) (L1 L2 : list blk) (x sx : Z) :
  link_ctx m s0 lo hi L1 L2 x sx ->
  let m' := insert_block m lo x (slot_after s0 L1) in
  fseg m' (load64 m' s0) (coalesce L1 (x, sx) L2) NULL
  /\ spaced lo (coalesce L1 (x, sx) L2) hi
  /\ (forall y, y < x \/ x + 16 <= y -> y < s0 \/ s0 + 8 <= y ->
                (forall a sa, In (a, sa) L1 -> y < a \/ a + 16 <= y) ->
                m' y = m y).
Proof.
  intros Hctx.
  destruct (link_right m s0 lo hi L1 L2 x sx Hctx) as (HR & HRsp & HRf).
  destruct Hctx as [Hhead_lo Hhead_hi Htop Hseg1 Hseg2 Hsp1 Hsp2 Hx_size Hx_lo Hx_hi
                      Hx_after Hx_before].
  cbv zeta. rewrite insert_block_unfold. cbv zeta.
  set (m1 := insert_right m x (slot_after s0 L1)) in *.
  unfold coalesce.
  destruct (fuse_right_shape x sx L2) as (sR & R' & ER). rewrite ER in *.
  lsimpl.
  destruct HR as (_ & Hxnz & HsR & HR').
  destruct HRsp as (_ & HsR0 & HsRhi & HRsp').
  assert (fseg m1 (load64 m1 s0) L1 (hd_ptr L2)) as Hseg1'.
  { replace (load64 m1 s0) with (load64 m s0)
      by (symmetry; apply load64_ext; intros i Hi; apply HRf; lia).
    destruct (snoc_cases L1) as [-> | (L0 & a & sa & ->)]; [exact Hseg1|].
    apply spaced_split in Hsp1. destruct Hsp1 as (S1 & S2 & S3 & S4 & _).
    pose proof (Hx_after a sa ltac:(apply in_or_app; right; left; reflexivity)) as Hax.
    apply (fseg_frame_range m m1 _ lo (a + 16 + sa)); [exact Hseg1| |].
    - apply spaced_join with (mid := a); try assumption; try lia.
      lsimpl. repeat split; lia.
    - intros y Hy. apply HRf. lia. }
  destruct (snoc_cases L1) as [-> | (L0 & a & sa & ->)].
  - (* the slot is the list head *)
    lsimpl.
    rewrite (wrap_small (s0 - 8)) by lia.
    replace (s0 - 8 >=? lo) with false by (symmetry; rewrite Z.geb_leb; apply Z.leb_gt; lia).
    split; [|split].
    + rewrite load64_store64_same by lia.
      repeat split; try lia.
      * rewrite load64_store64_other by lia. exact HsR.
      * rewrite load64_store64_other by lia.
        apply (fseg_frame_range m1 _ _ (x + 16 + sR + 1) hi); [exact HR'|exact HRsp'|].
        intros y Hy. apply store64_out. lia.
    + repeat split; try lia. exact HRsp'.
    + intros y Hy1 Hy2 _. rewrite store64_out by lia. apply HRf. exact Hy1.
  - (* the slot is the [next] field of the block [a] *)
    rewrite slot_after_snoc in *.
    pose proof (Hx_after a sa ltac:(apply in_or_app; right; left; reflexivity)) as Hax.
    pose proof Hsp1 as Hsp1c.
    apply spaced_split in Hsp1. destruct Hsp1 as (S1 & S2 & S3 & S4 & _).
    pose proof (past_ge L0 _ _ S1) as Hpast.
    apply fseg_app in Hseg1'. destruct Hseg1' as (r & Hseg0 & Hra). lsimpl.
    destruct Hra as (-> & Hanz & Hasz & Hanext).
    replace (a + 8 - 8) with a by lia.
    assert (0 <= a < 2 ^ 64) as Harange by lia.
    rewrite (wrap_small a) by lia.
    replace (a >=? lo) with true by (symmetry; rewrite Z.geb_leb; apply Z.leb_le; lia).
    rewrite Hasz. rewrite (wrap_small (a + 16 + sa)) by lia.
    rewrite fuse_left_snoc.
    destruct (a + 16 + sa =? x) eqn:E.
    + (* the left neighbour is contiguous: fuse *)
      apply Z.eqb_eq in E.
      rewrite HsR. rewrite (wrap_small (16 + sR)) by lia.
      rewrite (wrap_small (sa + (16 + sR))) by lia.
      cbv zeta.
      rewrite (load64_store64_other m1 a _ (x + 8)) by lia.
      split; [|split].
      * apply fseg_app. exists a. split.
        -- rewrite !load64_store64_other by lia.
           apply (fseg_frame_range m1 _ _ lo a); [exact Hseg0| |].
           ++ apply (spaced_weaken L0 lo lo (a - 1) a); try lia. exact S1.
           ++ intros y Hy. rewrite !store64_out by lia. reflexivity.
        -- lsimpl. repeat split; try lia.
           ++ rewrite load64_store64_other by lia.
              rewrite load64_store64_same by lia. lia.
           ++ rewrite load64_store64_same by apply load64_range.
              apply (fseg_frame_range m1 _ _ (x + 16 + sR + 1) hi); [exact HR'|exact HRsp'|].
              intros y Hy. rewrite !store64_out by lia. reflexivity.
      * apply spaced_join with (mid := a); try assumption; try lia.
        lsimpl. repeat split; try lia.
        apply (spaced_weaken R' (x + 16 + sR + 1) _ hi hi); try lia. exact HRsp'.
      * intros y Hy1 Hy2 Hy3.
        specialize (Hy3 a sa ltac:(apply in_or_app; right; left; reflexivity)).
        rewrite !store64_out by lia. apply HRf. exact Hy1.
    + (* regular insertion after the left neighbour *)
      apply Z.eqb_neq in E.
      split; [|split].
      * apply fseg_app. exists x. split.
        -- rewrite <- (slot_after_snoc L0 a sa s0).
           apply (fseg_store_slot m1 x (L0 ++ [(a, sa)]) s0 (hd_ptr L2) lo hi);
             try assumption; try lia.
           apply fseg_app. exists a. split; [exact Hseg0|].
           lsimpl. repeat split; try assumption; reflexivity.
        -- lsimpl. repeat split; try lia.
           ++ rewrite load64_store64_other by lia. exact HsR.
           ++ rewrite load64_store64_other by lia.
              apply (fseg_frame_range m1 _ _ (x + 16 + sR + 1) hi); [exact HR'|exact HRsp'|].
              intros y Hy. rewrite !store64_out by lia. reflexivity.
      * apply spaced_join with (mid := x); try lia.
        -- apply spaced_join with (mid := a); try assumption; try lia.
           lsimpl. repeat split; lia.
        -- rewrite past_snoc. lia.
        -- lsimpl. repeat split; try lia. exact HRsp'.
      * intros y Hy1 Hy2 Hy3.
        specialize (Hy3 a sa ltac:(apply in_or_app; right; left; reflexivity)).
        rewrite !store64_out by lia. apply HRf. exact Hy1.
Qed.

Lemma coalesce_apart (L1 L2 : list blk) (x sx : Z) :
  (forall a sa, In (a, sa) L1 -> a + 16 + sa < x) ->
  (forall c sc, In (c, sc) L2 -> x + sx + 16 < c) ->
  coalesce L1 (x, sx) L2 = L1 ++ (x, sx) :: L2.
Proof.
  intros H1 H2. unfold coalesce.
  assert (fuse_right (x, sx) L2 = (x, sx) :: L2) as ->.
  { destruct L2 as [|[c sc] L2']; lsimpl; [reflexivity|].
    specialize (H2 c sc (or_introl eq_refl)).
    replace (x + sx + 16 =? c) with false by (symmetry; apply Z.eqb_neq; lia).
    reflexivity. }
  destruct (snoc_cases L1) as [-> | (L0 & a & sa & ->)]; [reflexivity|].
  rewrite fuse_left_snoc.
  specialize (H1 a sa ltac:(apply in_or_app; right; left; reflexivity)).
  replace (a + 16 + sa =? x) with false by (symmetry; apply Z.eqb_neq; lia).
  reflexivity.
Qed.

(** [remove_block] at the slot that holds [b] takes [b] out of the list
    and leaves its [size] field alone. *)
Lemma unlink_spec (m : mem) (s0 lo hi : Z) (L1 L2 : list blk) (b sz : Z) :
  8 <= s0 -> s0 + 8 <= lo -> hi < 2 ^ 64 ->
  fseg m (load64 m s0) (L1 ++ (b, sz) :: L2) NULL ->
  spaced lo (L1 ++ (b, sz) :: L2) hi ->
  let m1 := remove_block m b (slot_after s0 L1) in
  fseg m1 (load64 m1 s0) L1 (hd_ptr L2)
  /\ fseg m1 (hd_ptr L2) L2 NULL
  /\ load64 m1 b = sz
  /\ (forall y, y < b + 8 \/ b + 16 <= y -> y < s0 \/ s0 + 8 <= y ->
                (forall a sa, In (a, sa) L1 -> y < a \/ a + 16 <= y) ->
                m1 y = m y).
Proof.
  intros Hhead_lo Hhead_hi Htop Hseg Hsp.
  pose proof (spaced_order _ _ _ _ _ _ Hsp) as (O1 & O2 & O3 & O4 & O5).
  apply spaced_split in Hsp. destruct Hsp as (S1 & S2 & S3 & S4 & S5).
  apply fseg_app in Hseg. destruct Hseg as (r & Hseg1 & Hb). lsimpl.
  destruct Hb as (-> & Hbnz & Hbsz & Hseg2).
  pose proof (fseg_hd _ _ _ Hseg2) as Hnext. consts.
  pose proof (fseg_slot_value _ _ _ _ Hseg1) as Hslot.
  assert (spaced lo L1 b) as S1' by (apply (spaced_weaken L1 lo lo (b - 1) b); try lia; exact S1).
  assert (s0 <= slot_after s0 L1 /\ slot_after s0 L1 + 8 <= b) as Hbelow.
  { apply (slot_after_below L1 b s0 lo b); try assumption; try lia.
    intros a sa Hin. specialize (O1 a sa Hin). lia. }
  cbv zeta. unfold remove_block. rewrite Hslot, Z.eqb_refl. consts. cbv zeta.
  rewrite Hnext in *.
  assert (0 <= hd_ptr L2 < 2 ^ 64) as Hrange.
  { destruct L2 as [|[c sc] L2']; lsimpl; [lia|].
    destruct S5 as (? & ? & ? & _). lia. }
  split; [|split; [|split]].
  - rewrite load64_store64_other by lia.
    apply (fseg_frame_range (store64 m (slot_after s0 L1) (hd_ptr L2)) _ _ lo b).
    + apply (fseg_store_slot m (hd_ptr L2) L1 s0 b lo b); assumption.
    + exact S1'.
    + intros y Hy. apply store64_out. lia.
  - apply (fseg_frame_range m _ _ (b + 16 + sz + 1) hi); [exact Hseg2|exact S5|].
    intros y Hy. rewrite !store64_out by lia. reflexivity.
  - rewrite !load64_store64_other by lia. exact Hbsz.
  - intros y Hy1 Hy2 Hy3. rewrite store64_out by lia.
    destruct (snoc_cases L1) as [-> | (L0 & a & sa & ->)].
    + lsimpl. apply store64_out. lia.
    + rewrite slot_after_snoc.
      specialize (Hy3 a sa ltac:(apply in_or_app; right; left; reflexivity)).
      apply store64_out. lia.
Qed.

(** The same, for a block whose [size] field is of no concern (it may
    already have been overwritten): only its [next] field is read. *)
Lemma unlink_core (m : mem) (s0 lo hi : Z) (L1 L2 : list blk) (b : Z) :
  8 <= s0 -> s0 + 8 <= lo -> hi < 2 ^ 64 -> lo <= b ->
  fseg m (load64 m s0) L1 b ->
  load64 m (b + 8) = hd_ptr L2 ->
  fseg m (hd_ptr L2) L2 NULL ->
  spaced lo L1 b ->
  spaced (b + 16) L2 hi ->
  let m1 := remove_block m b (slot_after s0 L1) in
  fseg m1 (load64 m1 s0) L1 (hd_ptr L2)
  /\ fseg m1 (hd_ptr L2) L2 NULL
  /\ (forall y, y < b + 8 \/ b + 16 <= y -> y < s0 \/ s0 + 8 <= y ->
                (forall a sa, In (a, sa) L1 -> y < a \/ a + 16 <= y) ->
                m1 y = m y).
Proof.
  intros Hhead_lo Hhead_hi Htop Hb Hseg1 Hnext Hseg2 S1 S2.
  pose proof (fseg_slot_value _ _ _ _ Hseg1) as Hslot.
  assert (s0 <= slot_after s0 L1 /\ slot_after s0 L1 + 8 <= b) as Hbelow.
  { apply (slot_after_below L1 b s0 lo b); try assumption.
    intros a sa Hin. pose proof (spaced_In _ _ _ _ _ S1 Hin). lia. }
  cbv zeta. unfold remove_block. rewrite Hslot, Z.eqb_refl. consts. cbv zeta.
  rewrite Hnext.
  assert (0 <= hd_ptr L2 < 2 ^ 64) as Hrange.
  { destruct L2 as [|[c sc] L2']; lsimpl; [lia|].
    destruct S2 as (? & ? & ? & _). lia. }
  split; [|split].
  - rewrite load64_store64_other by lia.
    apply (fseg_frame_range (store64 m (slot_after s0 L1) (hd_ptr L2)) _ _ lo b).
    + apply (fseg_store_slot m (hd_ptr L2) L1 s0 b lo b); assumption.
    + exact S1.
    + intros y Hy. apply store64_out. lia.
  - apply (fseg_frame_range m _ _ (b + 16) hi); [exact Hseg2|exact S2|].
    intros y Hy. rewrite !store64_out by lia. reflexivity.
  - intros y Hy1 Hy2 Hy3. rewrite store64_out by lia.
    destruct (snoc_cases L1) as [-> | (L0 & a & sa & ->)].
    + lsimpl. apply store64_out. lia.
    + rewrite slot_after_snoc.
      specialize (Hy3 a sa ltac:(apply in_or_app; right; left; reflexivity)).
      apply store64_out. lia.
Qed.

(** ** Allocation *)

Lemma lxor_range (a b : Z) :
  0 <= a < 2 ^ 64 -> 0 <= b < 2 ^ 64 -> 0 <= Z.lxor a b < 2 ^ 64.
Proof.
  intros Ha Hb.
  assert (0 <= Z.lxor a b) as Hnn by (apply Z.lxor_nonneg; lia).
  split; [exact Hnn|].
  destruct (Z.eq_dec (Z.lxor a b) 0) as [E | E]; [rewrite E; lia|].
  apply Z.log2_lt_pow2; [lia|].
  pose proof (Z.log2_lxor a b ltac:(lia) ltac:(lia)) as Hl.
  assert (forall v, 0 <= v < 2 ^ 64 -> Z.log2 v < 64) as Hlog.
  { intros v Hv. destruct (Z.eq_dec v 0) as [-> | Hv0]; [reflexivity|].
    apply Z.log2_lt_pow2; lia. }
  pose proof (Hlog a Ha). pose proof (Hlog b Hb). lia.
Qed.

Lemma guard_range (st : state) (N b : Z) :
  arena_ok st N -> 0 <= b < 2 ^ 64 -> 0 <= guard_of st b < 2 ^ 64.
Proof. intros Hok Hb. unfold guard_of. apply lxor_range; [exact Hb|apply (ao_secret _ _ Hok)]. Qed.

Lemma call_fit_choice (f : mem_fit_function_t) (m : mem) (p req : Z) (L : list blk)
      (fuel : nat) :
  fseg m p L NULL -> (length L < fuel)%nat ->
  (forall a s, In (a, s) L -> s < SIZE_MAX) ->
  exists r, call_fit f fuel m p req = Done r
            /\ (r = NULL \/ exists sz, In (r, sz) L /\ req <= sz).
Proof.
  intros Hseg Hfuel Hmax. destruct f; cbn [call_fit].
  - apply mem_first_fit_spec; assumption.
  - destruct (mem_best_fit_choice m req p L fuel Hseg Hfuel Hmax) as [r [E Hch]].
    exists r. split; [exact E|].
    destruct Hch as [[-> _] | (s & W1 & W2 & -> & Hreq & _)]; [left; reflexivity|].
    right. exists s. split; [apply in_or_app; right; left; reflexivity|exact Hreq].
  - apply (worst_fit_loop_spec m req L L p fuel NULL 0 Hseg Hfuel).
    + intros x Hx. exact Hx.
    + left. reflexivity.
Qed.

Lemma arena_ok_with_bytes (st : state) (N : Z) (m' : mem) :
  arena_ok st N -> arena_ok (with_bytes st m') N.
Proof. intros [H1 H2 H3 H4 H5 H6]. constructor; assumption. Qed.

Lemma mem_alloc_spec (fuel : nat) (st : state) (N : Z) (L : list blk) (s : Z) :
  free_list_is st N L -> (length L < fuel)%nat ->
  let e := wrap (s + SECRET_SIZE) in
  (call_fit (current_fit_function st) fuel (bytes st) (free_block_list st) e = Done NULL
   /\ mem_alloc fuel st s = Done (NULL, st))
  \/ exists L1 b sz L2 m',
      L = L1 ++ (b, sz) :: L2 /\ e <= sz
      /\ mem_alloc fuel st s = Done (b + 16, with_bytes st m')
      /\ alloc_post st N L1 b sz L2 e m'.
Proof.
  intros (Hok & Hseg & Hsp) Hfuel e.
  pose proof (wrap_range (s + SECRET_SIZE)) as He. fold e in He.
  destruct Hok as [Hhead_lo Hhead_hi Htop Hmin Hmax Hsecret].
  set (B := memory_area st) in *. set (head := free_block_list_addr st) in *.
  unfold mem_alloc. fold e head B. cbv zeta. consts.
  rewrite Z.add_0_r, (wrap_small e) by lia.
  destruct (call_fit_choice (current_fit_function st) (bytes st) (free_block_list st) e L fuel
              Hseg Hfuel) as [r [Hfit Hr]].
  { apply (spaced_size_bound L B (B + N)); try assumption; lia. }
  rewrite Hfit. cbn [bind].
  destruct Hr as [-> | [sz [Hin Hfits]]]; [left; split; reflexivity|right].
  apply in_split in Hin. destruct Hin as (L1 & L2 & ->).
  pose proof (spaced_order _ _ _ _ _ _ Hsp) as (O1 & O2 & O3 & O4 & O5).
  pose proof Hsp as Hsp'. apply spaced_split in Hsp'.
  destruct Hsp' as (S1 & S2 & S3 & S4 & S5).
  pose proof Hseg as Hseg'. apply fseg_app in Hseg'. destruct Hseg' as (q & Hseg1 & Hb).
  lsimpl. destruct Hb as (-> & Hbnz & Hbsz & Hseg2).
  replace (r =? 0) with false by (symmetry; apply Z.eqb_neq; exact Hbnz).
  destruct (search_block_spec (bytes st) r L1 head fuel r B (r - 1) Hseg1 S1
              ltac:(lia) ltac:(lia)) as [Hsearch _].
  { intros a sa Hain. pose proof (spaced_In _ _ _ _ _ S1 Hain). lia. }
  { right. lia. }
  { rewrite length_app in Hfuel. cbn [length] in Hfuel. lia. }
  rewrite Hsearch. cbn [bind].
  destruct (unlink_spec (bytes st) head B (B + N) L1 L2 r sz Hhead_lo Hhead_hi Htop Hseg Hsp)
    as (U1 & U2 & U3 & U4).
  set (m1 := remove_block (bytes st) r (slot_after head L1)) in *.
  rewrite U3, !Z.sub_0_r.
  rewrite !(wrap_small (sz - e)) by lia.
  change (wrap (16 + 8)) with 24.
  assert (0 <= guard_of st r < 2 ^ 64) as Hg
    by (unfold guard_of; apply lxor_range; lia).
  assert (spaced B L1 r) as S1'
    by (apply (spaced_weaken L1 B B (r - 1) r); try lia; exact S1).
  exists L1, r, sz, L2.
  destruct (sz - e <=? 24) eqn:Esplit.
  - (* the remainder is too small: the whole block is handed out *)
    pose proof Esplit as Eb. apply Z.leb_le in Esplit. rewrite (wrap_small sz) by lia.
    rewrite (wrap_small (r + 16 + sz - 8)) by lia. rewrite (wrap_small (r + 16)) by lia.
    eexists. split; [reflexivity|]. split; [exact Hfits|]. split; [reflexivity|].
    constructor; unfold alloc_take, alloc_list; try rewrite Eb.
    + split; [constructor; assumption|]. split.
      * unfold free_block_list. cbn [bytes with_bytes free_block_list_addr]. fold head.
        rewrite !load64_store64_other by lia.
        apply fseg_app. exists (hd_ptr L2). split.
        -- apply (fseg_frame_range m1 _ _ B r); [exact U1|exact S1'|].
           intros y Hy. rewrite !store64_out by lia. reflexivity.
        -- apply (fseg_frame_range m1 _ _ (r + 16 + sz + 1) (B + N)); [exact U2|exact S5|].
           intros y Hy. rewrite !store64_out by lia. reflexivity.
      * cbn [memory_area with_bytes]. fold B.
        apply spaced_join with (mid := r + 16 + sz + 1); try assumption; try lia.
        apply (spaced_weaken L1 B B (r - 1) _); try lia. exact S1.
    + rewrite !load64_store64_other by lia. apply load64_store64_same. lia.
    + intros Hbig. unfold guards_ok, guard_of. cbn [bytes with_bytes secret_number].
      fold (guard_of st r). consts.
      assert (load64 (store64 (store64 (store64 m1 r sz) (r + 8) (guard_of st r))
                              (r + 16 + sz - 8) (guard_of st r)) r = sz) as Esz.
      { rewrite !load64_store64_other by lia. apply load64_store64_same. lia. }
      rewrite Esz. rewrite (wrap_small (r + 16 + sz - 8)) by lia.
      split.
      * rewrite load64_store64_other by lia. apply load64_store64_same. exact Hg.
      * apply load64_store64_same. exact Hg.
    + intros y Hy1 Hy2 Hy3. rewrite !store64_out by lia. apply U4; try assumption. lia.
  - (* split: the tail becomes a new free block *)
    pose proof Esplit as Eb. apply Z.leb_gt in Esplit.
    rewrite (wrap_small (r + e + 16)) by lia.
    rewrite (wrap_small (sz - e - 16)) by lia.
    rewrite (wrap_small (r + 16 + e - 8)) by lia. rewrite (wrap_small (r + 16)) by lia.
    set (nfb := r + e + 16).
    set (mb := store64 (store64 m1 nfb (sz - e - 16)) (nfb + 8) 0).
    assert (link_ctx mb head B (B + N) L1 L2 nfb (sz - e - 16)) as Hctx.
    { subst nfb mb. constructor; try assumption; try lia.
      - rewrite !load64_store64_other by lia.
        apply (fseg_frame_range m1 _ _ B r); [exact U1|exact S1'|].
        intros y Hy. rewrite !store64_out by lia. reflexivity.
      - apply (fseg_frame_range m1 _ _ (r + 16 + sz + 1) (B + N)); [exact U2|exact S5|].
        intros y Hy. rewrite !store64_out by lia. reflexivity.
      - apply (spaced_weaken L1 B B (r - 1) (B + N)); try lia. exact S1.
      - apply (spaced_weaken L2 (r + 16 + sz + 1) B (B + N) (B + N)); try lia. exact S5.
      - rewrite load64_store64_other by lia. apply load64_store64_same. lia.
      - intros a sa Hain. specialize (O1 a sa Hain). lia.
      - intros c sc Hcin. specialize (O2 c sc Hcin). lia. }
    destruct (link_spec mb head B (B + N) L1 L2 nfb (sz - e - 16) Hctx) as (K1 & K2 & K3).
    assert (coalesce L1 (nfb, sz - e - 16) L2 = L1 ++ (nfb, sz - e - 16) :: L2) as Ecoal.
    { apply coalesce_apart.
      - intros a sa Hain. specialize (O1 a sa Hain). subst nfb. lia.
      - intros c sc Hcin. specialize (O2 c sc Hcin). subst nfb. lia. }
    rewrite Ecoal in K1, K2.
    set (mi := insert_block mb B nfb (slot_after head L1)) in *.
    eexists. split; [reflexivity|]. split; [exact Hfits|]. split; [reflexivity|].
    constructor; unfold alloc_take, alloc_list; try rewrite Eb.
    + replace (r + 16 + e) with nfb by (subst nfb; lia).
      split; [constructor; assumption|]. split.
      * unfold free_block_list. cbn [bytes with_bytes free_block_list_addr]. fold head.
        rewrite !load64_store64_other by lia.
        apply (fseg_frame mi); [|exact K1].
        intros a sa Hain. apply in_app_or in Hain.
        assert (a + 16 <= r \/ r + 16 + e <= a) as Hout.
        { destruct Hain as [Hain | [Hain | Hain]].
          - specialize (O1 a sa Hain).
            pose proof (spaced_In _ _ _ _ _ S1 Hain). lia.
          - inversion Hain; subst a sa. subst nfb. lia.
          - specialize (O2 a sa Hain). lia. }
        split; rewrite !load64_store64_other by lia; reflexivity.
      * exact K2.
    + rewrite !load64_store64_other by lia. apply load64_store64_same. lia.
    + intros Hbig. unfold guards_ok, guard_of. cbn [bytes with_bytes secret_number].
      fold (guard_of st r). consts.
      assert (load64 (store64 (store64 (store64 mi r e) (r + 8) (guard_of st r))
                              (r + 16 + e - 8) (guard_of st r)) r = e) as Esz.
      { rewrite !load64_store64_other by lia. apply load64_store64_same. lia. }
      rewrite Esz. rewrite (wrap_small (r + 16 + e - 8)) by lia.
      split.
      * rewrite load64_store64_other by lia. apply load64_store64_same. exact Hg.
      * apply load64_store64_same. exact Hg.
    + intros y Hy1 Hy2 Hy3. rewrite !store64_out by lia.
      subst mi. rewrite K3; try assumption; try (subst nfb; lia).
      subst mb. rewrite !store64_out by (subst nfb; lia).
      apply U4; try assumption. lia.
Qed.

(** ** Release *)

Lemma split_around (p s : Z) (L : list blk) :
  forall lo hi,
    spaced lo L hi -> 0 <= s ->
    (forall a sa, In (a, sa) L -> a + 16 + sa <= p \/ p + 16 + s <= a) ->
    exists L1 L2, L = L1 ++ L2
                  /\ (forall a sa, In (a, sa) L1 -> a + 16 + sa <= p)
                  /\ (forall c sc, In (c, sc) L2 -> p + 16 + s <= c).
Proof.
  induction L as [|[a sa] L IH]; intros lo hi Hsp Hs Hdis; lsimpl.
  - exists [], []. split; [reflexivity|]. split; intros ? ? [].
  - destruct Hsp as (H1 & H2 & H3 & H4).
    destruct (Hdis a sa (or_introl eq_refl)) as [Hbefore | Hafter].
    + destruct (IH _ _ H4 Hs) as (L1 & L2 & -> & I1 & I2).
      { intros a' sa' Hin. apply (Hdis a' sa'). right. exact Hin. }
      exists ((a, sa) :: L1), L2. split; [reflexivity|]. split; [|exact I2].
      intros a' sa' [E | Hin]; [inversion E; subst; exact Hbefore|apply (I1 _ _ Hin)].
    + exists [], ((a, sa) :: L). split; [reflexivity|]. split; [intros ? ? []|].
      intros c sc [E | Hin]; [inversion E; subst; exact Hafter|].
      pose proof (spaced_In _ _ _ _ _ H4 Hin). lia.
Qed.

Lemma spaced_below (p : Z) (L : list blk) :
  forall lo hi,
    spaced lo L hi -> (forall a sa, In (a, sa) L -> a + 16 + sa <= p) -> spaced lo L p.
Proof.
  induction L as [|[a sa] L IH]; intros lo hi Hsp Hall; lsimpl; [exact I|].
  destruct Hsp as (H1 & H2 & H3 & H4).
  pose proof (Hall a sa (or_introl eq_refl)).
  repeat split; try lia.
  apply (IH _ hi); [exact H4|]. intros a' sa' Hin. apply (Hall a' sa'). right. exact Hin.
Qed.

(** [mem_free] on the payload of a block [p] of size [s] that lies between
    the free blocks [L1] and [L2]: the block is linked in with coalescing,
    and only its header, the slot and the header of the slot's owner are
    written. *)
(** The run of [mem_free] on a live block: the header is turned into a free
    header and linked at the slot that follows [L1]. *)
Lemma mem_free_run (fuel : nat) (st : state) (N : Z) (L1 L2 : list blk) (p s : Z) :
  free_list_is st N (L1 ++ L2) -> (length (L1 ++ L2) < fuel)%nat ->
  memory_area st <= p -> load64 (bytes st) p = s ->
  p + 16 + s <= memory_area st + N ->
  (forall a sa, In (a, sa) L1 -> a + 16 + sa <= p) ->
  (forall c sc, In (c, sc) L2 -> p + 16 + s <= c) ->
  guards_ok st p ->
  p + 16 < MEM_SPACE_MAX st ->
  let m2 := store64 (store64 (bytes st) p s) (p + 8) 0 in
  link_ctx m2 (free_block_list_addr st) (memory_area st) (memory_area st + N) L1 L2 p s
  /\ mem_free fuel st (p + 16)
     = Done (with_bytes st (insert_block m2 (memory_area st) p
                                         (slot_after (free_block_list_addr st) L1)))
  /\ (forall y, y < p \/ p + 16 <= y -> m2 y = bytes st y).
Proof.
  intros (Hok & Hseg & Hsp) Hfuel Hp_lo Hp_size Hp_hi A1 A2 (Hg1 & Hg2) Hzone m2'.
  pose proof Hok as Hok'.
  destruct Hok as [Hhead_lo Hhead_hi Htop Hmin Hmax Hsecret].
  set (B := memory_area st) in *. set (head := free_block_list_addr st) in *.
  consts.
  assert (0 <= s < 2 ^ 64) as Hs by (rewrite <- Hp_size; apply load64_range).
  apply spaced_app in Hsp. destruct Hsp as (Sp1 & Sp2).
  pose proof (past_ge L1 _ _ Sp1) as Hpast.
  assert (spaced B L2 (B + N)) as Sp2'
    by (apply (spaced_weaken L2 (past B L1) B (B + N) (B + N)); try lia; exact Sp2).
  apply fseg_app in Hseg. destruct Hseg as (q & Hseg1 & Hseg2).
  pose proof (fseg_hd _ _ _ Hseg2) as Hq. subst q.
  unfold mem_free, out_of_area. fold B head. rewrite Hmin.
  replace (p + 16 =? NULL) with false by (symmetry; apply Z.eqb_neq; consts_goal; lia).
  replace (p + 16 <? B + 16) with false by (symmetry; apply Z.ltb_ge; lia).
  replace (p + 16 >=? MEM_SPACE_MAX st) with false
    by (symmetry; rewrite Z.geb_leb; apply Z.leb_gt; lia).
  cbn [orb]. cbv zeta. consts_goal.
  replace (p + 16 - 16) with p by lia. rewrite (wrap_small p) by lia.
  rewrite Hg1, Z.eqb_refl. cbn [negb].
  rewrite Hg2, Z.eqb_refl. cbn [negb].
  rewrite Hp_size, Z.sub_0_r, (wrap_small s) by lia.
  set (m2 := store64 (store64 (bytes st) p s) (p + 8) 0).
  assert (forall y, y < p \/ p + 16 <= y -> m2 y = bytes st y) as Hm2.
  { intros y Hy. subst m2. rewrite !store64_out by lia. reflexivity. }
  assert (forall a sa, In (a, sa) L1 -> B <= a /\ 0 <= sa /\ a + 16 + sa <= p) as B1.
  { intros a sa Hin. pose proof (spaced_In _ _ _ _ _ Sp1 Hin). specialize (A1 a sa Hin). lia. }
  assert (forall c sc, In (c, sc) L2 -> p + 16 + s <= c /\ 0 <= sc /\ c + 16 + sc <= B + N) as B2.
  { intros c sc Hin. pose proof (spaced_In _ _ _ _ _ Sp2' Hin). specialize (A2 c sc Hin). lia. }
  assert (link_ctx m2 head B (B + N) L1 L2 p s) as Hctx.
  { constructor; try assumption; try lia.
    - replace (load64 m2 head) with (load64 (bytes st) head)
        by (symmetry; apply load64_ext; intros i Hi; apply Hm2; lia).
      apply (fseg_frame (bytes st)); [|exact Hseg1].
      intros a sa Hin. specialize (B1 a sa Hin).
      split; apply load64_ext; intros i Hi; apply Hm2; lia.
    - apply (fseg_frame (bytes st)); [|exact Hseg2].
      intros c sc Hin. specialize (B2 c sc Hin).
      split; apply load64_ext; intros i Hi; apply Hm2; lia.
    - subst m2. rewrite load64_store64_other by lia. apply load64_store64_same. lia. }
  destruct (search_block_spec m2 p L1 head fuel (hd_ptr L2) B p) as [Hsearch _].
  { apply (lc_seg1 _ _ _ _ _ _ _ _ Hctx). }
  { apply (spaced_below p L1 B (B + N)); assumption. }
  { lia. }
  { lia. }
  { intros a sa Hin. specialize (B1 a sa Hin). lia. }
  { destruct L2 as [|[c sc] L2']; lsimpl; [left; reflexivity|right].
    specialize (B2 c sc (or_introl eq_refl)). lia. }
  { rewrite length_app in Hfuel. lia. }
  rewrite Hsearch. cbn [bind].
  split; [exact Hctx|]. split; [reflexivity|exact Hm2].
Qed.

Lemma mem_free_spec (fuel : nat) (st : state) (N : Z) (L1 L2 : list blk) (p s : Z) :
  free_list_is st N (L1 ++ L2) -> (length (L1 ++ L2) < fuel)%nat ->
  memory_area st <= p -> load64 (bytes st) p = s ->
  p + 16 + s <= memory_area st + N ->
  (forall a sa, In (a, sa) L1 -> a + 16 + sa <= p) ->
  (forall c sc, In (c, sc) L2 -> p + 16 + s <= c) ->
  guards_ok st p ->
  p + 16 < MEM_SPACE_MAX st ->
  exists m',
    mem_free fuel st (p + 16) = Done (with_bytes st m')
    /\ free_list_is (with_bytes st m') N (coalesce L1 (p, s) L2)
    /\ (forall y, y < p \/ p + 16 <= y ->
                  y < free_block_list_addr st \/ free_block_list_addr st + 8 <= y ->
                  (forall a sa, In (a, sa) L1 -> y < a \/ a + 16 <= y) ->
                  m' y = bytes st y).
Proof.
  intros Hinv Hfuel Hp_lo Hp_size Hp_hi A1 A2 Hguards Hzone.
  destruct (mem_free_run fuel st N L1 L2 p s Hinv Hfuel Hp_lo Hp_size Hp_hi A1 A2 Hguards Hzone)
    as (Hctx & Hrun & Hm2).
  destruct Hinv as (Hok & _ & _).
  destruct (link_spec _ _ _ _ L1 L2 p s Hctx) as (K1 & K2 & K3).
  eexists. split; [exact Hrun|]. split.
  - split; [apply arena_ok_with_bytes; exact Hok|]. split; [exact K1|exact K2].
  - intros y Hy1 Hy2 Hy3. rewrite K3 by assumption. apply Hm2. exact Hy1.
Qed.

(** ** Initialisation *)

Lemma mem_init_arena (m0 : mem) (head B N : Z) :
  8 <= head -> head + 8 <= B -> 16 <= N -> B + N < 2 ^ 64 ->
  arena_ok (mem_init m0 head B N) N.
Proof.
  intros H1 H2 H3 H4. unfold mem_init. constructor;
    cbn [free_block_list_addr memory_area MEM_SPACE_MIN MEM_SPACE_MAX secret_number];
    consts; try lia.
  - apply wrap_small. lia.
  - apply wrap_small. lia.
Qed.

Lemma mem_init_spec (m0 : mem) (head B N : Z) :
  8 <= head -> head + 8 <= B -> 16 <= N -> B + N < 2 ^ 64 ->
  free_list_is (mem_init m0 head B N) N [(B, N - 16)].
Proof.
  intros H1 H2 H3 H4. split; [apply mem_init_arena; lia|].
  unfold mem_init, free_block_list.
  cbn [bytes free_block_list_addr memory_area]. lsimpl.
  rewrite (wrap_small (N - 16)) by lia.
  split.
  - repeat split; try lia.
    + rewrite !load64_store64_other by lia. apply load64_store64_same. lia.
    + rewrite load64_store64_other by lia. apply load64_store64_same. lia.
    + apply load64_store64_same. lia.
  - repeat split; lia.
Qed.

(** ** Allocate, then free *)

Lemma fuse_left_apart (L1 R' : list blk) (x sx : Z) :
  (forall a sa, In (a, sa) L1 -> a + 16 + sa < x) ->
  fuse_left L1 ((x, sx) :: R') = L1 ++ (x, sx) :: R'.
Proof.
  intros H1.
  destruct (snoc_cases L1) as [-> | (L0 & a & sa & ->)]; [reflexivity|].
  rewrite fuse_left_snoc.
  specialize (H1 a sa ltac:(apply in_or_app; right; left; reflexivity)).
  replace (a + 16 + sa =? x) with false by (symmetry; apply Z.eqb_neq; lia).
  reflexivity.
Qed.

Lemma alloc_list_length (L1 L2 : list blk) (b sz e : Z) :
  (length (alloc_list L1 b sz e L2) <= length (L1 ++ (b, sz) :: L2))%nat.
Proof.
  unfold alloc_list. destruct (sz - e <=? 24); rewrite !length_app; cbn [length]; lia.
Qed.

(** C5 (for requests whose size plus the guard does not wrap): on a heap
    whose free list is well formed, [mem_alloc k] followed by [mem_free] of
    the pointer it returned completes and leaves exactly the free list
    there was before, block for block; when [mem_alloc] returns [NULL] the
    heap is untouched and freeing [NULL] does nothing. *)
Theorem free_after_alloc_restores_free_list
        (fuel : nat) (st : state) (N : Z) (L : list blk) (k : Z) :
  free_list_is st N L -> (length L < fuel)%nat ->
  0 <= k < 2 ^ 64 - 8 ->
  exists p st1 st2,
    mem_alloc fuel st k = Done (p, st1)
    /\ mem_free fuel st1 p = Done st2
    /\ free_list_is st2 N L.
Proof.
  intros Hinv Hfuel Hk.
  destruct (mem_alloc_spec fuel st N L k Hinv Hfuel)
    as [[_ Hnull] | (L1 & b & sz & L2 & m' & -> & Hfits & Hrun & Hpost)].
  - exists NULL, st, st. split; [exact Hnull|]. split; [reflexivity|exact Hinv].
  - consts. rewrite (wrap_small (k + 8)) in * by lia.
    set (e := k + 8) in *.
    destruct Hpost as [Plist Psize Pguards Pframe].
    destruct Hinv as (Hok & Hseg & Hsp).
    pose proof (spaced_order _ _ _ _ _ _ Hsp) as (O1 & O2 & O3 & O4 & O5).
    pose proof (ao_max _ _ Hok) as Hmax.
    set (st1 := with_bytes st m') in *.
    assert (8 <= alloc_take sz e /\ alloc_take sz e <= sz) as [Ht1 Ht2].
    { unfold alloc_take. destruct (sz - e <=? 24); lia. }
    assert (exists X, alloc_list L1 b sz e L2 = L1 ++ X
                      /\ (forall c sc, In (c, sc) X -> b + 16 + alloc_take sz e <= c)
                      /\ coalesce L1 (b, alloc_take sz e) X = L1 ++ (b, sz) :: L2)
      as (X & EX & HX & Hco).
    { unfold alloc_list, alloc_take. destruct (sz - e <=? 24) eqn:Eb.
      - exists L2. split; [reflexivity|]. split.
        + intros c sc Hin. specialize (O2 c sc Hin). lia.
        + apply coalesce_apart; [exact O1|].
          intros c sc Hin. specialize (O2 c sc Hin). lia.
      - apply Z.leb_gt in Eb.
        exists ((b + 16 + e, sz - e - 16) :: L2). split; [reflexivity|]. split.
        + intros c sc [E | Hin]; [inversion E; subst; lia|].
          specialize (O2 c sc Hin). lia.
        + unfold coalesce. lsimpl.
          replace (b + e + 16 =? b + 16 + e) with true by (symmetry; apply Z.eqb_eq; lia).
          replace (e + 16 + (sz - e - 16)) with sz by lia.
          apply fuse_left_apart. exact O1. }
    rewrite EX in Plist.
    destruct (mem_free_spec fuel st1 N L1 X b (alloc_take sz e)) as (m'' & Hfree & Hlist & _).
    + exact Plist.
    + rewrite <- EX. pose proof (alloc_list_length L1 L2 b sz e). lia.
    + exact O3.
    + exact Psize.
    + cbn [memory_area st1 with_bytes]. lia.
    + intros a sa Hin. specialize (O1 a sa Hin). lia.
    + exact HX.
    + apply Pguards. exact Ht1.
    + cbn [MEM_SPACE_MAX st1 with_bytes]. rewrite Hmax. lia.
    + exists (b + 16), st1, (with_bytes st1 m''). split; [exact Hrun|].
      split; [exact Hfree|]. rewrite <- Hco. exact Hlist.
Qed.

Lemma ex_init_free_list : free_list_is ex_init ex_total [(ex_base, ex_total - 16)].
Proof. apply mem_init_spec; unfold ex_head, ex_base, ex_total; lia. Qed.

Lemma free_after_alloc_restores_free_list_witness :
  exists p st1 st2,
    mem_alloc 8 ex_init 100 = Done (p, st1)
    /\ mem_free 8 st1 p = Done st2
    /\ free_list_is st2 ex_total [(ex_base, ex_total - 16)].
Proof.
  apply (free_after_alloc_restores_free_list 8 ex_init ex_total [(ex_base, ex_total - 16)] 100).
  - exact ex_init_free_list.
  - simpl. lia.
  - lia.
Defined.

(** C5 as the specification words it, for every size, does not hold: the
    request [2^64 - 1] wraps to an effective size of 7, the trailer store
    overlaps the last byte of the header guard, and [mem_free] of the
    pointer just returned fails its assertion. *)
Lemma free_after_huge_alloc_aborts :
  ptr_of ex_huge = ex_base + 16
  /\ mem_free 8 (state_of ex_init ex_huge) (ptr_of ex_huge) = AssertFailed.
Proof. split; vm_compute; reflexivity. Qed.

(** ** Requests that wrap *)

(** C9: [mem_alloc] adds the guard size modulo [2^64].  For every request
    [s >= 2^64 - 8] the effective size is [s + 8 - 2^64], between 0 and 7,
    and on any freshly initialised arena of at least 64 bytes the request
    succeeds: it returns the first payload address, the block it hands out
    has size field [s + 8 - 2^64], and the rest of the arena stays free. *)
Theorem huge_request_wraps_and_succeeds
        (m0 : mem) (head B N s : Z) (fuel : nat) :
  8 <= head -> head + 8 <= B -> 64 <= N -> B + N < 2 ^ 64 ->
  2 ^ 64 - 8 <= s < 2 ^ 64 ->
  (1 < fuel)%nat ->
  let e := s + 8 - 2 ^ 64 in
  wrap (s + SECRET_SIZE) = e
  /\ 0 <= e <= 7
  /\ exists m',
      mem_alloc fuel (mem_init m0 head B N) s
      = Done (B + 16, with_bytes (mem_init m0 head B N) m')
      /\ load64 m' B = e
      /\ free_list_is (with_bytes (mem_init m0 head B N) m') N [(B + 16 + e, N - 32 - e)].
Proof.
  intros H1 H2 H3 H4 Hs Hfuel e.
  assert (wrap (s + SECRET_SIZE) = e) as Hwrap.
  { consts. unfold wrap. subst e. symmetry. apply Z.mod_unique with (q := 1); lia. }
  split; [exact Hwrap|]. split; [subst e; lia|].
  pose proof (mem_init_spec m0 head B N H1 H2 ltac:(lia) H4) as Hinit.
  set (st := mem_init m0 head B N) in *.
  destruct (mem_alloc_spec fuel st N [(B, N - 16)] s Hinit ltac:(simpl; lia))
    as [[Hnull _] | (L1 & b & sz & L2 & m' & EL & Hfits & Hrun & Hpost)].
  - (* first fit cannot miss the only block *)
    exfalso. rewrite Hwrap in Hnull.
    destruct Hinit as (_ & Hseg & _). lsimpl. destruct Hseg as (Hp & Hnz & Hsz & _).
    change (current_fit_function st) with FirstFit in Hnull.
    cbn [call_fit] in Hnull. destruct fuel as [|fuel]; [lia|].
    cbn [mem_first_fit] in Hnull. rewrite Hp in Hnull.
    replace (B =? NULL) with false in Hnull by (symmetry; apply Z.eqb_neq; exact Hnz).
    rewrite Hsz in Hnull.
    replace (N - 16 >=? e) with true in Hnull
      by (symmetry; rewrite Z.geb_leb; apply Z.leb_le; subst e; lia).
    inversion Hnull. consts. lia.
  - rewrite Hwrap in *.
    assert (L1 = [] /\ b = B /\ sz = N - 16 /\ L2 = []) as (-> & -> & -> & ->).
    { destruct L1 as [|x L1].
      - inversion EL. repeat split; reflexivity.
      - inversion EL. destruct L1; discriminate. }
    destruct Hpost as [Plist Psize _ _].
    unfold alloc_take in Psize. unfold alloc_list in Plist.
    replace (N - 16 - e <=? 24) with false in *
      by (symmetry; apply Z.leb_gt; subst e; lia).
    exists m'. split; [exact Hrun|]. split; [exact Psize|].
    replace (N - 32 - e) with (N - 16 - e - 16) by lia. exact Plist.
Qed.

Lemma huge_request_wraps_and_succeeds_witness :
  wrap (2 ^ 64 - 1 + SECRET_SIZE) = 7
  /\ 0 <= 7 <= 7
  /\ exists m',
      mem_alloc 8 ex_init (2 ^ 64 - 1) = Done (ex_base + 16, with_bytes ex_init m')
      /\ load64 m' ex_base = 7
      /\ free_list_is (with_bytes ex_init m') ex_total [(ex_base + 16 + 7, ex_total - 32 - 7)].
Proof.
  apply (huge_request_wraps_and_succeeds (fun _ => 0) ex_head ex_base ex_total (2 ^ 64 - 1) 8);
    unfold ex_head, ex_base, ex_total; lia.
Defined.

(** ** Traversal *)

Lemma layout_bounds (m : mem) (hi : Z) (bl : list ablock) :
  forall cur nf, layout m cur nf bl hi -> cur <= hi.
Proof.
  induction bl as [|b bl IH]; intros cur nf H; cbn [layout] in H.
  - lia.
  - destruct H as (_ & Hs & _ & Hrest).
    pose proof (load64_range m cur).
    destruct (b_free b); destruct Hrest as [_ Hrest]; specialize (IH _ _ Hrest); lia.
Qed.

(** The inner loop prints the allocated blocks up to the next free block
    or the end of the arena. *)
Lemma show_allocated_run (m : mem) (hi : Z) (bl : list ablock) :
  forall fuel cur nf,
    layout m cur nf bl hi -> 0 < cur -> hi < 2 ^ 64 ->
    (length bl < fuel)%nat ->
    exists run rest cur',
      bl = run ++ rest
      /\ show_allocated fuel m (hi - 1) nf cur = Done (map visit_of run)
      /\ layout m cur' nf rest hi /\ cur <= cur'
      /\ (rest = [] \/ exists b rest', rest = b :: rest' /\ b_free b = true).
Proof.
  induction bl as [|b bl IH]; intros fuel cur nf H Hcur Hhi Hfuel;
    (destruct fuel as [|fuel]; [cbn [length] in Hfuel; lia|]);
    cbn [layout] in H; cbn [show_allocated].
  - destruct H as [-> ->].
    exists [], [], hi. split; [reflexivity|]. split.
    + replace (hi <? hi - 1) with false by (symmetry; apply Z.ltb_ge; lia).
      rewrite andb_false_r. reflexivity.
    + split; [cbn [layout]; split; reflexivity|]. split; [lia|left; reflexivity].
  - destruct H as (Ha & Hs & Hend & Hrest).
    pose proof (load64_range m cur) as Hrange.
    destruct (b_free b) eqn:Efree.
    + (* a free block: the run is empty *)
      destruct Hrest as [-> Hrest].
      exists [], (b :: bl), cur. split; [reflexivity|]. split.
      * rewrite Z.eqb_refl. reflexivity.
      * split; [|split; [lia|right; exists b, bl; split; [reflexivity|exact Efree]]].
        cbn [layout]. rewrite Efree. repeat split; assumption.
    + destruct Hrest as [Hnf Hrest].
      replace (cur =? nf) with false by (symmetry; apply Z.eqb_neq; congruence).
      replace (cur <? hi - 1) with true by (symmetry; apply Z.ltb_lt; lia).
      cbn [negb andb]. consts.
      rewrite (wrap_small (cur + 16 + load64 m cur)) by lia.
      rewrite Hs.
      destruct (IH fuel (cur + 16 + b_size b) nf Hrest ltac:(lia) Hhi
                  ltac:(cbn [length] in Hfuel; lia))
        as (run & rest & cur' & -> & Hrun & Hlay & Hle & Hshape).
      exists (b :: run), rest, cur'. split; [reflexivity|]. split.
      * rewrite Hrun. cbn [bind map]. unfold visit_of at 2.
        rewrite Ha, Efree. consts_goal.
        rewrite (wrap_small (cur + 16)) by lia. reflexivity.
      * split; [exact Hlay|]. split; [lia|exact Hshape].
Qed.

Lemma show_free_layout (m : mem) (hi : Z) :
  forall fuel bl cur nf,
    layout m cur nf bl hi -> 0 < cur -> hi < 2 ^ 64 ->
    (bl = [] \/ exists b bl', bl = b :: bl' /\ b_free b = true) ->
    (length bl < fuel)%nat ->
    show_free fuel m (hi - 1) nf = Done (map visit_of bl).
Proof.
  induction fuel as [|fuel IH]; intros bl cur nf H Hcur Hhi Hshape Hfuel; [lia|].
  cbn [show_free].
  destruct Hshape as [-> | (b & bl' & -> & Efree)]; cbn [layout] in H.
  - destruct H as [_ ->]. reflexivity.
  - destruct H as (Ha & Hs & Hend & Hrest). rewrite Efree in Hrest.
    destruct Hrest as [-> Hrest].
    pose proof (load64_range m cur) as Hrange.
    replace (cur =? NULL) with false by (symmetry; apply Z.eqb_neq; consts_goal; lia).
    consts. rewrite (wrap_small (cur + 16 + load64 m cur)) by lia. rewrite Hs.
    destruct (show_allocated_run m hi bl' (S fuel) (cur + 16 + b_size b)
                (load64 m (cur + 8)) Hrest ltac:(lia) Hhi
                ltac:(cbn [length] in Hfuel; lia))
      as (run & rest & cur' & -> & Hrun & Hlay & Hle & Hshape').
    rewrite Hrun. cbn [bind].
    rewrite (IH rest cur' (load64 m (cur + 8)) Hlay ltac:(lia) Hhi Hshape').
    + cbn [bind map]. rewrite map_app. unfold visit_of at 3.
      rewrite Ha, Efree. consts_goal.
      rewrite (wrap_small (cur + 16)) by lia. reflexivity.
    + cbn [length] in Hfuel. rewrite length_app in Hfuel. lia.
Qed.

Lemma mem_show_layout (fuel : nat) (st : state) (N : Z) (bl : list ablock) :
  arena_ok st N ->
  layout (bytes st) (memory_area st) (free_block_list st) bl (memory_area st + N) ->
  (length bl < fuel)%nat ->
  mem_show fuel st = Done (map visit_of bl).
Proof.
  intros Hok Hlay Hfuel.
  destruct Hok as [Hhead_lo Hhead_hi Htop Hmin Hmax Hsecret].
  unfold mem_show. rewrite Hmax.
  destruct (show_allocated_run (bytes st) (memory_area st + N) bl fuel (memory_area st)
              (free_block_list st) Hlay ltac:(lia) Htop Hfuel)
    as (run & rest & cur' & -> & Hrun & Hlay' & Hle & Hshape).
  rewrite Hrun. cbn [bind].
  rewrite (show_free_layout (bytes st) (memory_area st + N) fuel rest cur'
             (free_block_list st) Hlay' ltac:(lia) Htop Hshape).
  - cbn [bind]. rewrite map_app. reflexivity.
  - rewrite length_app in Hfuel. lia.
Qed.

Lemma mem_init_layout (m0 : mem) (head B N : Z) :
  8 <= head -> head + 8 <= B -> 16 <= N -> B + N < 2 ^ 64 ->
  layout (bytes (mem_init m0 head B N)) B (free_block_list (mem_init m0 head B N))
         [mkBlock B (N - 16) true] (B + N).
Proof.
  intros H1 H2 H3 H4.
  destruct (mem_init_spec m0 head B N H1 H2 H3 H4) as (_ & Hseg & _).
  lsimpl. destruct Hseg as (Hp & Hnz & Hsz & Hnext).
  cbn [layout b_addr b_size b_free]. repeat split; try assumption; try lia.
Qed.

Lemma span_len_visit_of (b : ablock) :
  0 <= b_size b < 2 ^ 64 -> span_len (visit_of b) = 16 + b_size b.
Proof.
  intro H. unfold span_len, visit_of. cbn [v_size]. consts_goal. f_equal.
  unfold wrap. rewrite Zplus_mod_idemp_l.
  replace (b_size b - 8 + 8) with (b_size b) by lia.
  apply Z.mod_small. exact H.
Qed.

Lemma layout_tiles (m : mem) (hi : Z) (bl : list ablock) :
  forall cur nf,
    layout m cur nf bl hi ->
    ranges_tile span_start span_len cur (map visit_of bl) hi.
Proof.
  induction bl as [|b bl IH]; intros cur nf H; cbn [layout] in H; cbn [map ranges_tile].
  - destruct H as [-> _]. reflexivity.
  - destruct H as (Ha & Hs & Hend & Hrest).
    pose proof (load64_range m cur) as Hrange. rewrite Hs in Hrange.
    rewrite span_len_visit_of by exact Hrange.
    split.
    + unfold span_start, visit_of. cbn [v_payload]. consts_goal. lia.
    + rewrite Z.add_assoc.
      destruct (b_free b); destruct Hrest as [_ Hrest]; apply (IH _ _ Hrest).
Qed.

(** C8 (with the extent of a block as the code reports it): on a
    well-laid-out arena [mem_show] calls the visitor exactly once per
    block, in address order, with the payload address, the size field
    minus the guard size, and the free flag; the extents that start one
    header before each payload and span header, reported size and the
    eight bytes subtracted follow one another from the base of the arena
    to its end, without gap or overlap. *)
Theorem mem_show_visits_every_block_once
        (fuel : nat) (st : state) (N : Z) (bl : list ablock) :
  arena_ok st N ->
  layout (bytes st) (memory_area st) (free_block_list st) bl (memory_area st + N) ->
  (length bl < fuel)%nat ->
  mem_show fuel st = Done (map visit_of bl)
  /\ ranges_tile span_start span_len (memory_area st) (map visit_of bl) (memory_area st + N).
Proof.
  intros Hok Hlay Hfuel. split.
  - apply (mem_show_layout fuel st N bl); assumption.
  - apply (layout_tiles (bytes st) _ bl _ (free_block_list st)). exact Hlay.
Qed.

(** C10: [mem_show] reports every free block with its stored size minus
    [SECRET_SIZE], as it does for allocated blocks, although a free block
    holds no guard; on a freshly initialised arena the only visit is the
    free block at the base, reported with size
    [N - MEM_FREE_BLOCK_SIZE - 8]. *)
Theorem mem_show_reports_free_size_minus_guard
        (fuel : nat) (st : state) (N : Z) (bl : list ablock) (b : ablock)
        (m0 : mem) (head B N0 : Z) :
  arena_ok st N ->
  layout (bytes st) (memory_area st) (free_block_list st) bl (memory_area st + N) ->
  (length bl < fuel)%nat ->
  In b bl -> b_free b = true ->
  8 <= head -> head + 8 <= B -> 24 <= N0 -> B + N0 < 2 ^ 64 ->
  (exists vs, mem_show fuel st = Done vs
              /\ In (mkVisit (b_addr b + 16) (wrap (b_size b - SECRET_SIZE)) true) vs)
  /\ mem_show fuel (mem_init m0 head B N0)
     = Done [mkVisit (B + 16) (N0 - MEM_FREE_BLOCK_SIZE - 8) true].
Proof.
  intros Hok Hlay Hfuel Hin Hfree H1 H2 H3 H4. split.
  - exists (map visit_of bl). split; [apply (mem_show_layout fuel st N bl); assumption|].
    replace (mkVisit (b_addr b + 16) (wrap (b_size b - SECRET_SIZE)) true) with (visit_of b)
      by (unfold visit_of; rewrite Hfree; reflexivity).
    apply in_map. exact Hin.
  - assert (1 < fuel)%nat as Hf.
    { destruct bl as [|b0 bl]; [destruct Hin|]. cbn [length] in Hfuel. lia. }
    rewrite (mem_show_layout fuel (mem_init m0 head B N0) N0 [mkBlock B (N0 - 16) true]).
    + cbn [map]. unfold visit_of. cbn [b_addr b_size b_free]. consts_goal.
      rewrite (wrap_small (N0 - 16 - 8)) by lia. reflexivity.
    + apply mem_init_arena; lia.
    + apply (mem_init_layout m0 head B N0); lia.
    + cbn [length]. lia.
Qed.

(** Closed facts about the worked scenarios are settled by evaluation. *)
Ltac by_compute :=
  vm_compute;
  repeat match goal with
         | |- _ /\ _ => split
         | |- _ = _ => reflexivity
         | |- _ -> False => let H := fresh in intro H; discriminate H
         | |- True => exact I
         end.

Lemma ex_holes_arena : arena_ok ex_holes ex_total.
Proof. constructor; by_compute. Qed.

Lemma ex_holes_layout :
  layout (bytes ex_holes) (memory_area ex_holes) (free_block_list ex_holes)
         ex_holes_blocks (memory_area ex_holes + ex_total).
Proof. by_compute. Qed.

Lemma mem_show_visits_every_block_once_witness :
  mem_show 8 ex_holes = Done (map visit_of ex_holes_blocks)
  /\ ranges_tile span_start span_len (memory_area ex_holes) (map visit_of ex_holes_blocks)
                 (memory_area ex_holes + ex_total).
Proof.
  apply (mem_show_visits_every_block_once 8 ex_holes ex_total ex_holes_blocks).
  - exact ex_holes_arena.
  - exact ex_holes_layout.
  - simpl. lia.
Defined.

(** C8 as the specification words it does not hold: with the extent of a
    visit taken as reported size plus header, the single visit of a fresh
    arena stops eight bytes short of its end, whether the extent is
    counted from the header or from the payload. *)
Lemma claimed_ranges_do_not_cover :
  mem_show 8 ex_init = Done [mkVisit (ex_base + 16) 4072 true]
  /\ ~ ranges_tile span_start claimed_len ex_base
         [mkVisit (ex_base + 16) 4072 true] (ex_base + ex_total)
  /\ ~ ranges_tile v_payload claimed_len ex_base
         [mkVisit (ex_base + 16) 4072 true] (ex_base + ex_total).
Proof.
  split; [vm_compute; reflexivity|]. split.
  - intros [_ H]. vm_compute in H. discriminate H.
  - intros [H _]. vm_compute in H. discriminate H.
Qed.

Lemma mem_show_reports_free_size_minus_guard_witness :
  (exists vs, mem_show 8 ex_holes = Done vs
              /\ In (mkVisit (ex_base + 44 + 16) (wrap (28 - SECRET_SIZE)) true) vs)
  /\ mem_show 8 (mem_init (fun _ => 0) ex_head ex_base ex_total)
     = Done [mkVisit (ex_base + 16) (ex_total - MEM_FREE_BLOCK_SIZE - 8) true].
Proof.
  apply (mem_show_reports_free_size_minus_guard 8 ex_holes ex_total ex_holes_blocks
           (mkBlock (ex_base + 44) 28 true) (fun _ => 0) ex_head ex_base ex_total).
  - exact ex_holes_arena.
  - exact ex_holes_layout.
  - simpl. lia.
  - simpl. right. left. reflexivity.
  - reflexivity.
  - unfold ex_head. lia.
  - unfold ex_head, ex_base. lia.
  - unfold ex_total. lia.
  - unfold ex_base, ex_total. lia.
Defined.

(** ** Resize by relocation *)

Lemma coalesce_covers (L1 L2 : list blk) (x sx lo hi : Z) :
  spaced lo L1 hi -> spaced lo L2 hi -> 0 <= sx ->
  exists a sa, In (a, sa) (coalesce L1 (x, sx) L2)
               /\ a <= x /\ x + 16 + sx <= a + 16 + sa.
Proof.
  intros S1 S2 Hsx. unfold coalesce.
  assert (exists sR R', fuse_right (x, sx) L2 = (x, sR) :: R' /\ sx <= sR) as (sR & R' & -> & HsR).
  { destruct L2 as [|[c sc] L2']; lsimpl.
    - exists sx, []. split; [reflexivity|lia].
    - destruct S2 as (? & ? & ? & _). destruct (x + sx + 16 =? c).
      + exists (sx + 16 + sc), L2'. split; [reflexivity|lia].
      + exists sx, ((c, sc) :: L2'). split; [reflexivity|lia]. }
  destruct (snoc_cases L1) as [-> | (L0 & a & sa & ->)].
  - exists x, sR. split; [left; reflexivity|]. lia.
  - rewrite fuse_left_snoc.
    apply spaced_split in S1. destruct S1 as (_ & _ & Hsa & _).
    destruct (a + 16 + sa =? x) eqn:E.
    + apply Z.eqb_eq in E. exists a, (sa + 16 + sR).
      split; [apply in_or_app; right; left; reflexivity|]. lia.
    + exists x, sR. split; [apply in_or_app; right; left; reflexivity|]. lia.
Qed.

(** A range that avoids the blocks of [L1], [x] and [L2] avoids every
    block of the coalesced list: merged blocks cover nothing but the
    blocks they were made of. *)
Lemma coalesce_outside (L1 L2 : list blk) (x sx q qe : Z) :
  q < qe ->
  (forall a sa, In (a, sa) L1 -> a + 16 + sa <= q \/ qe <= a) ->
  (x + 16 + sx <= q \/ qe <= x) ->
  (forall c sc, In (c, sc) L2 -> c + 16 + sc <= q \/ qe <= c) ->
  forall a sa, In (a, sa) (coalesce L1 (x, sx) L2) -> a + 16 + sa <= q \/ qe <= a.
Proof.
  intros Hq H1 Hx H2. unfold coalesce.
  assert (exists sR R', fuse_right (x, sx) L2 = (x, sR) :: R'
                        /\ (x + 16 + sR <= q \/ qe <= x)
                        /\ forall c sc, In (c, sc) R' -> c + 16 + sc <= q \/ qe <= c)
    as (sR & R' & -> & HxR & HR').
  { destruct L2 as [|[c sc] L2']; lsimpl.
    - exists sx, []. split; [reflexivity|]. split; [exact Hx|]. intros c sc [].
    - pose proof (H2 c sc (or_introl eq_refl)) as Hc.
      destruct (x + sx + 16 =? c) eqn:E.
      + apply Z.eqb_eq in E. exists (sx + 16 + sc), L2'. split; [reflexivity|].
        split; [lia|]. intros c' sc' Hin. apply (H2 c' sc'). right. exact Hin.
      + exists sx, ((c, sc) :: L2'). split; [reflexivity|]. split; [exact Hx|].
        exact H2. }
  destruct (snoc_cases L1) as [-> | (L0 & a0 & sa0 & ->)].
  - intros a sa [E | Hin]; [inversion E; subst; exact HxR|apply (HR' _ _ Hin)].
  - rewrite fuse_left_snoc.
    pose proof (H1 a0 sa0 ltac:(apply in_or_app; right; left; reflexivity)) as Ha0.
    assert (forall a sa, In (a, sa) L0 -> a + 16 + sa <= q \/ qe <= a) as H0
      by (intros a sa Hin; apply (H1 a sa); apply in_or_app; left; exact Hin).
    destruct (a0 + 16 + sa0 =? x) eqn:E.
    + apply Z.eqb_eq in E. intros a sa Hin.
      apply in_app_or in Hin. destruct Hin as [Hin | [E' | Hin]].
      * apply (H0 _ _ Hin).
      * inversion E'; subst a sa. lia.
      * apply (HR' _ _ Hin).
    + intros a sa Hin. apply in_app_or in Hin. destruct Hin as [Hin | [E' | Hin]].
      * apply (H1 _ _ Hin).
      * inversion E'; subst a sa. exact HxR.
      * apply (HR' _ _ Hin).
Qed.

Lemma split_at_address (t : Z) (L : list blk) :
  forall lo hi,
    spaced lo L hi ->
    exists L1 L2, L = L1 ++ L2 /\ (forall a sa, In (a, sa) L1 -> a < t)
                  /\ (forall c sc, In (c, sc) L2 -> t <= c).
Proof.
  induction L as [|[a sa] L IH]; intros lo hi Hsp; lsimpl.
  - exists [], []. split; [reflexivity|]. split; intros ? ? [].
  - destruct Hsp as (H1 & H2 & H3 & H4).
    destruct (Z_lt_le_dec a t) as [Hlt | Hge].
    + destruct (IH _ _ H4) as (L1 & L2 & -> & I1 & I2).
      exists ((a, sa) :: L1), L2. split; [reflexivity|]. split; [|exact I2].
      intros a' sa' [E | Hin]; [inversion E; subst; exact Hlt|apply (I1 _ _ Hin)].
    + exists [], ((a, sa) :: L). split; [reflexivity|]. split; [intros ? ? []|].
      intros c sc [E | Hin]; [inversion E; subst; exact Hge|].
      pose proof (spaced_In _ _ _ _ _ H4 Hin). lia.
Qed.

(** Where [search_block] stops when it looks for an address [t] that is
    past a block lying outside the free list. *)
Lemma search_block_around (fuel : nat) (st : state) (N : Z) (L : list blk) (t : Z) :
  free_list_is st N L -> (length L < fuel)%nat ->
  exists L1 L2,
    L = L1 ++ L2
    /\ (forall a sa, In (a, sa) L1 -> a < t)
    /\ (forall c sc, In (c, sc) L2 -> t <= c)
    /\ search_block fuel (bytes st) t (free_block_list_addr st)
       = Done (slot_after (free_block_list_addr st) L1)
    /\ load64 (bytes st) (slot_after (free_block_list_addr st) L1) = hd_ptr L2.
Proof.
  intros (Hok & Hseg & Hsp) Hfuel.
  destruct Hok as [Hhead_lo Hhead_hi Htop Hmin Hmax Hsecret].
  destruct (split_at_address t L _ _ Hsp) as (L1 & L2 & -> & A1 & A2).
  exists L1, L2. split; [reflexivity|]. split; [exact A1|]. split; [exact A2|].
  apply fseg_app in Hseg. destruct Hseg as (q & Hseg1 & Hseg2).
  pose proof (fseg_hd _ _ _ Hseg2) as ->.
  apply spaced_app in Hsp. destruct Hsp as (Sp1 & Sp2).
  apply (search_block_spec (bytes st) t L1 (free_block_list_addr st) fuel (hd_ptr L2)
           (memory_area st) (memory_area st + N)); try assumption; try lia.
  - destruct L2 as [|[c sc] L2']; lsimpl; [left; reflexivity|right].
    apply (A2 c sc). left. reflexivity.
  - rewrite length_app in Hfuel. lia.
Qed.

Lemma fseg_In_size (m : mem) (L : list blk) :
  forall p q a s, fseg m p L q -> In (a, s) L -> load64 m a = s /\ a <> NULL.
Proof.
  induction L as [|[a0 s0] L IH]; intros p q a s H Hin; lsimpl; [contradiction|].
  destruct H as (_ & Hnz & Hs & Hn). destruct Hin as [E | Hin].
  - inversion E; subst. split; [reflexivity|assumption].
  - apply (IH _ _ _ _ Hn Hin).
Qed.

Lemma in_area_of_block (st : state) (N p old : Z) :
  arena_ok st N -> memory_area st <= p -> 2 <= old ->
  p + 16 + old <= memory_area st + N ->
  ((p + 16 =? NULL) = false)
  /\ ((p + 16 <? MEM_SPACE_MIN st) || (p + 16 >=? MEM_SPACE_MAX st)) = false.
Proof.
  intros [Hhead_lo Hhead_hi Htop Hmin Hmax Hsecret] Hp Hold Hend.
  rewrite Hmin, Hmax. split.
  - apply Z.eqb_neq. consts_goal. lia.
  - replace (p + 16 <? memory_area st + 16) with false by (symmetry; apply Z.ltb_ge; lia).
    replace (p + 16 >=? memory_area st + N - 1) with false
      by (symmetry; rewrite Z.geb_leb; apply Z.leb_gt; lia).
    reflexivity.
Qed.

Lemma mem_get_size_valid (st : state) (N p old : Z) :
  arena_ok st N -> memory_area st <= p -> 2 <= old ->
  p + 16 + old <= memory_area st + N ->
  load64 (bytes st) p = old -> guards_ok st p ->
  mem_get_size st (p + 16) = Done (wrap (old - 8)).
Proof.
  intros Hok Hp Hold Hend Hsize (Hg1 & Hg2).
  destruct (in_area_of_block st N p old Hok Hp Hold Hend) as [E1 E2].
  destruct Hok as [Hhead_lo Hhead_hi Htop Hmin Hmax Hsecret].
  unfold mem_get_size, out_of_area. rewrite E1. cbn [orb]. rewrite E2. consts.
  replace (p + 16 - 16) with p by lia. rewrite (wrap_small p) by lia.
  rewrite Hg1, Z.eqb_refl. cbn [negb]. rewrite Hg2, Z.eqb_refl. cbn [negb].
  rewrite Hsize. reflexivity.
Qed.

Lemma free_list_is_frame (st : state) (N : Z) (L : list blk) (m2 : mem) :
  free_list_is st N L ->
  (forall y, free_block_list_addr st <= y < free_block_list_addr st + 8 -> m2 y = bytes st y) ->
  (forall a sa y, In (a, sa) L -> a <= y < a + 16 -> m2 y = bytes st y) ->
  free_list_is (with_bytes st m2) N L.
Proof.
  intros (Hok & Hseg & Hsp) Hhead Hblocks.
  split; [apply arena_ok_with_bytes; exact Hok|]. split; [|exact Hsp].
  unfold free_block_list. cbn [bytes with_bytes free_block_list_addr].
  replace (load64 m2 (free_block_list_addr st)) with (free_block_list st)
    by (unfold free_block_list; symmetry; apply load64_ext; intros i Hi; apply Hhead; lia).
  apply (fseg_frame (bytes st)); [|exact Hseg].
  intros a sa Hin.
  split; apply load64_ext; intros i Hi; apply (Hblocks a sa); try exact Hin; lia.
Qed.

Lemma same_statics_refl (st : state) : same_statics st st.
Proof. destruct st. reflexivity. Qed.

(** Relocation, in full: what [mem_realloc] does when it must grow a block
    whose right neighbour is not free, or is free but too small. *)
Lemma relocate_spec
        (fuel : nat) (st : state) (N : Z) (L : list blk) (p old s : Z) :
  free_list_is st N L -> (length L < fuel)%nat ->
  allocated_at st N L p old -> guards_ok st p -> 8 <= old ->
  0 <= s -> s + 8 < 2 ^ 64 -> old < s + 8 ->
  (forall sR, In (p + old + 16, sR) L -> sR + 16 < s + 8 - old) ->
  (mem_alloc fuel st s = Done (NULL, st)
   /\ mem_realloc fuel st (p + 16) s = Done (NULL, st)
   /\ mem_get_size st (p + 16) = Done (old - 8))
  \/ (exists r st1 st3 L3,
        mem_alloc fuel st s = Done (r, st1) /\ r <> NULL
        /\ mem_free fuel (with_bytes st1 (memcpy (bytes st1) r (p + 16) (old - 8))) (p + 16)
           = Done st3
        /\ mem_realloc fuel st (p + 16) s = Done (r, st3)
        /\ (forall i, 0 <= i < Z.min (old - 8) s ->
                      bytes st3 (r + i) = bytes st (p + 16 + i))
        /\ free_list_is st3 N L3
        /\ (exists a sa, In (a, sa) L3 /\ a <= p /\ p + 16 + old <= a + 16 + sa)
        /\ r <> p + 16
        /\ (exists u,
              mem_get_size st3 r = Done u /\ s <= u <= s + 24
              /\ exists L1 b sz L2,
                  L = L1 ++ (b, sz) :: L2 /\ s + 8 <= sz /\ r = b + 16
                  /\ u = if sz - (s + 8) <=? 24 then sz - 8 else s)
        /\ writes_within st st3 L p old).
Proof.
  intros Hinv Hfuel (Hp_lo & Hp_size & Hp_hi & Hdis) Hguards Hold Hs0 Hs Hgrow Hright.
  pose proof Hinv as (Hok & Hseg & Hsp).
  pose proof Hok as [Hhead_lo Hhead_hi Htop Hmin Hmax Hsecret].
  set (B := memory_area st) in *. set (head := free_block_list_addr st) in *.
  consts.
  destruct (in_area_of_block st N p old Hok Hp_lo ltac:(lia) Hp_hi) as [E1 E2].
  pose proof Hguards as (Hg1 & Hg2). consts.
  (* the prefix of [mem_realloc] up to the allocation *)
  assert (mem_realloc fuel st (p + 16) s =
          r <- mem_alloc fuel st s ;;
          let '(result, st1) := r in
          if result =? NULL then Done (NULL, st1)
          else
            let n := wrap (load64 (bytes st1) p - 8) in
            let st2 := with_bytes st1 (memcpy (bytes st1) result (p + 16) n) in
            st3 <- mem_free fuel st2 (p + 16) ;; Done (result, st3)) as Hprefix.
  { unfold mem_realloc. consts_goal. rewrite E1, E2.
    replace (s =? 0) with false by (symmetry; apply Z.eqb_neq; lia).
    cbv zeta. rewrite (wrap_small (s + 8)) by lia.
    replace (p + 16 - 16) with p by lia. rewrite (wrap_small p) by lia.
    rewrite Hg1, Z.eqb_refl. cbn [negb]. rewrite Hg2, Z.eqb_refl. cbn [negb].
    rewrite Hp_size.
    replace (s + 8 =? old) with false by (symmetry; apply Z.eqb_neq; lia).
    rewrite (wrap_small (p + old + 16)) by lia.
    destruct (search_block_around fuel st N L (p + old + 16) Hinv Hfuel)
      as (L1 & L2 & EL & A1 & A2 & Hsearch & Hslot).
    rewrite Hsearch. cbn [bind].
    replace (s + 8 <? old) with false by (symmetry; apply Z.ltb_ge; lia).
    rewrite Hslot.
    assert (negb (p + old + 16 =? hd_ptr L2)
            || (wrap (load64 (bytes st) (p + old + 16) + 16) <? wrap (s + 8 - old)) = true)
      as ->.
    { destruct (p + old + 16 =? hd_ptr L2) eqn:E; [|reflexivity]. cbn [negb orb].
      apply Z.eqb_eq in E.
      destruct L2 as [|[c sc] L2']; lsimpl; [lia|]. clear Hslot Hsearch. subst c.
      assert (In (p + old + 16, sc) L) as Hin
        by (rewrite EL; apply in_or_app; right; left; reflexivity).
      destruct (fseg_In_size _ _ _ _ _ _ Hseg Hin) as [Hsc _].
      pose proof (spaced_In _ _ _ _ _ Hsp Hin).
      specialize (Hright sc Hin).
      rewrite Hsc, (wrap_small (sc + 16)), (wrap_small (s + 8 - old)) by lia.
      apply Z.ltb_lt. lia. }
    replace (s + 8 - 8) with s by lia. rewrite (wrap_small s) by lia.
    reflexivity. }
  rewrite Hprefix.
  destruct (mem_alloc_spec fuel st N L s Hinv Hfuel)
    as [[_ Hnull] | (La & b & sz & Lb & m' & EL & Hfits & Hrun & Hpost)].
  - left. rewrite Hnull. cbn [bind]. split; [reflexivity|]. split; [reflexivity|].
    rewrite (mem_get_size_valid st N p old Hok Hp_lo ltac:(lia) Hp_hi Hp_size Hguards).
    rewrite (wrap_small (old - 8)) by lia. reflexivity.
  - right. consts. rewrite (wrap_small (s + 8)) in * by lia.
    set (e := s + 8) in *.
    destruct Hpost as [Plist Psize Pguards Pframe]. fold head in Pframe.
    subst L.
    pose proof (spaced_order _ _ _ _ _ _ Hsp) as (O1 & O2 & O3 & O4 & O5).
    assert (8 <= alloc_take sz e /\ e <= alloc_take sz e <= sz) as [Ht1 Ht2].
    { unfold alloc_take. destruct (sz - e <=? 24); lia. }
    assert (b + 16 + sz <= p \/ p + 16 + old <= b) as F1
      by (apply (Hdis b sz); apply in_or_app; right; left; reflexivity).
    assert (forall a sa, In (a, sa) La \/ In (a, sa) Lb ->
                         B <= a /\ 0 <= sa /\ a + 16 + sa <= B + N
                         /\ (a + 16 + sa <= p \/ p + 16 + old <= a)
                         /\ (a + 16 + sa < b \/ b + 16 + sz < a)) as Hother.
    { intros a sa Hin.
      assert (In (a, sa) (La ++ (b, sz) :: Lb)) as Hin'
        by (apply in_or_app; destruct Hin; [left|right; right]; assumption).
      pose proof (spaced_In _ _ _ _ _ Hsp Hin').
      pose proof (Hdis a sa Hin').
      destruct Hin as [Hin | Hin]; [specialize (O1 a sa Hin)|specialize (O2 a sa Hin)]; lia. }
    assert (forall y, p <= y < p + 16 + old -> m' y = bytes st y) as F2.
    { intros y Hy. apply Pframe; try lia.
      intros a sa Hin. destruct (Hother a sa (or_introl Hin)) as (? & ? & ? & ? & ?). lia. }
    (* every block of the list after the allocation, and the copy region *)
    assert (forall a sa, In (a, sa) (alloc_list La b sz e Lb) ->
                         (a + 16 + sa <= p \/ p + 16 + old <= a)
                         /\ (a + 16 <= b + 16 \/ b + 16 + e <= a)) as Hnew.
    { unfold alloc_list. intros a sa Hin.
      destruct (sz - e <=? 24) eqn:Eb.
      - apply in_app_or in Hin.
        destruct (Hother a sa Hin) as (? & ? & ? & ? & ?). lia.
      - apply Z.leb_gt in Eb.
        apply in_app_or in Hin. destruct Hin as [Hin | [E | Hin]].
        + destruct (Hother a sa (or_introl Hin)) as (? & ? & ? & ? & ?). lia.
        + inversion E; subst a sa. lia.
        + destruct (Hother a sa (or_intror Hin)) as (? & ? & ? & ? & ?). lia. }
    set (st1 := with_bytes st m') in *.
    set (m2 := memcpy m' (b + 16) (p + 16) (old - 8)).
    assert (forall y, y < b + 16 \/ b + 16 + (old - 8) <= y -> m2 y = m' y) as Hcopy_out
      by (intros y Hy; apply memcpy_out; exact Hy).
    assert (free_list_is (with_bytes st1 m2) N (alloc_list La b sz e Lb)) as Hinv2.
    { apply (free_list_is_frame st1 N _ m2 Plist).
      - intros y Hy. apply Hcopy_out. cbn [free_block_list_addr st1 with_bytes] in Hy.
        fold head in Hy. lia.
      - intros a sa y Hin Hy. apply Hcopy_out.
        destruct (Hnew a sa Hin) as [_ ?]. lia. }
    destruct Hinv2 as (Hok2 & Hseg2 & Hsp2).
    destruct (split_around p old _ _ _ Hsp2 ltac:(lia) (fun a sa Hin => proj1 (Hnew a sa Hin)))
      as (L1p & L2p & ELp & Ap1 & Ap2).
    assert (free_list_is (with_bytes st1 m2) N (L1p ++ L2p)) as Hinv2'
      by (rewrite <- ELp; split; [exact Hok2|split; assumption]).
    assert (load64 m2 p = old) as Hsize2.
    { rewrite <- Hp_size. apply load64_ext. intros i Hi.
      rewrite Hcopy_out by lia. apply F2. lia. }
    destruct (mem_free_spec fuel (with_bytes st1 m2) N L1p L2p p old) as (m3 & Hfree & Hlist3 & K).
    + exact Hinv2'.
    + rewrite <- ELp. pose proof (alloc_list_length La Lb b sz e). lia.
    + exact Hp_lo.
    + exact Hsize2.
    + exact Hp_hi.
    + exact Ap1.
    + exact Ap2.
    + unfold guards_ok, guard_of. cbn [bytes with_bytes secret_number st1].
      fold (guard_of st p). consts_goal. rewrite Hsize2.
      rewrite Hp_size in Hg2. rewrite (wrap_small (p + 16 + old - 8)) in * by lia.
      split.
      * rewrite <- Hg1. apply load64_ext. intros i Hi.
        rewrite Hcopy_out by lia. apply F2. lia.
      * rewrite <- Hg2. apply load64_ext. intros i Hi.
        rewrite Hcopy_out by lia. apply F2. lia.
    + cbn [MEM_SPACE_MAX with_bytes st1]. rewrite Hmax. lia.
    + exists (b + 16), st1, (with_bytes (with_bytes st1 m2) m3), (coalesce L1p (p, old) L2p).
      assert (load64 (bytes st1) p = old) as Hsize1.
      { cbn [bytes st1 with_bytes]. rewrite <- Hp_size. apply load64_ext. intros i Hi.
        apply F2. lia. }
      rewrite Hrun. cbn [bind]. fold st1.
      replace (b + 16 =? 0) with false by (symmetry; apply Z.eqb_neq; lia).
      rewrite Hsize1. rewrite (wrap_small (old - 8)) by lia. cbv zeta.
      cbn [bytes st1 with_bytes] in *. fold m2.
      change (with_bytes (with_bytes st m') m2) with (with_bytes st1 m2).
      rewrite Hfree. cbn [bind].
      split; [reflexivity|]. split; [lia|]. split; [reflexivity|]. split; [reflexivity|].
      assert (forall y, b <= y < b + 16 \/ b + 8 + alloc_take sz e <= y < b + 16 + alloc_take sz e ->
                        m3 y = m' y) as Hkeep.
      { intros y Hy. rewrite K.
        - apply Hcopy_out. lia.
        - lia.
        - cbn [free_block_list_addr with_bytes st1]. fold head. lia.
        - intros a sa Hin.
          assert (In (a, sa) (alloc_list La b sz e Lb)) as Hin'
            by (rewrite ELp; apply in_or_app; left; exact Hin).
          revert Hin'. unfold alloc_list, alloc_take in *.
          destruct (sz - e <=? 24) eqn:Eb; intro Hin'.
          + apply in_app_or in Hin'.
            destruct (Hother a sa Hin') as (? & ? & ? & ? & ?). lia.
          + apply Z.leb_gt in Eb.
            apply in_app_or in Hin'. destruct Hin' as [Hin' | [E | Hin']].
            * destruct (Hother a sa (or_introl Hin')) as (? & ? & ? & ? & ?). lia.
            * inversion E; subst a sa. lia.
            * destruct (Hother a sa (or_intror Hin')) as (? & ? & ? & ? & ?). lia. }
      split; [|split; [exact Hlist3|split; [|split; [lia|split]]]].
      3: { exists (alloc_take sz e - 8).
           split; [|split; [unfold alloc_take in *; destruct (sz - e <=? 24) eqn:Eb;
                            [apply Z.leb_le in Eb|]; subst e; lia|
                            exists La, b, sz, Lb;
                            split; [reflexivity|]; split; [exact Hfits|];
                            split; [reflexivity|];
                            unfold alloc_take; fold e; destruct (sz - e <=? 24);
                            subst e; lia]].
           rewrite <- (wrap_small (alloc_take sz e - 8)) by lia.
           destruct Hlist3 as (Hok3 & _ & _).
           specialize (Pguards Ht1). destruct Pguards as (G1 & G2).
           unfold st1 in G1, G2. cbn [bytes with_bytes] in G1, G2. consts. rewrite Psize in G2.
           change (guard_of (with_bytes st m') b) with (guard_of st b) in G1, G2.
           rewrite (wrap_small (b + 16 + alloc_take sz e - 8)) in G2 by lia.
           assert (load64 m3 b = alloc_take sz e) as Hb3.
           { rewrite <- Psize. apply load64_ext. intros i Hi. apply Hkeep. lia. }
           apply (mem_get_size_valid _ N b (alloc_take sz e) Hok3).
           - exact O3.
           - lia.
           - cbn [memory_area with_bytes]. unfold st1. cbn [memory_area with_bytes].
             fold B. lia.
           - exact Hb3.
           - unfold guards_ok. cbn [bytes with_bytes]. consts_goal. rewrite Hb3.
             rewrite (wrap_small (b + 16 + alloc_take sz e - 8)) by lia.
             change (guard_of (with_bytes (with_bytes st1 m2) m3) b) with (guard_of st b).
             split.
             + rewrite <- G1. apply load64_ext. intros i Hi. apply Hkeep. lia.
             + rewrite <- G2. apply load64_ext. intros i Hi. apply Hkeep. lia. }
      * intros i Hi. cbn [bytes with_bytes].
        rewrite K.
        -- unfold m2. rewrite memcpy_in by lia. apply F2. lia.
        -- lia.
        -- cbn [free_block_list_addr with_bytes st1]. fold head. lia.
        -- intros a sa Hin.
           assert (In (a, sa) (alloc_list La b sz e Lb)) as Hin'
             by (rewrite ELp; apply in_or_app; left; exact Hin).
           destruct (Hnew a sa Hin') as [_ ?]. lia.
      * rewrite ELp in Hsp2. apply spaced_app in Hsp2. destruct Hsp2 as (Sa & Sb).
        pose proof (past_ge L1p _ _ Sa).
        cbn [memory_area with_bytes st1] in *. fold B in Sa, Sb, H.
        destruct (coalesce_covers L1p L2p p old B (B + N) Sa) as (a & sa & Hin & Ha & Hb).
        -- apply (spaced_weaken L2p (past B L1p) B (B + N) (B + N)); try lia. exact Sb.
        -- lia.
        -- exists a, sa. split; [exact Hin|]. lia.
      * split; [reflexivity|].
        intros y Hy1 Hy2 Hy3. consts. cbn [bytes with_bytes].
        assert (y < b \/ b + 16 + sz <= y) as Hyb
          by (apply (Hy3 b sz); apply in_or_app; right; left; reflexivity).
        assert (forall a sa, In (a, sa) La \/ In (a, sa) Lb -> y < a \/ a + 16 + sa <= y)
          as Hyo.
        { intros a sa Hin. apply (Hy3 a sa).
          apply in_or_app; destruct Hin; [left|right; right]; assumption. }
        rewrite K.
        -- rewrite Hcopy_out by lia. apply Pframe; try lia.
           intros a sa Hin. destruct (Hother a sa (or_introl Hin)) as (? & ? & _).
           specialize (Hyo a sa (or_introl Hin)). lia.
        -- lia.
        -- cbn [free_block_list_addr with_bytes st1]. fold head. lia.
        -- intros a sa Hin.
           assert (In (a, sa) (alloc_list La b sz e Lb)) as Hin'
             by (rewrite ELp; apply in_or_app; left; exact Hin).
           revert Hin'. unfold alloc_list.
           destruct (sz - e <=? 24) eqn:Eb; intro Hin'.
           ++ apply in_app_or in Hin'.
              destruct (Hother a sa Hin') as (? & ? & _). specialize (Hyo a sa Hin'). lia.
           ++ apply Z.leb_gt in Eb.
              apply in_app_or in Hin'. destruct Hin' as [Hin' | [E | Hin']].
              ** destruct (Hother a sa (or_introl Hin')) as (? & ? & _).
                 specialize (Hyo a sa (or_introl Hin')). lia.
              ** inversion E; subst a sa. lia.
              ** destruct (Hother a sa (or_intror Hin')) as (? & ? & _).
                 specialize (Hyo a sa (or_intror Hin')). lia.
Qed.


(** ** Resize in place: the free list afterwards *)

Lemma resize_ctx_parts (st : state) (N : Z) (L1 L2 : list blk) (p old : Z) :
  resize_ctx st N L1 L2 p old ->
  arena_ok st N
  /\ fseg (bytes st) (free_block_list st) L1 (hd_ptr L2)
  /\ fseg (bytes st) (hd_ptr L2) L2 NULL
  /\ spaced (memory_area st) L1 p
  /\ spaced (p + old + 16) L2 (memory_area st + N)
  /\ slot_after (free_block_list_addr st) L1 + 8 <= p
  /\ 8 <= slot_after (free_block_list_addr st) L1.
Proof.
  intros [(Hok & Hseg & Hsp) Hlo Hsize Hhi Hbefore Hafter].
  pose proof Hok as [Hhead_lo Hhead_hi Htop Hmin Hmax Hsecret].
  apply fseg_app in Hseg. destruct Hseg as (q & Hseg1 & Hseg2).
  pose proof (fseg_hd _ _ _ Hseg2) as ->.
  apply spaced_app in Hsp. destruct Hsp as (Sp1 & Sp2).
  assert (spaced (memory_area st) L1 p) as Sp1'
    by (apply (spaced_below p L1 _ _ Sp1); exact Hbefore).
  split; [exact Hok|]. split; [exact Hseg1|]. split; [exact Hseg2|]. split; [exact Sp1'|].
  split.
  - clear - Sp2 Hafter. revert Sp2 Hafter. generalize (past (memory_area st) L1) as lo.
    induction L2 as [|[c sc] L2 IH]; intros lo Sp2 Hafter; lsimpl; [exact I|].
    destruct Sp2 as (H1 & H2 & H3 & H4).
    pose proof (Hafter c sc (or_introl eq_refl)).
    repeat split; try lia.
    exact H4.
  - destruct (slot_after_below L1 p (free_block_list_addr st) (memory_area st) p Sp1'
                Hhead_hi Hlo Hbefore). lia.
Qed.

(** Case 3.2.2: the right neighbour is allocated and a free block of
    payload [nsz] is carved out of the tail. *)
Lemma shrink_carves_free_block
      (st : state) (N : Z) (L1 L2 : list blk) (p old e nsz g : Z) :
  resize_ctx st N L1 L2 p old ->
  (forall c sc, In (c, sc) L2 -> p + old + 16 < c) ->
  0 <= e -> 0 <= nsz -> e + 16 + nsz = old ->
  0 <= g < 2 ^ 64 ->
  let x := p + e + 16 in
  let slot := slot_after (free_block_list_addr st) L1 in
  let m2 := store64 (store64 (bytes st) x nsz) (x + 8) 0 in
  let m3 := insert_block m2 (memory_area st) x slot in
  let m5 := store64 (store64 m3 p e) (p + 8 + e) g in
  free_list_is (with_bytes st m5) N (L1 ++ (x, nsz) :: L2).
Proof.
  intros Hctx Hstrict He Hnsz Hsum Hg x slot m2 m3 m5.
  destruct (resize_ctx_parts _ _ _ _ _ _ Hctx) as (Hok & Hseg1 & Hseg2 & Sp1 & Sp2 & Hs1 & Hs2).
  destruct Hctx as [_ Hlo Hsize Hhi Hbefore Hafter].
  pose proof Hok as [Hhead_lo Hhead_hi Htop Hmin Hmax Hsecret].
  set (B := memory_area st) in *. set (head := free_block_list_addr st) in *.
  assert (forall y, y < x \/ x + 16 <= y -> m2 y = bytes st y) as Hm2
    by (intros y Hy; subst m2; rewrite !store64_out by lia; reflexivity).
  assert (link_ctx m2 head B (B + N) L1 L2 x nsz) as Hlink.
  { constructor; try assumption; try (subst x; lia).
    - replace (load64 m2 head) with (load64 (bytes st) head)
        by (symmetry; apply load64_ext; intros i Hi; apply Hm2; subst x; lia).
      apply (fseg_frame_range (bytes st) _ _ B p); [exact Hseg1|exact Sp1|].
      intros y Hy. apply Hm2. subst x. lia.
    - apply (fseg_frame_range (bytes st) _ _ (p + old + 16) (B + N)); [exact Hseg2|exact Sp2|].
      intros y Hy. apply Hm2. subst x. lia.
    - apply (spaced_weaken L1 B B p (B + N)); try lia. exact Sp1.
    - apply (spaced_weaken L2 (p + old + 16) B (B + N) (B + N)); try lia. exact Sp2.
    - subst m2. rewrite load64_store64_other by lia. apply load64_store64_same. lia.
    - intros a sa Hin. specialize (Hbefore a sa Hin). subst x. lia.
    - intros c sc Hin. specialize (Hafter c sc Hin). subst x. lia. }
  destruct (link_spec m2 head B (B + N) L1 L2 x nsz Hlink) as (K1 & K2 & K3).
  fold slot in K1, K3. fold m3 in K1, K3.
  rewrite coalesce_apart in K1, K2.
  2,4: intros a sa Hin; specialize (Hbefore a sa Hin); subst x; lia.
  2,3: intros c sc Hin; specialize (Hstrict c sc Hin); subst x; lia.
  split; [apply arena_ok_with_bytes; exact Hok|]. split; [|exact K2].
  unfold free_block_list. cbn [bytes with_bytes free_block_list_addr]. fold head.
  subst m5. rewrite !load64_store64_other by lia.
  apply (fseg_frame m3); [|exact K1].
  intros a sa Hin. apply in_app_or in Hin.
  assert (a + 16 <= p \/ x <= a) as Hout.
  { destruct Hin as [Hin | [E | Hin]].
    - specialize (Hbefore a sa Hin). pose proof (spaced_In _ _ _ _ _ Sp1 Hin). lia.
    - inversion E; subst a sa. lia.
    - specialize (Hafter a sa Hin). subst x. lia. }
  split; rewrite !load64_store64_other by (subst x; lia); reflexivity.
Qed.

(** Case 3.1 when at least 8 bytes are given back: the free right
    neighbour is replaced by a larger free block that starts at the new
    end of [p]. *)
Lemma shrink_extends_neighbour
      (st : state) (N : Z) (L1 L2' : list blk) (p old e sR nsz g : Z) :
  resize_ctx st N L1 ((p + old + 16, sR) :: L2') p old ->
  0 <= e -> e + 8 <= old -> nsz = sR + (old - e) ->
  0 <= g < 2 ^ 64 ->
  let x := p + e + 16 in
  let slot := slot_after (free_block_list_addr st) L1 in
  let m2 := store64 (store64 (bytes st) x nsz) (x + 8) 0 in
  let m3 := remove_block m2 (p + old + 16) slot in
  let m4 := insert_block m3 (memory_area st) x slot in
  let m6 := store64 (store64 m4 p e) (p + 8 + e) g in
  free_list_is (with_bytes st m6) N (L1 ++ (x, nsz) :: L2').
Proof.
  intros Hctx He Hd Hnsz Hg x slot m2 m3 m4 m6.
  destruct (resize_ctx_parts _ _ _ _ _ _ Hctx) as (Hok & Hseg1 & Hseg2 & Sp1 & Sp2 & Hs1 & Hs2).
  destruct Hctx as [_ Hlo Hsize Hhi Hbefore Hafter].
  pose proof Hok as [Hhead_lo Hhead_hi Htop Hmin Hmax Hsecret].
  set (B := memory_area st) in *. set (head := free_block_list_addr st) in *.
  set (R := p + old + 16) in *.
  lsimpl. destruct Hseg2 as (_ & HRnz & HsR & Hseg2).
  destruct Sp2 as (_ & HsR0 & HRhi & Sp2).
  pose proof (fseg_hd _ _ _ Hseg2) as Hnext.
  unfold free_block_list in Hseg1. fold head in Hseg1.
  assert (forall y, y < x \/ x + 16 <= y -> m2 y = bytes st y) as Hm2
    by (intros y Hy; subst m2; rewrite !store64_out by lia; reflexivity).
  assert (forall a sa, In (a, sa) L1 -> 0 <= sa /\ a + 16 + sa <= p) as Hb1.
  { intros a sa Hin. pose proof (spaced_In _ _ _ _ _ Sp1 Hin). lia. }
  assert (forall c sc, In (c, sc) L2' -> R + 16 + sR < c) as Hb2.
  { intros c sc Hin. pose proof (spaced_In _ _ _ _ _ Sp2 Hin). lia. }
  destruct (unlink_core m2 head B (B + N) L1 L2' R) as (U1 & U2 & U3); try assumption.
  { subst R. lia. }
  { replace (load64 m2 head) with (load64 (bytes st) head)
      by (symmetry; apply load64_ext; intros i Hi; apply Hm2; subst x; lia).
    apply (fseg_frame_range (bytes st) _ _ B p); [exact Hseg1|exact Sp1|].
    intros y Hy. apply Hm2. subst x. lia. }
  { rewrite <- Hnext. apply load64_ext. intros i Hi. apply Hm2. subst x R. lia. }
  { rewrite <- Hnext.
    apply (fseg_frame_range (bytes st) _ _ (R + 16 + sR + 1) (B + N)); [exact Hseg2|exact Sp2|].
    intros y Hy. apply Hm2. subst x R. lia. }
  { apply (spaced_weaken L1 B B p R); try (subst R; lia). exact Sp1. }
  { apply (spaced_weaken L2' (R + 16 + sR + 1) (R + 16) (B + N) (B + N)); try lia. exact Sp2. }
  fold slot in U1, U2, U3. fold m3 in U1, U2, U3.
  assert (link_ctx m3 head B (B + N) L1 L2' x nsz) as Hlink.
  { constructor; try assumption; try (subst x R; lia).
    - apply (spaced_weaken L1 B B p (B + N)); try lia. exact Sp1.
    - apply (spaced_weaken L2' (R + 16 + sR + 1) B (B + N) (B + N)); try (subst R; lia). exact Sp2.
    - replace (load64 m3 x) with (load64 m2 x).
      + subst m2. rewrite load64_store64_other by lia. apply load64_store64_same. subst x R. lia.
      + symmetry. apply load64_ext. intros i Hi. apply U3; try (subst x R; lia).
        intros a sa Hin. specialize (Hb1 a sa Hin). subst x. lia.
    - intros a sa Hin. specialize (Hb1 a sa Hin). subst x. lia.
    - intros c sc Hin. specialize (Hb2 c sc Hin). subst x R. lia. }
  destruct (link_spec m3 head B (B + N) L1 L2' x nsz Hlink) as (K1 & K2 & K3).
  fold slot in K1, K3. fold m4 in K1, K3.
  rewrite coalesce_apart in K1, K2.
  2,4: intros a sa Hin; specialize (Hb1 a sa Hin); subst x; lia.
  2,3: intros c sc Hin; specialize (Hb2 c sc Hin); subst x R; lia.
  split; [apply arena_ok_with_bytes; exact Hok|]. split; [|exact K2].
  unfold free_block_list. cbn [bytes with_bytes free_block_list_addr]. fold head.
  subst m6. rewrite !load64_store64_other by lia.
  apply (fseg_frame m4); [|exact K1].
  intros a sa Hin. apply in_app_or in Hin.
  assert (a + 16 <= p \/ x <= a) as Hout.
  { destruct Hin as [Hin | [E | Hin]].
    - specialize (Hb1 a sa Hin). lia.
    - inversion E; subst a sa. lia.
    - specialize (Hb2 a sa Hin). subst x R. lia. }
  split; rewrite !load64_store64_other by (subst x; lia); reflexivity.
Qed.

(** Case 4.2.1: the free right neighbour is absorbed whole. *)
Lemma grow_absorbs_neighbour
      (st : state) (N : Z) (L1 L2' : list blk) (p old sR grown t g : Z) :
  resize_ctx st N L1 ((p + old + 16, sR) :: L2') p old ->
  t = p + 8 + old + 16 + sR ->
  0 <= g < 2 ^ 64 ->
  let slot := slot_after (free_block_list_addr st) L1 in
  let m1 := remove_block (bytes st) (p + old + 16) slot in
  let m3 := store64 (store64 m1 p grown) t g in
  free_list_is (with_bytes st m3) N (L1 ++ L2').
Proof.
  intros Hctx Ht Hg slot m1 m3.
  destruct (resize_ctx_parts _ _ _ _ _ _ Hctx) as (Hok & _ & _ & Sp1 & Sp2 & Hs1 & Hs2).
  destruct Hctx as [(_ & Hseg & Hsp) Hlo Hsize Hhi Hbefore Hafter].
  pose proof Hok as [Hhead_lo Hhead_hi Htop Hmin Hmax Hsecret].
  set (B := memory_area st) in *. set (head := free_block_list_addr st) in *.
  set (R := p + old + 16) in *.
  lsimpl. destruct Sp2 as (_ & HsR0 & HRhi & Sp2).
  unfold free_block_list in Hseg. fold head in Hseg.
  destruct (unlink_spec (bytes st) head B (B + N) L1 L2' R sR Hhead_lo Hhead_hi Htop Hseg Hsp)
    as (U1 & U2 & _ & U3).
  fold slot in U1, U2, U3. fold m1 in U1, U2, U3.
  assert (forall a sa, In (a, sa) L1 -> 0 <= sa /\ a + 16 + sa <= p) as Hb1.
  { intros a sa Hin. pose proof (spaced_In _ _ _ _ _ Sp1 Hin). lia. }
  assert (forall c sc, In (c, sc) L2' -> R + 16 + sR < c) as Hb2.
  { intros c sc Hin. pose proof (spaced_In _ _ _ _ _ Sp2 Hin). lia. }
  split; [apply arena_ok_with_bytes; exact Hok|]. split.
  - unfold free_block_list. cbn [bytes with_bytes free_block_list_addr]. fold head.
    subst m3. rewrite !load64_store64_other by (subst R; lia).
    apply (fseg_frame m1).
    + intros a sa Hin. apply in_app_or in Hin.
      assert (a + 16 <= p \/ t + 8 <= a) as Hout.
      { destruct Hin as [Hin | Hin].
        - specialize (Hb1 a sa Hin). lia.
        - specialize (Hb2 a sa Hin). subst R. lia. }
      split; rewrite !load64_store64_other by (subst R; lia); reflexivity.
    + apply fseg_app. exists (hd_ptr L2'). split; assumption.
  - cbn [memory_area with_bytes]. fold B.
    apply spaced_split in Hsp. destruct Hsp as (S1 & S2 & S3 & S4 & S5).
    apply (spaced_join L1 L2' B R (B + N)); try assumption; try lia.
    apply (spaced_weaken L2' (R + 16 + sR + 1) R (B + N) (B + N)); try lia. exact S5.
Qed.

(** Case 4.2.2: the block grows into its free right neighbour, whose
    remainder stays free. *)
Lemma grow_splits_neighbour
      (st : state) (N : Z) (L1 L2' : list blk) (p old e sR nsz t g : Z) :
  resize_ctx st N L1 ((p + old + 16, sR) :: L2') p old ->
  old <= e -> 0 <= nsz -> nsz = sR - e + old -> t = p + 8 + e ->
  0 <= g < 2 ^ 64 ->
  let x := p + e + 16 in
  let slot := slot_after (free_block_list_addr st) L1 in
  let m1 := remove_block (bytes st) (p + old + 16) slot in
  let m5 := store64 (store64 (store64 (store64 m1 x nsz) (x + 8) 0) p e) t g in
  free_list_is (with_bytes st (insert_block m5 (memory_area st) x slot)) N
               (L1 ++ (x, nsz) :: L2').
Proof.
  intros Hctx He Hnsz0 Hnsz Ht Hg x slot m1 m5.
  destruct (resize_ctx_parts _ _ _ _ _ _ Hctx) as (Hok & _ & _ & Sp1 & Sp2 & Hs1 & Hs2).
  destruct Hctx as [(_ & Hseg & Hsp) Hlo Hsize Hhi Hbefore Hafter].
  pose proof Hok as [Hhead_lo Hhead_hi Htop Hmin Hmax Hsecret].
  set (B := memory_area st) in *. set (head := free_block_list_addr st) in *.
  set (R := p + old + 16) in *.
  lsimpl. destruct Sp2 as (_ & HsR0 & HRhi & Sp2).
  unfold free_block_list in Hseg. fold head in Hseg.
  destruct (unlink_spec (bytes st) head B (B + N) L1 L2' R sR Hhead_lo Hhead_hi Htop Hseg Hsp)
    as (U1 & U2 & _ & U3).
  fold slot in U1, U2, U3. fold m1 in U1, U2, U3.
  assert (forall a sa, In (a, sa) L1 -> 0 <= sa /\ a + 16 + sa <= p) as Hb1.
  { intros a sa Hin. pose proof (spaced_In _ _ _ _ _ Sp1 Hin). lia. }
  assert (forall c sc, In (c, sc) L2' -> R + 16 + sR < c) as Hb2.
  { intros c sc Hin. pose proof (spaced_In _ _ _ _ _ Sp2 Hin). lia. }
  assert (forall y, y < p \/ x + 16 <= y -> m5 y = m1 y) as Hm5
    by (intros y Hy; subst m5; rewrite !store64_out by (subst x; lia); reflexivity).
  assert (link_ctx m5 head B (B + N) L1 L2' x nsz) as Hlink.
  { constructor; try assumption; try (subst x R; lia).
    - replace (load64 m5 head) with (load64 m1 head)
        by (symmetry; apply load64_ext; intros i Hi; apply Hm5; lia).
      apply (fseg_frame_range m1 _ _ B p); [exact U1|exact Sp1|].
      intros y Hy. apply Hm5. lia.
    - apply (fseg_frame_range m1 _ _ (R + 16 + sR + 1) (B + N)); [exact U2|exact Sp2|].
      intros y Hy. apply Hm5. subst x R. lia.
    - apply (spaced_weaken L1 B B p (B + N)); try lia. exact Sp1.
    - apply (spaced_weaken L2' (R + 16 + sR + 1) B (B + N) (B + N)); try (subst R; lia). exact Sp2.
    - subst m5. rewrite !load64_store64_other by (subst x; lia).
      apply load64_store64_same. subst x R. lia.
    - intros a sa Hin. specialize (Hb1 a sa Hin). subst x. lia.
    - intros c sc Hin. specialize (Hb2 c sc Hin). subst x R. lia. }
  destruct (link_spec m5 head B (B + N) L1 L2' x nsz Hlink) as (K1 & K2 & K3).
  fold slot in K1, K3.
  rewrite coalesce_apart in K1, K2.
  2,4: intros a sa Hin; specialize (Hb1 a sa Hin); subst x; lia.
  2,3: intros c sc Hin; specialize (Hb2 c sc Hin); subst x R; lia.
  split; [apply arena_ok_with_bytes; exact Hok|]. split; [|exact K2].
  unfold free_block_list. cbn [bytes with_bytes free_block_list_addr]. fold head. exact K1.
Qed.

(** ** Counting bytes *)

Lemma block_total_app (L1 L2 : list blk) :
  block_total (L1 ++ L2) = block_total L1 + block_total L2.
Proof.
  induction L1 as [|[a sa] L1 IH]; cbn [app block_total fold_right snd].
  - fold (block_total L2). lia.
  - fold (block_total (L1 ++ L2)). fold (block_total L1). rewrite IH. lia.
Qed.

Lemma block_total_cons (a sa : Z) (L : list blk) :
  block_total ((a, sa) :: L) = 16 + sa + block_total L.
Proof. reflexivity. Qed.

(** Merging moves bytes between blocks and headers, and loses none. *)
Lemma block_total_coalesce (L1 L2 : list blk) (x sx : Z) :
  block_total (coalesce L1 (x, sx) L2) = block_total L1 + (16 + sx) + block_total L2.
Proof.
  unfold coalesce.
  assert (exists sR R', fuse_right (x, sx) L2 = (x, sR) :: R'
                        /\ 16 + sR + block_total R' = 16 + sx + block_total L2)
    as (sR & R' & -> & HR).
  { destruct L2 as [|[c sc] L2']; lsimpl.
    - exists sx, []. split; reflexivity.
    - destruct (x + sx + 16 =? c).
      + exists (sx + 16 + sc), L2'. split; [reflexivity|]. rewrite block_total_cons. lia.
      + exists sx, ((c, sc) :: L2'). split; reflexivity. }
  destruct (snoc_cases L1) as [-> | (L0 & a & sa & ->)].
  - cbn [fuse_left rev app]. rewrite block_total_cons. cbn [block_total fold_right]. lia.
  - rewrite fuse_left_snoc.
    destruct (a + 16 + sa =? x);
      rewrite !block_total_app, !block_total_cons; cbn [block_total fold_right]; lia.
Qed.

Lemma block_total_alloc_list (L1 L2 : list blk) (b sz e : Z) :
  block_total (alloc_list L1 b sz e L2) + (16 + alloc_take sz e)
  = block_total (L1 ++ (b, sz) :: L2).
Proof.
  unfold alloc_list, alloc_take. destruct (sz - e <=? 24);
    rewrite !block_total_app, ?block_total_cons; lia.
Qed.


(** ** The size query after a request *)

Lemma wrap_add_l (a b : Z) : wrap (wrap a + b) = wrap (a + b).
Proof. unfold wrap. apply Zplus_mod_idemp_l. Qed.

Lemma wrap_add_r (a b : Z) : wrap (a + wrap b) = wrap (a + b).
Proof. unfold wrap. apply Zplus_mod_idemp_r. Qed.

Lemma wrap_sub_l (a b : Z) : wrap (wrap a - b) = wrap (a - b).
Proof. unfold wrap. apply Zminus_mod_idemp_l. Qed.

(** [insert_block] writes nothing outside the header of the block it
    inserts and the sixteen bytes around the slot. *)
Lemma insert_block_frame (m : mem) (area x slot y : Z) :
  8 <= slot < 2 ^ 64 ->
  y < x \/ x + 16 <= y ->
  y < slot - 8 \/ slot + 8 <= y ->
  insert_block m area x slot y = m y.
Proof.
  intros Hslot Hx Hy. rewrite insert_block_unfold. cbv zeta. consts_goal.
  rewrite (wrap_small (slot - 8)) by lia.
  assert (insert_right m x slot y = m y) as Hright.
  { unfold insert_right. consts_goal.
    destruct (negb (load64 m slot =? 0)); [|apply store64_out; lia].
    destruct (wrap (x + load64 m x + 16) =? load64 m slot).
    - cbv zeta. rewrite !store64_out by lia. reflexivity.
    - apply store64_out. lia. }
  destruct (slot - 8 >=? area).
  - destruct (wrap (slot - 8 + 16 + load64 (insert_right m x slot) (slot - 8)) =? x).
    + rewrite !store64_out by lia. exact Hright.
    + rewrite store64_out by lia. exact Hright.
  - rewrite store64_out by lia. exact Hright.
Qed.

Lemma remove_block_frame (m : mem) (b slot y : Z) :
  y < slot \/ slot + 8 <= y ->
  y < b + 8 \/ b + 16 <= y ->
  remove_block m b slot y = m y.
Proof.
  intros H1 H2. unfold remove_block. consts_goal.
  destruct (load64 m slot =? b); [|reflexivity].
  cbv zeta. rewrite !store64_out by lia. reflexivity.
Qed.

Lemma coalesce_length (L1 L2 : list blk) (x : blk) :
  (length (coalesce L1 x L2) <= S (length (L1 ++ L2)))%nat.
Proof.
  destruct x as [x sx]. unfold coalesce.
  assert (exists sR R', fuse_right (x, sx) L2 = (x, sR) :: R'
                        /\ (length R' <= length L2)%nat) as (sR & R' & -> & HR).
  { destruct L2 as [|[c sc] L2']; lsimpl.
    - exists sx, []. split; [reflexivity|cbn [length]; lia].
    - destruct (x + sx + 16 =? c).
      + exists (sx + 16 + sc), L2'. split; [reflexivity|cbn [length]; lia].
      + exists sx, ((c, sc) :: L2'). split; [reflexivity|cbn [length]; lia]. }
  destruct (snoc_cases L1) as [-> | (L0 & a & sa & ->)].
  - cbn [fuse_left rev app length]. lia.
  - rewrite fuse_left_snoc. destruct (a + 16 + sa =? x);
      rewrite !length_app; cbn [length]; rewrite ?length_app; cbn [length]; lia.
Qed.

(** What the size query answers right after [mem_alloc]. *)
Lemma alloc_size_spec (fuel : nat) (st : state) (N : Z) (L : list blk) (s : Z) :
  free_list_is st N L -> (length L < fuel)%nat ->
  0 <= s -> s + 8 < 2 ^ 64 ->
  mem_alloc fuel st s = Done (NULL, st)
  \/ exists L1 b sz L2 st1,
      L = L1 ++ (b, sz) :: L2 /\ s + 8 <= sz
      /\ mem_alloc fuel st s = Done (b + 16, st1)
      /\ mem_get_size st1 (b + 16) = Done (if sz - (s + 8) <=? 24 then sz - 8 else s)
      /\ free_list_is st1 N (alloc_list L1 b sz (s + 8) L2)
      /\ (forall y,
            y < b \/ b + 16 + sz <= y ->
            y < free_block_list_addr st \/ free_block_list_addr st + 8 <= y ->
            (forall a sa, In (a, sa) L1 -> y < a \/ a + 16 <= y) ->
            bytes st1 y = bytes st y)
      /\ same_statics st st1.
Proof.
  intros Hinv Hfuel Hs0 Hs.
  destruct (mem_alloc_spec fuel st N L s Hinv Hfuel)
    as [[_ Hnull] | (L1 & b & sz & L2 & m' & -> & Hfits & Hrun & Hpost)];
    [left; exact Hnull|right].
  consts. rewrite (wrap_small (s + 8)) in * by lia.
  destruct Hinv as (Hok & _ & Hsp).
  pose proof (ao_top _ _ Hok) as Htop. pose proof (ao_head_lo _ _ Hok) as Hhead_lo.
  pose proof (ao_head_hi _ _ Hok) as Hhead_hi.
  pose proof (spaced_order _ _ _ _ _ _ Hsp) as (_ & _ & O3 & O4 & O5).
  destruct Hpost as [Plist Psize Pguards Pframe].
  assert (8 <= alloc_take sz (s + 8) <= sz) as Ht
    by (unfold alloc_take; destruct (sz - (s + 8) <=? 24); lia).
  exists L1, b, sz, L2, (with_bytes st m').
  split; [reflexivity|]. split; [exact Hfits|]. split; [exact Hrun|].
  split; [|split; [exact Plist|split; [exact Pframe|reflexivity]]].
  rewrite (mem_get_size_valid (with_bytes st m') N b (alloc_take sz (s + 8))).
  - rewrite (wrap_small (alloc_take sz (s + 8) - 8)) by lia.
    unfold alloc_take. destruct (sz - (s + 8) <=? 24); f_equal; lia.
  - apply arena_ok_with_bytes. exact Hok.
  - exact O3.
  - lia.
  - cbn [memory_area with_bytes]. lia.
  - exact Psize.
  - apply Pguards. lia.
Qed.

Lemma get_size_from_loads (st : state) (N p size : Z) (mf : mem) :
  arena_ok st N -> memory_area st <= p -> 8 <= size ->
  p + 16 + size <= memory_area st + N ->
  load64 mf p = size ->
  load64 mf (p + 8) = guard_of st p ->
  load64 mf (p + 8 + size) = guard_of st p ->
  mem_get_size (with_bytes st mf) (p + 16) = Done (size - 8).
Proof.
  intros Hok Hp Hsize Hend L1 L2 L3.
  pose proof (ao_top _ _ Hok) as Htop. pose proof (ao_head_lo _ _ Hok) as Hhead_lo.
  pose proof (ao_head_hi _ _ Hok) as Hhead_hi.
  rewrite (mem_get_size_valid (with_bytes st mf) N p size).
  - rewrite (wrap_small (size - 8)) by lia. reflexivity.
  - apply arena_ok_with_bytes. exact Hok.
  - exact Hp.
  - lia.
  - exact Hend.
  - exact L1.
  - unfold guards_ok. cbn [bytes with_bytes]. consts_goal. rewrite L1.
    rewrite (wrap_small (p + 16 + size - 8)) by lia.
    change (guard_of (with_bytes st mf) p) with (guard_of st p).
    split; [exact L2|]. replace (p + 16 + size - 8) with (p + 8 + size) by lia. exact L3.
Qed.

Lemma load64_insert_block_frame (m : mem) (area x slot a : Z) :
  8 <= slot < 2 ^ 64 ->
  a + 8 <= x \/ x + 16 <= a ->
  a + 8 <= slot - 8 \/ slot + 8 <= a ->
  load64 (insert_block m area x slot) a = load64 m a.
Proof.
  intros H1 H2 H3. apply load64_ext. intros i Hi. apply insert_block_frame; lia.
Qed.

Lemma load64_remove_block_frame (m : mem) (b slot a : Z) :
  a + 8 <= slot \/ slot + 8 <= a ->
  a + 8 <= b + 8 \/ b + 16 <= a ->
  load64 (remove_block m b slot) a = load64 m a.
Proof.
  intros H1 H2. apply load64_ext. intros i Hi. apply remove_block_frame; lia.
Qed.

(** Resolve a load through the writes of an in-place resize. *)
Ltac lframe :=
  repeat first
    [ rewrite load64_store64_same by lia
    | rewrite load64_store64_other by lia
    | rewrite load64_insert_block_frame by lia
    | rewrite load64_remove_block_frame by lia ].

Lemma right_neighbour_is_head (L1 L2 : list blk) (R lo hi : Z) :
  spaced lo (L1 ++ L2) hi ->
  (forall a sa, In (a, sa) L1 -> a < R) ->
  (forall c sc, In (c, sc) L2 -> R <= c) ->
  forall sR, In (R, sR) (L1 ++ L2) -> exists L2', L2 = (R, sR) :: L2'.
Proof.
  intros Hsp A1 A2 sR Hin.
  apply in_app_or in Hin. destruct Hin as [Hin | Hin].
  - specialize (A1 R sR Hin). lia.
  - apply spaced_app in Hsp. destruct Hsp as [_ Hsp2].
    destruct L2 as [|[c sc] L2']; [destruct Hin|].
    destruct Hin as [E | Hin].
    + inversion E; subst. exists L2'. reflexivity.
    + lsimpl. destruct Hsp2 as (_ & Hsc & _ & Hrest).
      pose proof (spaced_In _ _ _ _ _ Hrest Hin).
      specialize (A2 c sc (or_introl eq_refl)). lia.
Qed.

Lemma guards_from_loads (st : state) (N p size : Z) (mf : mem) :
  arena_ok st N -> memory_area st <= p -> 8 <= size ->
  p + 16 + size <= memory_area st + N ->
  load64 mf p = size ->
  load64 mf (p + 8) = guard_of st p ->
  load64 mf (p + 8 + size) = guard_of st p ->
  guards_ok (with_bytes st mf) p.
Proof.
  intros Hok Hp Hsize Hend L1 L2 L3.
  pose proof (ao_top _ _ Hok) as Htop. pose proof (ao_head_lo _ _ Hok) as Hhead_lo.
  pose proof (ao_head_hi _ _ Hok) as Hhead_hi.
  unfold guards_ok. cbn [bytes with_bytes]. consts_goal. rewrite L1.
  rewrite (wrap_small (p + 16 + size - 8)) by lia.
  change (guard_of (with_bytes st mf) p) with (guard_of st p).
  split; [exact L2|]. replace (p + 16 + size - 8) with (p + 8 + size) by lia. exact L3.
Qed.

(** Follow a byte through the writes of an in-place resize. *)
Ltac bframe :=
  repeat first
    [ rewrite store64_out by lia
    | rewrite insert_block_frame by lia
    | rewrite remove_block_frame by lia ].

(** A byte of the arena outside the blocks of [L1] is outside the slot
    that follows [L1] and the header that holds it. *)
Lemma slot_outside (L1 : list blk) (head B hi y : Z) :
  spaced B L1 hi -> head + 8 <= B -> B <= y ->
  (forall a sa, In (a, sa) L1 -> y < a \/ a + 16 + sa <= y) ->
  y < slot_after head L1 - 8 \/ slot_after head L1 + 8 <= y.
Proof.
  intros Hsp Hhead Hy Hout.
  destruct (snoc_cases L1) as [-> | (L0 & a & sa & ->)].
  - lsimpl. lia.
  - rewrite slot_after_snoc.
    pose proof (spaced_In _ _ _ _ _ Hsp
                  ltac:(apply in_or_app; right; left; reflexivity)
                : B <= a /\ 0 <= sa /\ a + 16 + sa <= hi).
    specialize (Hout a sa ltac:(apply in_or_app; right; left; reflexivity)). lia.
Qed.

(** Settle a goal that hangs on one comparison. *)
Ltac by_leb :=
  match goal with
  | |- context [?a <=? ?b] =>
      let E := fresh "E" in
      destruct (a <=? b) eqn:E; [apply Z.leb_le in E|apply Z.leb_gt in E]; lia
  end.

(** What [mem_realloc] of a live block does to the size query and to the
    free list.  The free list stays well formed in every case but one:
    shrinking by 1 to 7 bytes a block whose right neighbour is free. *)
Lemma realloc_spec
      (fuel : nat) (st : state) (N : Z) (L : list blk) (p old s : Z) :
  free_list_is st N L -> (S (length L) < fuel)%nat ->
  allocated_at st N L p old -> guards_ok st p -> 8 <= old ->
  0 <= s -> s + 8 < 2 ^ 64 ->
  exists r st1,
    mem_realloc fuel st (p + 16) s = Done (r, st1)
    /\ (r = NULL
        \/ exists u,
            mem_get_size st1 r = Done u /\ s <= u <= s + 24
            /\ (0 < s ->
                (s + 8 <= old ->
                 ((exists sR, In (p + old + 16, sR) L) -> u = s)
                 /\ ((forall sR, ~ In (p + old + 16, sR) L) ->
                     u = if old - (s + 8) <=? 24 then old - 8 else s))
                /\ (old < s + 8 ->
                    forall sR, In (p + old + 16, sR) L -> s + 8 - old <= sR + 16 ->
                    u = if sR + 16 + old - (s + 8) <=? 24 then old + 16 + sR - 8 else s)))
    /\ ((0 < s -> forall sR, In (p + old + 16, sR) L -> ~ (s + 8 < old < s + 16)) ->
        exists L',
          free_list_is st1 N L'
          /\ (0 < s -> r = p + 16 ->
              exists size,
                resized_in_place st st1 N L L' p old size /\ s + 8 <= size <= s + 32))
    /\ (r <> NULL -> 0 < s ->
        forall i, 0 <= i < Z.min s (old - 8) -> bytes st1 (r + i) = bytes st (p + 16 + i))
    /\ (0 < s ->
        s + 8 <= old \/ (exists sR, In (p + old + 16, sR) L /\ s + 8 - old <= sR + 16) ->
        r = p + 16)
    /\ writes_within st st1 L p old.
Proof.
  intros Hinv Hfuel Halloc Hguards Hold Hs0 Hs.
  pose proof Halloc as (Hp_lo & Hp_size & Hp_hi & Hdis).
  pose proof Hinv as (Hok & Hseg & Hsp).
  pose proof Hok as [Hhead_lo Hhead_hi Htop Hmin Hmax Hsecret].
  set (B := memory_area st) in *. set (head := free_block_list_addr st) in *.
  consts.
  destruct (in_area_of_block st N p old Hok Hp_lo ltac:(lia) Hp_hi) as [E1 E2].
  pose proof Hguards as (Hg1 & Hg2). consts.
  rewrite Hp_size in Hg2. rewrite (wrap_small (p + 16 + old - 8)) in Hg2 by lia.
  replace (p + 16 + old - 8) with (p + 8 + old) in Hg2 by lia.
  assert (0 <= guard_of st p < 2 ^ 64) as Hgr
    by (unfold guard_of; apply lxor_range; lia).
  destruct (Z.eq_dec s 0) as [-> | Hsnz].
  { (* resize to zero: free, then allocate zero bytes *)
    destruct (split_around p old L B (B + N) Hsp ltac:(lia) Hdis) as (L1 & L2 & -> & A1 & A2).
    destruct (mem_free_spec fuel st N L1 L2 p old Hinv ltac:(lia) Hp_lo Hp_size Hp_hi A1 A2
                Hguards ltac:(rewrite Hmax; fold B; lia))
      as (m' & Hfree & Hlist & Hframe).
    pose proof (coalesce_length L1 L2 (p, old)) as Hlen.
    assert (forall y, B <= y -> y < p \/ p + 16 + old <= y ->
                      (forall a sa, In (a, sa) (L1 ++ L2) -> y < a \/ a + 16 + sa <= y) ->
                      m' y = bytes st y) as Hfree_out.
    { intros y Hy1 Hy2 Hy3. apply Hframe; try lia.
      intros a sa Hin.
      pose proof (spaced_In _ _ _ _ _ Hsp ltac:(apply in_or_app; left; exact Hin)
                  : B <= a /\ 0 <= sa /\ a + 16 + sa <= B + N).
      specialize (Hy3 a sa ltac:(apply in_or_app; left; exact Hin)). lia. }
    destruct (alloc_size_spec fuel (with_bytes st m') N _ 0 Hlist ltac:(lia) ltac:(lia) ltac:(lia))
      as [Hnull | (La & b & sz & Lb & st1 & EL & Hfits & Hrun & Hsize & Hlist1 & Hframe1
                 & Hstat1)].
    - exists NULL, (with_bytes st m'). split; [|split; [left; reflexivity|]].
      + unfold mem_realloc. consts_goal. rewrite E1, E2. rewrite Hfree. cbn [bind]. exact Hnull.
      + split; [intros _; eexists; split; [exact Hlist|intros Hpos; lia]|].
        split; [intros _ Hpos; lia|]. split; [intros Hpos; lia|].
        split; [reflexivity|].
        intros y Hy1 Hy2 Hy3. consts. cbn [bytes with_bytes]. apply Hfree_out; assumption.
    - exists (b + 16), st1. split; [|split].
      + unfold mem_realloc. consts_goal. rewrite E1, E2. rewrite Hfree. cbn [bind]. exact Hrun.
      + right. exists (if sz - (0 + 8) <=? 24 then sz - 8 else 0). split; [exact Hsize|].
        split; [|intros Hpos; lia].
        destruct (sz - (0 + 8) <=? 24) eqn:Eb; [apply Z.leb_le in Eb|]; lia.
      + split; [intros _; eexists; split; [exact Hlist1|intros Hpos; lia]|].
        split; [intros _ Hpos; lia|]. split; [intros Hpos; lia|].
        split; [unfold same_statics in *; rewrite Hstat1 at 1; reflexivity|].
        intros y Hy1 Hy2 Hy3. consts.
        destruct Hlist as (_ & _ & Hspc). rewrite EL in Hspc.
        cbn [memory_area with_bytes] in Hspc. fold B in Hspc.
        assert (forall a sa, In (a, sa) (La ++ (b, sz) :: Lb) -> a + 16 + sa <= y \/ y + 1 <= a)
          as Hyc.
        { rewrite <- EL.
          apply (coalesce_outside L1 L2 p old y (y + 1)); try lia.
          - intros a sa Hin.
            specialize (Hy3 a sa ltac:(apply in_or_app; left; exact Hin)). lia.
          - intros c sc Hin.
            specialize (Hy3 c sc ltac:(apply in_or_app; right; exact Hin)). lia. }
        rewrite Hframe1.
        * cbn [bytes with_bytes]. apply Hfree_out; assumption.
        * specialize (Hyc b sz ltac:(apply in_or_app; right; left; reflexivity)). lia.
        * cbn [free_block_list_addr with_bytes]. fold head. lia.
        * intros a sa Hin.
          pose proof (spaced_In _ _ _ _ _ Hspc ltac:(apply in_or_app; left; exact Hin)
                      : B <= a /\ 0 <= sa /\ a + 16 + sa <= B + N).
          specialize (Hyc a sa ltac:(apply in_or_app; left; exact Hin)). lia. }
  set (e := s + 8).
  destruct (search_block_around fuel st N L (p + old + 16) Hinv ltac:(lia))
    as (L1 & L2 & EL & A1 & A2 & Hsearch & Hslot).
  fold head in Hsearch, Hslot.
  set (slot := slot_after head L1) in *.
  assert (forall a sa, In (a, sa) L1 -> a + 16 + sa <= p) as A1'.
  { intros a sa Hin. specialize (A1 a sa Hin).
    destruct (Hdis a sa ltac:(rewrite EL; apply in_or_app; left; exact Hin)); lia. }
  assert (8 <= slot /\ slot + 8 <= p) as [Hslot_lo Hslot_hi].
  { rewrite EL in Hsp. apply spaced_app in Hsp. destruct Hsp as [Sp1 _].
    destruct (slot_after_below L1 p head B (B + N) Sp1 Hhead_hi Hp_lo A1'). subst slot. lia. }
  assert (resize_ctx st N L1 L2 p old) as Hctx.
  { constructor; try assumption; try lia. rewrite <- EL. exact Hinv. }
  assert (forall sR, In (p + old + 16, sR) L -> exists L2', L2 = (p + old + 16, sR) :: L2')
    as Hright_head.
  { intros sR Hin. rewrite EL in Hin, Hsp.
    apply (right_neighbour_is_head L1 L2 (p + old + 16) B (B + N) Hsp A1 A2 sR Hin). }
  assert (forall y, B <= y ->
                    (forall a sa, In (a, sa) L -> y < a \/ a + 16 + sa <= y) ->
                    y < slot - 8 \/ slot + 8 <= y) as Hout_slot.
  { intros y Hy1 Hy3. subst slot.
    pose proof Hsp as Hsp1. rewrite EL in Hsp1. apply spaced_app in Hsp1.
    destruct Hsp1 as [Sp1 _].
    apply (slot_outside L1 head B (B + N) y Sp1 Hhead_hi Hy1).
    intros a sa Hin. apply (Hy3 a sa). rewrite EL. apply in_or_app. left. exact Hin. }
  assert (slot < 2 ^ 64) as Hslot_top by lia.
  assert (resized_in_place st st N L L p old old) as Hunch.
  { constructor; consts_goal; try assumption; try lia.
    intros q qe Hq HqL Hqp. split; [exact HqL|lia]. }
  assert (forall a sa, In (a, sa) L1 -> In (a, sa) L /\ 0 <= sa /\ a + 16 + sa <= p) as F1.
  { intros a sa Hin.
    assert (In (a, sa) L) as HinL by (rewrite EL; apply in_or_app; left; exact Hin).
    pose proof (spaced_In _ _ _ _ _ Hsp HinL). specialize (A1' a sa Hin).
    split; [exact HinL|lia]. }
  destruct (Z.eq_dec e old) as [Eeq | Eneq].
  { (* same size: nothing to do *)
    exists (p + 16), st. split.
    - unfold mem_realloc. consts_goal. rewrite E1, E2.
      replace (s =? 0) with false by (symmetry; apply Z.eqb_neq; lia).
      cbv zeta. fold e. rewrite (wrap_small e) by (subst e; lia).
      replace (p + 16 - 16) with p by lia. rewrite (wrap_small p) by lia.
      rewrite Hg1, Z.eqb_refl. cbn [negb]. rewrite Hp_size.
      rewrite (wrap_small (p + 16 + old - 8)) by lia.
      replace (p + 16 + old - 8) with (p + 8 + old) by lia.
      rewrite Hg2, Z.eqb_refl. cbn [negb].
      rewrite Eeq, Z.eqb_refl. reflexivity.
    - split; [|split; [intros _; exists L; split;
                         [exact Hinv|intros _ _; exists old; split; [exact Hunch|subst e; lia]]|]].
      + right. exists s. split; [|split; [lia|]].
        2: { intros _. subst e. split; [|intros Hlt; lia].
             intros _. split; [intros _; reflexivity|intros _; by_leb]. }
        rewrite (mem_get_size_valid st N p old Hok Hp_lo ltac:(lia) Hp_hi Hp_size Hguards).
        rewrite (wrap_small (old - 8)) by lia. f_equal. subst e. lia.
      + split; [intros; reflexivity|]. split; [intros; reflexivity|].
        split; [apply same_statics_refl|intros y _ _ _; reflexivity]. }
  (* what [mem_realloc] reduces to once the sizes differ *)
  assert (mem_realloc fuel st (p + 16) s =
          (let m := bytes st in
           let size := e in
           let block_to_realloc := p in
           let guard := guard_of st p in
           let right_block := p + old + 16 in
           let list := slot in
           let trailer := p + 8 + e in
           if size <? old then
             if right_block =? hd_ptr L2 then
               let new_free_block := wrap (p + e + 16) in
               let new_size := wrap (load64 m right_block + wrap (old - e)) in
               let m1 := store64 m new_free_block new_size in
               let m2 := store64 m1 (new_free_block + 8) 0 in
               let m3 := remove_block m2 right_block list in
               let m4 := insert_block m3 B new_free_block list in
               let m5 := store64 m4 block_to_realloc size in
               let m6 := store64 m5 trailer guard in
               Done (p + 16, with_bytes st m6)
             else if wrap (old - e) <=? 24 then Done (p + 16, st)
             else
               let new_free_block := wrap (p + e + 16) in
               let new_size := wrap (wrap (old - e) - 16) in
               let m1 := store64 m new_free_block new_size in
               let m2 := store64 m1 (new_free_block + 8) 0 in
               let m3 := insert_block m2 B new_free_block list in
               let m4 := store64 m3 block_to_realloc size in
               let m5 := store64 m4 trailer guard in
               Done (p + 16, with_bytes st m5)
           else if negb (right_block =? hd_ptr L2)
                   || (wrap (load64 m right_block + 16) <? wrap (e - old)) then
             r <- mem_alloc fuel st (wrap (e - 8)) ;;
             let '(result, st1) := r in
             if result =? 0 then Done (0, st1)
             else
               let n := wrap (load64 (bytes st1) p - 8) in
               let st2 := with_bytes st1 (memcpy (bytes st1) result (p + 16) n) in
               st3 <- mem_free fuel st2 (p + 16) ;; Done (result, st3)
           else
             let m1 := remove_block m right_block list in
             if wrap (wrap (wrap (load64 m1 right_block - e) + load64 m1 p) + 16) <=? 24 then
               let grown := wrap (load64 m1 p + wrap (load64 m1 right_block + 16)) in
               let m2 := store64 m1 p grown in
               let m3 := store64 m2 (wrap (p + 16 + load64 m2 p - 8)) guard in
               Done (p + 16, with_bytes st m3)
             else
               let new_free_block := wrap (p + e + 16) in
               let m2 := store64 m1 new_free_block
                           (wrap (wrap (load64 m1 right_block - e) + load64 m1 p)) in
               let m3 := store64 m2 (new_free_block + 8) 0 in
               let m4 := store64 m3 p e in
               let m5 := store64 m4 (wrap (p + 16 + load64 m4 p - 8)) guard in
               Done (p + 16, with_bytes st (insert_block m5 B new_free_block list))))
    as Hbody.
  { unfold mem_realloc. consts_goal. rewrite E1, E2.
    replace (s =? 0) with false by (symmetry; apply Z.eqb_neq; lia).
    cbv zeta. fold e. rewrite (wrap_small e) by (subst e; lia).
    replace (p + 16 - 16) with p by lia. rewrite (wrap_small p) by lia.
    rewrite Hg1, Z.eqb_refl. cbn [negb]. rewrite Hp_size.
    rewrite (wrap_small (p + 16 + old - 8)) by lia.
    replace (p + 16 + old - 8) with (p + 8 + old) by lia.
    rewrite Hg2, Z.eqb_refl. cbn [negb].
    replace (e =? old) with false by (symmetry; apply Z.eqb_neq; exact Eneq).
    rewrite (wrap_small (p + old + 16)) by lia.
    fold head. rewrite Hsearch. cbn [bind]. rewrite Hslot.
    change (wrap (16 + 8)) with 24.
    destruct (e <? old) eqn:Elt.
    - apply Z.ltb_lt in Elt.
      rewrite (wrap_small (p + 16 + e - 8)) by lia.
      replace (p + 16 + e - 8) with (p + 8 + e) by lia.
      fold B. reflexivity.
    - fold B. reflexivity. }
  destruct (e <? old) eqn:Elt.
  - (* shrink *)
    pose proof Elt as Eltb. apply Z.ltb_lt in Elt.
    assert (wrap (p + e + 16) = p + e + 16) as Ex by (apply wrap_small; lia).
    assert (wrap (old - e) = old - e) as Ed by (apply wrap_small; lia).
    destruct (p + old + 16 =? hd_ptr L2) eqn:ER.
    + (* case 3.1: the right neighbour is free *)
      rewrite Hbody. cbv zeta. clear Hbody. rewrite Eltb, ER, Ex.
      clear Hsearch Hslot. apply Z.eqb_eq in ER.
      destruct L2 as [|[c sR] L2']; cbn [hd_ptr] in ER; [consts; lia|]. subst c.
      assert (In (p + old + 16, sR) L) as HinR
        by (rewrite EL; apply in_or_app; right; left; reflexivity).
      destruct (fseg_In_size _ _ _ _ _ _ Hseg HinR) as [HsR _].
      pose proof (spaced_In _ _ _ _ _ Hsp HinR) as HRb.
      eexists. eexists. split; [reflexivity|]. split; [|split; [|split; [|split]]].
      * right. exists s.
        split; [|split; [lia|]].
        2: { intros _. split; [|intros Hlt; subst e; lia].
             intros _. split; [intros _; reflexivity|].
             intros Hnone. exfalso. apply (Hnone sR HinR). }
        replace s with (e - 8) by (subst e; lia).
        apply (get_size_from_loads st N p e); try assumption; try lia.
        -- lframe. reflexivity.
        -- lframe. exact Hg1.
        -- lframe. reflexivity.
      * intros Hnb.
        specialize (Hnb ltac:(lia) sR HinR).
        assert (wrap (load64 (bytes st) (p + old + 16) + wrap (old - e)) = sR + (old - e))
          as Ensz by (rewrite HsR, Ed; apply wrap_small; lia).
        rewrite Ensz.
        assert (forall c sc, In (c, sc) L2' -> In (c, sc) L /\ p + old + 16 + 16 + sR < c) as F2.
        { intros c sc Hin. split; [rewrite EL; apply in_or_app; right; right; exact Hin|].
          rewrite EL in Hsp. destruct (spaced_order _ _ _ _ _ _ Hsp) as (_ & O2 & _).
          specialize (O2 c sc Hin). lia. }
        exists (L1 ++ (p + e + 16, sR + (old - e)) :: L2'). split.
        -- apply (shrink_extends_neighbour st N L1 L2' p old e sR); try assumption; try lia.
        -- intros _ _. exists e. split; [|subst e; lia].
           constructor; consts_goal; try lia.
           ++ cbn [bytes with_bytes]. lframe. reflexivity.
           ++ apply (guards_from_loads st N p e); try assumption; try lia.
              ** lframe. reflexivity.
              ** lframe. exact Hg1.
              ** lframe. reflexivity.
           ++ intros a sa Hin. apply in_app_or in Hin. destruct Hin as [Hin | [E | Hin]].
              ** destruct (F1 a sa Hin) as (_ & ? & ?). lia.
              ** inversion E; subst a sa. lia.
              ** destruct (F2 a sa Hin) as (_ & ?). lia.
           ++ rewrite EL, !block_total_app, !block_total_cons. lia.
           ++ intros q qe Hq HqL Hqp. pose proof (HqL _ _ HinR) as HqR. split; [|lia].
              intros a sa Hin. apply in_app_or in Hin. destruct Hin as [Hin | [E | Hin]].
              ** apply HqL. apply (F1 a sa Hin).
              ** inversion E; subst a sa. lia.
              ** apply HqL. apply (F2 a sa Hin).
      * intros _ _ i Hi. cbn [bytes with_bytes]. bframe. reflexivity.
      * intros; reflexivity.
      * split; [reflexivity|].
        intros y Hy1 Hy2 Hy3. consts. cbn [bytes with_bytes].
        pose proof (Hout_slot y Hy1 Hy3) as Hys. specialize (Hy3 _ _ HinR).
        bframe. reflexivity.
    + assert (forall sR, ~ In (p + old + 16, sR) L) as Hnofree.
      { intros sR Hin. destruct (Hright_head sR Hin) as [L2' EL2].
        rewrite EL2 in ER. cbn [hd_ptr] in ER. rewrite Z.eqb_refl in ER. discriminate. }
      destruct (old - e <=? 24) eqn:Ekeep.
      * (* case 3.2.1: the remainder is too small, nothing changes *)
        apply Z.leb_le in Ekeep.
        exists (p + 16), st. split; [rewrite Hbody; cbv zeta; rewrite Eltb, ER, Ed; replace (old - e <=? 24) with true by (symmetry; apply Z.leb_le; exact Ekeep); reflexivity|].
        split; [|split; [intros _; exists L; split;
                         [exact Hinv|intros _ _; exists old; split; [exact Hunch|subst e; lia]]|]].
        -- right. exists (old - 8).
           split; [|split; [subst e; lia|]].
           2: { intros _. split; [|intros Hlt; subst e; lia].
                intros _. split; [intros [sR Hin]; exfalso; apply (Hnofree sR Hin)|].
                intros _. subst e. first [reflexivity|by_leb]. }
           rewrite (mem_get_size_valid st N p old Hok Hp_lo ltac:(lia) Hp_hi Hp_size Hguards).
           rewrite (wrap_small (old - 8)) by lia. reflexivity.
        -- split; [intros; reflexivity|]. split; [intros; reflexivity|].
           split; [apply same_statics_refl|intros y _ _ _; reflexivity].
      * (* case 3.2.2: a free block is carved out of the tail *)
        apply Z.leb_gt in Ekeep. pose proof ER as ERb.
        rewrite Hbody. cbv zeta. clear Hbody. rewrite Eltb, ER, Ex, Ed.
        replace (old - e <=? 24) with false by (symmetry; apply Z.leb_gt; exact Ekeep).
        eexists. eexists. split; [reflexivity|]. split; [|split; [|split; [|split]]].
        3: { intros _ _ i Hi. cbn [bytes with_bytes]. bframe. reflexivity. }
        3: { intros; reflexivity. }
        3: { split; [reflexivity|].
             intros y Hy1 Hy2 Hy3. consts. cbn [bytes with_bytes].
             pose proof (Hout_slot y Hy1 Hy3) as Hys.
             bframe. reflexivity. }
        -- right. exists s.
           split; [|split; [lia|]].
           2: { intros _. split; [|intros Hlt; subst e; lia].
                intros _. split; [intros _; reflexivity|].
                intros _. subst e. first [reflexivity|by_leb]. }
           replace s with (e - 8) by (subst e; lia).
           apply (get_size_from_loads st N p e); try assumption; try lia.
           ++ lframe. reflexivity.
           ++ lframe. exact Hg1.
           ++ lframe. reflexivity.
        -- intros _. eexists. split.
           ++ apply (shrink_carves_free_block st N L1 L2 p old e); try assumption; try lia.
              ** intros c sc Hin. specialize (A2 c sc Hin).
                 destruct (Z.eq_dec c (p + old + 16)) as [-> | Hne]; [|lia].
                 destruct (Hright_head sc ltac:(rewrite EL; apply in_or_app; right; exact Hin))
                   as [L2' EL2].
                 rewrite EL2 in ERb. cbn [hd_ptr] in ERb. rewrite Z.eqb_refl in ERb.
                 discriminate.
              ** rewrite wrap_small by lia. lia.
              ** rewrite wrap_small by lia. lia.
           ++ intros _ _. exists e. split; [|subst e; lia].
              rewrite (wrap_small (old - e - 16)) by lia.
              constructor; consts_goal; try lia.
              ** cbn [bytes with_bytes]. lframe. reflexivity.
              ** apply (guards_from_loads st N p e); try assumption; try lia.
                 --- lframe. reflexivity.
                 --- lframe. exact Hg1.
                 --- lframe. reflexivity.
              ** intros a sa Hin. apply in_app_or in Hin. destruct Hin as [Hin | [E | Hin]].
                 --- destruct (F1 a sa Hin) as (_ & ? & ?). lia.
                 --- inversion E; subst a sa. lia.
                 --- specialize (A2 a sa Hin). lia.
              ** rewrite EL, !block_total_app, !block_total_cons. lia.
              ** intros q qe Hq HqL Hqp. split; [|lia].
                 intros a sa Hin. apply in_app_or in Hin. destruct Hin as [Hin | [E | Hin]].
                 --- apply HqL. apply (F1 a sa Hin).
                 --- inversion E; subst a sa. lia.
                 --- apply HqL. rewrite EL. apply in_or_app. right. exact Hin.
  - (* grow *)
    pose proof Elt as Eltb. apply Z.ltb_ge in Elt.
    assert (wrap (e - old) = e - old) as Ed by (apply wrap_small; lia).
    destruct (negb (p + old + 16 =? hd_ptr L2)
              || (wrap (load64 (bytes st) (p + old + 16) + 16) <? wrap (e - old))) eqn:Ecnd.
    + (* case 4.1: relocation *)
      clear Hbody.
      assert (forall sR, In (p + old + 16, sR) L -> sR + 16 < s + 8 - old) as Hright.
      { intros sR Hin.
        destruct (fseg_In_size _ _ _ _ _ _ Hseg Hin) as [HsR _].
        pose proof (spaced_In _ _ _ _ _ Hsp Hin) as HRb.
        rewrite EL in Hin, Hsp.
        destruct (right_neighbour_is_head L1 L2 (p + old + 16) B (B + N) Hsp A1 A2 sR Hin)
          as [L2' EL2].
        rewrite EL2 in Ecnd. cbn [hd_ptr] in Ecnd. rewrite Z.eqb_refl in Ecnd.
        cbn [negb orb] in Ecnd. rewrite HsR, Ed in Ecnd.
        rewrite (wrap_small (sR + 16)) in Ecnd by lia.
        apply Z.ltb_lt in Ecnd. subst e. lia. }
      destruct (relocate_spec fuel st N L p old s Hinv ltac:(lia) Halloc Hguards Hold Hs0 Hs
                  ltac:(subst e; lia) Hright)
        as [(_ & Hre & _)
           | (r & st1 & st3 & L3 & _ & _ & _ & Hre & Hcopy & Hlist3 & _ & Hneq
              & (u & Hu & Hb & Hpick) & Hwr)].
      * exists NULL, st. split; [exact Hre|]. split; [left; reflexivity|].
        split; [intros _; exists L; split; [exact Hinv|intros _ Heq; consts; lia]|].
        split; [intros Hnz; exfalso; apply Hnz; reflexivity|].
        split; [|split; [apply same_statics_refl|intros y _ _ _; reflexivity]].
        intros _ [Hshr | (sR & Hin & Hroom)]; [subst e; lia|].
        specialize (Hright sR Hin). lia.
      * exists r, st3. split; [exact Hre|].
        split; [|split; [intros _; exists L3; split; [exact Hlist3|intros _ Heq; contradiction]|]].
        -- right. exists u.
           split; [exact Hu|]. split; [exact Hb|].
           intros _. split; [intros Hle; subst e; lia|].
           intros _ sR Hin Hfit. specialize (Hright sR Hin). lia.
        -- split; [intros _ _ i Hi; apply Hcopy; lia|].
           split; [|exact Hwr].
           intros _ [Hshr | (sR & Hin & Hroom)]; [subst e; lia|].
           specialize (Hright sR Hin). lia.
    + (* case 4.2: the right neighbour is free and large enough *)
      apply orb_false_iff in Ecnd. destruct Ecnd as [ER Hroom].
      apply negb_false_iff in ER. apply Z.eqb_eq in ER.
      destruct L2 as [|[c sR] L2']; cbn [hd_ptr] in ER; [consts; lia|]. subst c.
      assert (In (p + old + 16, sR) L) as HinR
        by (rewrite EL; apply in_or_app; right; left; reflexivity).
      destruct (fseg_In_size _ _ _ _ _ _ Hseg HinR) as [HsR _].
      pose proof (spaced_In _ _ _ _ _ Hsp HinR) as HRb.
      rewrite HsR, Ed in Hroom. rewrite (wrap_small (sR + 16)) in Hroom by lia.
      apply Z.ltb_ge in Hroom.
      assert (forall c sc, In (c, sc) L2' -> In (c, sc) L /\ p + old + 16 + 16 + sR < c) as F2.
      { intros c sc Hin. split; [rewrite EL; apply in_or_app; right; right; exact Hin|].
        pose proof Hsp as Hsp'. rewrite EL in Hsp'.
        destruct (spaced_order _ _ _ _ _ _ Hsp') as (_ & O2 & _).
        specialize (O2 c sc Hin). lia. }
      set (m1 := remove_block (bytes st) (p + old + 16) slot) in *.
      assert (load64 m1 (p + old + 16) = sR) as HR1 by (subst m1; lframe; exact HsR).
      assert (load64 m1 p = old) as Hp1 by (subst m1; lframe; exact Hp_size).
      assert (wrap (wrap (wrap (sR - e) + old) + 16) = sR + old + 16 - e) as Eleft.
      { rewrite wrap_add_l, <- Z.add_assoc, wrap_add_l.
        rewrite wrap_small by lia. lia. }
      rewrite Hbody. cbv zeta. clear Hbody. rewrite Eltb.
      cbn [hd_ptr]. rewrite Z.eqb_refl. cbn [negb orb].
      rewrite HsR, Ed. rewrite (wrap_small (sR + 16)) by lia.
      replace (sR + 16 <? e - old) with false by (symmetry; apply Z.ltb_ge; exact Hroom).
      fold m1. rewrite HR1, Hp1, Eleft.
      destruct (sR + old + 16 - e <=? 24) eqn:Eab.
      * (* case 4.2.1: the whole neighbour is absorbed *)
        apply Z.leb_le in Eab.
        rewrite (wrap_small (sR + 16)) by lia.
        rewrite (wrap_small (old + (sR + 16))) by lia.
        rewrite (load64_store64_same m1 p (old + (sR + 16))) by lia.
        rewrite (wrap_small (p + 16 + (old + (sR + 16)) - 8)) by lia.
        eexists. eexists. split; [reflexivity|]. split; [|split; [|split; [|split]]].
        3: { intros _ _ i Hi. cbn [bytes with_bytes]. subst m1. bframe. reflexivity. }
        3: { intros; reflexivity. }
        3: { split; [reflexivity|].
             intros y Hy1 Hy2 Hy3. consts. cbn [bytes with_bytes].
             pose proof (Hout_slot y Hy1 Hy3) as Hys. specialize (Hy3 _ _ HinR).
             subst m1. bframe. reflexivity. }
        -- right. exists (old + 16 + sR - 8).
           split; [|split; [subst e; lia|]].
           2: { intros _. split; [intros Hle; subst e; lia|].
                intros _ sR' Hin' _.
                destruct (Hright_head sR' Hin') as [L2'' EL2]. inversion EL2; subst sR'.
                subst e. by_leb. }
           replace (old + 16 + sR - 8) with (old + (sR + 16) - 8) by lia.
           apply (get_size_from_loads st N p (old + (sR + 16))); try assumption; try lia.
           ++ lframe. reflexivity.
           ++ subst m1. lframe. exact Hg1.
           ++ replace (p + 16 + (old + (sR + 16)) - 8) with (p + 8 + (old + (sR + 16))) by lia.
              lframe. reflexivity.
        -- intros _. exists (L1 ++ L2'). split.
           ++ subst m1.
              apply (grow_absorbs_neighbour st N L1 L2' p old sR); try assumption; lia.
           ++ intros _ _. exists (old + (sR + 16)). split; [|subst e; lia].
              constructor; consts_goal; try lia.
              ** cbn [bytes with_bytes]. lframe. reflexivity.
              ** apply (guards_from_loads st N p (old + (sR + 16))); try assumption; try lia.
                 --- lframe. reflexivity.
                 --- subst m1. lframe. exact Hg1.
                 --- replace (p + 16 + (old + (sR + 16)) - 8)
                       with (p + 8 + (old + (sR + 16))) by lia.
                     lframe. reflexivity.
              ** intros a sa Hin. apply in_app_or in Hin. destruct Hin as [Hin | Hin].
                 --- destruct (F1 a sa Hin) as (_ & ? & ?). lia.
                 --- destruct (F2 a sa Hin) as (_ & ?). lia.
              ** rewrite EL, !block_total_app, !block_total_cons. lia.
              ** intros q qe Hq HqL Hqp. pose proof (HqL _ _ HinR) as HqR. split; [|lia].
                 intros a sa Hin. apply in_app_or in Hin. destruct Hin as [Hin | Hin].
                 --- apply HqL. apply (F1 a sa Hin).
                 --- apply HqL. apply (F2 a sa Hin).
      * (* case 4.2.2: the neighbour is split *)
        apply Z.leb_gt in Eab.
        rewrite (wrap_small (p + e + 16)) by lia.
        rewrite (load64_store64_same _ p e) by lia.
        rewrite (wrap_small (p + 16 + e - 8)) by lia.
        eexists. eexists. split; [reflexivity|]. split; [|split; [|split; [|split]]].
        3: { intros _ _ i Hi. cbn [bytes with_bytes]. subst m1. bframe. reflexivity. }
        3: { intros; reflexivity. }
        3: { split; [reflexivity|].
             intros y Hy1 Hy2 Hy3. consts. cbn [bytes with_bytes].
             pose proof (Hout_slot y Hy1 Hy3) as Hys. specialize (Hy3 _ _ HinR).
             subst m1. bframe. reflexivity. }
        -- right. exists s.
           split; [|split; [lia|]].
           2: { intros _. split; [intros Hle; subst e; lia|].
                intros _ sR' Hin' _.
                destruct (Hright_head sR' Hin') as [L2'' EL2]. inversion EL2; subst sR'.
                subst e. by_leb. }
           replace s with (e - 8) by (subst e; lia).
           apply (get_size_from_loads st N p e); try assumption; try lia.
           ++ lframe. reflexivity.
           ++ subst m1. lframe. exact Hg1.
           ++ replace (p + 16 + e - 8) with (p + 8 + e) by lia. lframe. reflexivity.
        -- intros _.
           assert (wrap (wrap (sR - e) + old) = sR - e + old) as Ensz
             by (rewrite wrap_add_l; apply wrap_small; lia).
           rewrite Ensz.
           exists (L1 ++ (p + e + 16, sR - e + old) :: L2'). split.
           ++ subst m1.
              apply (grow_splits_neighbour st N L1 L2' p old e sR); try assumption; try lia.
           ++ intros _ _. exists e. split; [|subst e; lia].
              constructor; consts_goal; try lia.
              ** cbn [bytes with_bytes]. lframe. reflexivity.
              ** apply (guards_from_loads st N p e); try assumption; try lia.
                 --- lframe. reflexivity.
                 --- subst m1. lframe. exact Hg1.
                 --- replace (p + 16 + e - 8) with (p + 8 + e) by lia. lframe. reflexivity.
              ** intros a sa Hin. apply in_app_or in Hin. destruct Hin as [Hin | [E | Hin]].
                 --- destruct (F1 a sa Hin) as (_ & ? & ?). lia.
                 --- inversion E; subst a sa. lia.
                 --- destruct (F2 a sa Hin) as (_ & ?). lia.
              ** rewrite EL, !block_total_app, !block_total_cons. lia.
              ** intros q qe Hq HqL Hqp. pose proof (HqL _ _ HinR) as HqR. split; [|lia].
                 intros a sa Hin. apply in_app_or in Hin. destruct Hin as [Hin | [E | Hin]].
                 --- apply HqL. apply (F1 a sa Hin).
                 --- inversion E; subst a sa. lia.
                 --- apply HqL. apply (F2 a sa Hin).
Qed.

(** ** The statements above at the worked scenarios *)

Lemma ex_holes_free_list : free_list_is ex_holes ex_total ex_holes_free.
Proof. split; [exact ex_holes_arena|]. split; by_compute. Qed.

Lemma mem_best_fit_correct_witness :
  exists r,
    mem_best_fit 8 (bytes ex_holes) (free_block_list ex_holes) 20 = Done r
    /\ ((r = NULL /\ forall a s, In (a, s) ex_holes_free -> s < 20)
        \/ (r <> NULL
            /\ exists s W1 W2,
                ex_holes_free = W1 ++ (r, s) :: W2 /\ load64 (bytes ex_holes) r = s /\ 20 <= s
                /\ (forall a' s', In (a', s') W1 -> 20 <= s' -> s < s')
                /\ (forall a' s', In (a', s') W2 -> 20 <= s' -> s <= s')
                /\ (forall lo hi, spaced lo ex_holes_free hi ->
                                  forall a' s', In (a', s') ex_holes_free -> 20 <= s' ->
                                                s < s' \/ (s = s' /\ r <= a')))).
Proof.
  apply (mem_best_fit_correct (bytes ex_holes) ex_holes_free 8 (free_block_list ex_holes) 20).
  - by_compute.
  - intros a s [E | [E | []]]; inversion E; subst a s; by_compute.
  - simpl. lia.
Defined.

Lemma ex_three_free_list : free_list_is ex_three ex_total ex_three_free.
Proof. split; [constructor; by_compute|]. split; by_compute. Qed.

Lemma ex_three_first_block : allocated_at ex_three ex_total ex_three_free ex_base 28.
Proof.
  split; [by_compute|]. split; [by_compute|]. split; [by_compute|].
  intros a sa [E | []]. inversion E; subst a sa. right. by_compute.
Qed.


(** C3 as the specification words it does not hold: a request of 4060
    bytes on the fresh 4096-byte arena is answered with the whole block and
    the size query says 4072; shrinking a 20-byte block to 10 bytes next to
    an allocated neighbour leaves it at 20. *)
Lemma size_query_exceeds_request :
  ptr_of ex_big = ex_base + 16
  /\ mem_get_size (state_of ex_init ex_big) (ptr_of ex_big) = Done 4072
  /\ ptr_of ex_kept = ptr_of ex_a
  /\ mem_get_size (state_of ex_three ex_kept) (ptr_of ex_kept) = Done 20.
Proof. repeat split; vm_compute; reflexivity. Qed.

Lemma get_size_guard_mismatch_returns_zero_witness :
  (memory_area ex_s6_smashed <= wrap (ex_s6_ptr - MEM_ALL_BLOCK_SIZE)
   /\ wrap (ex_s6_ptr - MEM_ALL_BLOCK_SIZE) + MEM_ALL_BLOCK_SIZE
      <= memory_area ex_s6_smashed + ex_total)
  /\ mem_get_size ex_s6_smashed ex_s6_ptr = Done 0
  /\ (forall fuel, mem_free fuel ex_s6_smashed ex_s6_ptr = AssertFailed)
  /\ (forall fuel size, mem_realloc fuel ex_s6_smashed ex_s6_ptr size = AssertFailed).
Proof.
  apply (get_size_guard_mismatch_returns_zero ex_s6_smashed ex_total ex_s6_ptr).
  - constructor; by_compute.
  - vm_compute. reflexivity.
  - intros _. by_compute.
  - exact ex_s6_guard_broken.
Defined.

(** ** Shrinking by less than a word next to a free block *)

(** On a well-laid-out arena the blocks account for every byte. *)
Lemma layout_block_bytes (m : mem) (hi : Z) (bl : list ablock) :
  forall cur nf, layout m cur nf bl hi -> block_bytes bl = hi - cur.
Proof.
  induction bl as [|b bl IH]; intros cur nf H; cbn [layout] in H; cbn [block_bytes fold_right].
  - destruct H as [-> _]. lia.
  - destruct H as (_ & _ & _ & Hrest). fold (block_bytes bl). consts.
    destruct (b_free b); destruct Hrest as [_ Hrest]; rewrite (IH _ _ Hrest); lia.
Qed.

(** C1 fails on the code.  After three allocations of 20 bytes and the
    release of the second, the free list is the two blocks at offsets 44
    and 132, in order.  [mem_realloc(a, 13)] on the first block succeeds in
    place, and then the free list starts with the block at offset 37 and
    continues with the base of the arena, which is the header of the
    allocated block itself: the store of the new free header at offset 37
    overlaps the [next] field of the old right neighbour at offset 52
    before [remove_block] reads it.  No list of blocks describes the free
    list afterwards as ascending and inside the arena. *)
Theorem shrink_next_to_free_block_breaks_order :
  free_list_is ex_holes ex_total [(ex_base + 44, 28); (ex_base + 132, 3948)]
  /\ is_done ex_shrunk = true
  /\ ptr_of ex_shrunk = ptr_of ex_a
  /\ ptr_of ex_a = ex_base + 16
  /\ free_list_addrs 2 (bytes ex_after_shrink) (free_block_list ex_after_shrink)
     = [ex_base + 37; ex_base]
  /\ strictly_ascending
       (free_list_addrs 2 (bytes ex_after_shrink) (free_block_list ex_after_shrink)) = false
  /\ forall L, ~ free_list_is ex_after_shrink ex_total L.
Proof.
  split; [exact ex_holes_free_list|].
  split; [vm_compute; reflexivity|].
  split; [vm_compute; reflexivity|].
  split; [vm_compute; reflexivity|].
  split; [vm_compute; reflexivity|].
  split; [vm_compute; reflexivity|].
  assert (memory_area ex_after_shrink = ex_base) as EB by (vm_compute; reflexivity).
  assert (free_block_list ex_after_shrink = ex_base + 37) as EH by (vm_compute; reflexivity).
  assert (load64 (bytes ex_after_shrink) (ex_base + 37 + 8) = ex_base) as N1
    by (vm_compute; reflexivity).
  intros L (_ & Hseg & Hsp). rewrite EH in Hseg. rewrite EB in Hsp.
  unfold ex_base in *.
  destruct L as [|[a s] L]; cbn [fseg] in Hseg; [consts; lia|].
  destruct Hseg as (<- & _ & _ & Hn). consts. rewrite N1 in Hn.
  destruct L as [|[a2 s2] L]; cbn [fseg] in Hn; [consts; lia|].
  destruct Hn as (<- & _). cbn [spaced] in Hsp. consts. lia.
Qed.

(** C2 fails on the code, at the same input.  Before the resize the arena
    is four back-to-back blocks that account for all of its 4096 bytes;
    after it no sequence of blocks is consistent with the arena and the
    free list, so no byte count over "the free blocks" and "the allocated
    blocks" is defined, let alone equal to the arena length. *)
Theorem shrink_next_to_free_block_breaks_layout :
  layout (bytes ex_holes) (memory_area ex_holes) (free_block_list ex_holes)
         ex_holes_blocks (memory_area ex_holes + ex_total)
  /\ block_bytes ex_holes_blocks = ex_total
  /\ is_done ex_shrunk = true
  /\ ptr_of ex_shrunk = ptr_of ex_a
  /\ forall bl,
      ~ layout (bytes ex_after_shrink) (memory_area ex_after_shrink)
               (free_block_list ex_after_shrink) bl
               (memory_area ex_after_shrink + ex_total).
Proof.
  split; [exact ex_holes_layout|]. split; [reflexivity|].
  split; [vm_compute; reflexivity|].
  split; [vm_compute; reflexivity|].
  assert (memory_area ex_after_shrink = ex_base) as -> by (vm_compute; reflexivity).
  assert (free_block_list ex_after_shrink = ex_base + 37) as -> by (vm_compute; reflexivity).
  assert (load64 (bytes ex_after_shrink) ex_base = 21) as S0 by (vm_compute; reflexivity).
  assert (load64 (bytes ex_after_shrink) (ex_base + 37) = 35) as S1 by (vm_compute; reflexivity).
  assert (load64 (bytes ex_after_shrink) (ex_base + 37 + 8) = ex_base) as N1
    by (vm_compute; reflexivity).
  assert (load64 (bytes ex_after_shrink) (ex_base + 88) = 28) as S2 by (vm_compute; reflexivity).
  assert (load64 (bytes ex_after_shrink) (ex_base + 132) = 3948) as S3
    by (vm_compute; reflexivity).
  unfold ex_base, ex_total in *.
  intros bl H.
  (* the block at the base *)
  destruct bl as [|b0 bl]; cbn [layout] in H; [destruct H; lia|].
  destruct H as (_ & E0 & _ & H). rewrite S0 in E0. rewrite <- E0 in H.
  destruct (b_free b0); destruct H as [Hnf H]; [lia|]. clear Hnf.
  replace (65536 + 16 + 21) with (65536 + 37) in H by lia.
  (* the block at offset 37, head of the free list *)
  destruct bl as [|b1 bl]; cbn [layout] in H; [destruct H; lia|].
  destruct H as (_ & E1 & _ & H). rewrite S1 in E1. rewrite <- E1 in H.
  destruct (b_free b1); destruct H as [Hnf H]; [|lia]. clear Hnf.
  consts. rewrite N1 in H.
  replace (65536 + 37 + 16 + 35) with (65536 + 88) in H by lia.
  (* the block at offset 88 *)
  destruct bl as [|b2 bl]; cbn [layout] in H; [destruct H; lia|].
  destruct H as (_ & E2 & _ & H). rewrite S2 in E2. rewrite <- E2 in H.
  destruct (b_free b2); destruct H as [Hnf H]; [lia|]. clear Hnf.
  replace (65536 + 88 + 16 + 28) with (65536 + 132) in H by lia.
  (* the block at offset 132 *)
  destruct bl as [|b3 bl]; cbn [layout] in H; [destruct H; lia|].
  destruct H as (_ & E3 & _ & H). rewrite S3 in E3. rewrite <- E3 in H.
  destruct (b_free b3); destruct H as [Hnf H]; [lia|]. clear Hnf.
  replace (65536 + 132 + 16 + 3948) with (65536 + 4096) in H by lia.
  (* the end of the arena, with the free list still pointing at the base *)
  destruct bl as [|b4 bl]; cbn [layout] in H.
  - destruct H as [_ H]. consts. lia.
  - destruct H as (_ & E4 & Hend & _).
    pose proof (load64_range (bytes ex_after_shrink) (65536 + 4096)). lia.
Qed.

(** * The placement policies in full *)

Lemma mem_first_fit_choice (m : mem) (req : Z) (L : list blk) :
  forall p fuel,
    fseg m p L NULL -> (length L < fuel)%nat ->
    exists r, mem_first_fit fuel m p req = Done r /\ policy_choice FirstFit req L r.
Proof.
  induction L as [|[a sa] L IH]; intros p fuel Hseg Hfuel;
    (destruct fuel as [|fuel]; [simpl in Hfuel; lia|]); simpl in *.
  - rewrite Hseg. exists NULL. split; [reflexivity|]. left. split; [reflexivity|].
    intros a s [].
  - destruct Hseg as (Hp & Ha & Hs & Hn). subst p.
    replace (a =? NULL) with false by (symmetry; apply Z.eqb_neq; exact Ha).
    rewrite Hs. destruct (sa >=? req) eqn:E.
    + exists a. split; [reflexivity|]. right. exists sa, [], L.
      split; [reflexivity|]. split; [apply Z.geb_le in E; exact E|].
      intros a' s' [].
    + rewrite Z.geb_leb in E. apply Z.leb_gt in E.
      destruct (IH _ fuel Hn ltac:(lia)) as [r [E1 E2]].
      exists r. split; [exact E1|].
      destruct E2 as [[-> Hall] | (s & W1 & W2 & -> & Hreq & Hbefore)].
      * left. split; [reflexivity|].
        intros a' s' [Hin | Hin]; [inversion Hin; subst; left; exact E|apply (Hall _ _ Hin)].
      * right. exists s, ((a, sa) :: W1), W2. split; [reflexivity|]. split; [exact Hreq|].
        intros a' s' [Hin | Hin]; [inversion Hin; subst; exact E|apply (Hbefore _ _ Hin)].
Qed.

Lemma worst_so_far_step (req : Z) (P : list blk) (worst wsz a s : Z) :
  0 <= s ->
  worst_so_far req P worst wsz ->
  if (s >=? req) && (s >? wsz)
  then worst_so_far req (P ++ [(a, s)]) a s
  else worst_so_far req (P ++ [(a, s)]) worst wsz.
Proof.
  intros Hs Hinv.
  destruct ((s >=? req) && (s >? wsz)) eqn:E.
  - apply andb_prop in E. destruct E as [E1 E2].
    apply Z.geb_le in E1. rewrite Z.gtb_ltb in E2. apply Z.ltb_lt in E2.
    right. exists P, []. split; [reflexivity|]. split; [exact E1|].
    destruct Hinv as [(_ & -> & Hall) | (P1 & P2 & -> & Hb & Hpos & H1 & H2)].
    + split; [lia|]. split; [|intros a' s' []].
      intros a' s' Hin Hreq. destruct (Hall _ _ Hin); lia.
    + split; [lia|]. split; [|intros a' s' []].
      intros a' s' Hin Hreq. apply in_app_or in Hin. destruct Hin as [Hin | [Hin | Hin]].
      * specialize (H1 _ _ Hin Hreq). lia.
      * inversion Hin; subst. lia.
      * specialize (H2 _ _ Hin Hreq). lia.
  - apply andb_false_iff in E.
    assert (s < req \/ s <= wsz) as E'.
    { destruct E as [E | E].
      - left. rewrite Z.geb_leb in E. apply Z.leb_gt in E. exact E.
      - right. rewrite Z.gtb_ltb in E. apply Z.ltb_ge in E. exact E. }
    destruct Hinv as [(-> & -> & Hall) | (P1 & P2 & -> & Hb & Hpos & H1 & H2)].
    + left. split; [reflexivity|]. split; [reflexivity|].
      intros a' s' Hin. apply in_app_or in Hin. destruct Hin as [Hin | [Hin | []]].
      * apply (Hall _ _ Hin).
      * inversion Hin; subst a' s'. lia.
    + right. exists P1, (P2 ++ [(a, s)]). split; [rewrite <- app_assoc; reflexivity|].
      split; [exact Hb|]. split; [exact Hpos|]. split; [exact H1|].
      intros a' s' Hin Hreq. apply in_app_or in Hin. destruct Hin as [Hin | [Hin | []]].
      * apply (H2 _ _ Hin Hreq).
      * inversion Hin; subst a' s'. lia.
Qed.

Lemma worst_fit_loop_choice (m : mem) (req : Z) (L : list blk) :
  forall p fuel worst wsz P,
    fseg m p L NULL -> (length L < fuel)%nat ->
    worst_so_far req P worst wsz ->
    exists r, worst_fit_loop fuel m p req worst wsz = Done r
              /\ policy_choice WorstFit req (P ++ L) r.
Proof.
  induction L as [|[a sa] L IH]; intros p fuel worst wsz P Hseg Hfuel Hinv;
    (destruct fuel as [|fuel]; [simpl in Hfuel; lia|]); simpl in *.
  - rewrite Hseg. exists worst. split; [reflexivity|]. rewrite app_nil_r.
    destruct Hinv as [(-> & _ & Hall) | (P1 & P2 & -> & Hb & Hpos & H1 & H2)].
    + left. split; [reflexivity|].
      intros a s Hin. destruct (Hall _ _ Hin); [left; assumption|right; split; [reflexivity|assumption]].
    + right. exists wsz, P1, P2. repeat split; assumption.
  - destruct Hseg as (Hp & Ha & Hs & Hn). subst p.
    replace (a =? NULL) with false by (symmetry; apply Z.eqb_neq; exact Ha).
    rewrite Hs.
    assert (0 <= sa) as Hsa by (rewrite <- Hs; apply load64_range).
    pose proof (worst_so_far_step req P worst wsz a sa Hsa Hinv) as Hstep.
    destruct ((sa >=? req) && (sa >? wsz)).
    + destruct (IH _ fuel a sa _ Hn ltac:(lia) Hstep) as [r [E1 E2]].
      exists r. split; [exact E1|]. rewrite <- app_assoc in E2. exact E2.
    + destruct (IH _ fuel worst wsz _ Hn ltac:(lia) Hstep) as [r [E1 E2]].
      exists r. split; [exact E1|]. rewrite <- app_assoc in E2. exact E2.
Qed.

Lemma mem_worst_fit_choice (m : mem) (req p : Z) (L : list blk) (fuel : nat) :
  fseg m p L NULL -> (length L < fuel)%nat ->
  exists r, mem_worst_fit fuel m p req = Done r /\ policy_choice WorstFit req L r.
Proof.
  intros Hseg Hfuel.
  apply (worst_fit_loop_choice m req L p fuel NULL 0 [] Hseg Hfuel).
  left. split; [reflexivity|]. split; [reflexivity|]. intros a s [].
Qed.

(** Whatever the policy, the block returned is the one [picks] describes. *)
Lemma call_fit_policy (f : mem_fit_function_t) (m : mem) (p req : Z) (L : list blk)
      (fuel : nat) :
  fseg m p L NULL -> (length L < fuel)%nat ->
  (forall a s, In (a, s) L -> s < SIZE_MAX) ->
  exists r, call_fit f fuel m p req = Done r /\ policy_choice f req L r.
Proof.
  intros Hseg Hfuel Hmax. destruct f; cbn [call_fit].
  - apply mem_first_fit_choice; assumption.
  - destruct (mem_best_fit_choice m req p L fuel Hseg Hfuel Hmax) as [r [E Hch]].
    exists r. split; [exact E|].
    destruct Hch as [[-> Hall] | (s & W1 & W2 & -> & Hreq & H1 & H2)].
    + left. split; [reflexivity|]. intros a s Hin. left. apply (Hall _ _ Hin).
    + right. exists s, W1, W2. split; [reflexivity|]. split; [exact Hreq|].
      split; assumption.
  - apply mem_worst_fit_choice; assumption.
Qed.

(** A block of a linked list: its address is not [NULL] and its [size]
    field is as listed. *)
Lemma fseg_middle (m : mem) (W1 W2 : list blk) (p q r s : Z) :
  fseg m p (W1 ++ (r, s) :: W2) q -> r <> NULL /\ load64 m r = s.
Proof.
  intro Hseg. apply fseg_app in Hseg. destruct Hseg as [t [_ Ht]]. lsimpl.
  destruct Ht as (_ & Hnz & Hsz & _). split; assumption.
Qed.

(** X1: [mem_first_fit] returns [NULL] exactly when every block of the
    list is smaller than the request; otherwise it returns the first block
    met whose size is at least the request, every block before it being
    too small.  In an address-ordered list that is the fitting block of
    lowest address. *)
Theorem mem_first_fit_lowest_fitting (m : mem) (L : list blk) (fuel : nat) (list req : Z) :
  fseg m list L NULL ->
  (length L < fuel)%nat ->
  exists r,
    mem_first_fit fuel m list req = Done r
    /\ ((r = NULL /\ forall a s, In (a, s) L -> s < req)
        \/ (r <> NULL
            /\ exists s W1 W2,
                L = W1 ++ (r, s) :: W2 /\ load64 m r = s /\ req <= s
                /\ (forall a' s', In (a', s') W1 -> s' < req)
                /\ (forall lo hi, spaced lo L hi ->
                                  forall a' s', In (a', s') L -> req <= s' -> r <= a'))).
Proof.
  intros Hseg Hfuel.
  destruct (mem_first_fit_choice m req L list fuel Hseg Hfuel) as [r [Hrun Hch]].
  exists r. split; [exact Hrun|].
  destruct Hch as [[-> Hall] | (s & W1 & W2 & -> & Hreq & H1)].
  - left. split; [reflexivity|]. intros a s Hin.
    destruct (Hall a s Hin) as [H | [H _]]; [exact H|discriminate H].
  - right. destruct (fseg_middle _ _ _ _ _ _ _ Hseg) as [Hnz Hsz].
    split; [exact Hnz|]. exists s, W1, W2.
    split; [reflexivity|]. split; [exact Hsz|]. split; [exact Hreq|]. split; [exact H1|].
    intros lo hi Hsp a' s' Hin Hfit.
    destruct (spaced_order W1 W2 r s lo hi Hsp) as (O1 & O2 & O3).
    apply in_app_or in Hin. destruct Hin as [Hin | [Hin | Hin]].
    + specialize (H1 _ _ Hin). lia.
    + inversion Hin; subst. lia.
    + specialize (O2 _ _ Hin). pose proof (spaced_In _ _ _ _ _ Hsp
        ltac:(apply in_or_app; right; left; reflexivity) : lo <= r /\ 0 <= s /\ r + 16 + s <= hi).
      lia.
Qed.

(** X2: [mem_worst_fit] returns a block of largest size among those of
    size at least the request, the first met when several share that
    size (the lowest address in an address-ordered list).  Its running
    maximum starts at 0 and is compared strictly, so a block whose size is
    0 is never returned, not even for a request of 0: [NULL] is the answer
    exactly when every block is smaller than the request or empty. *)
Theorem mem_worst_fit_largest_fitting (m : mem) (L : list blk) (fuel : nat) (list req : Z) :
  fseg m list L NULL ->
  (length L < fuel)%nat ->
  exists r,
    mem_worst_fit fuel m list req = Done r
    /\ ((r = NULL /\ forall a s, In (a, s) L -> s < req \/ s = 0)
        \/ (r <> NULL
            /\ exists s W1 W2,
                L = W1 ++ (r, s) :: W2 /\ load64 m r = s /\ req <= s /\ 0 < s
                /\ (forall a' s', In (a', s') W1 -> req <= s' -> s' < s)
                /\ (forall a' s', In (a', s') W2 -> req <= s' -> s' <= s)
                /\ (forall lo hi, spaced lo L hi ->
                                  forall a' s', In (a', s') L -> req <= s' ->
                                                s' < s \/ (s' = s /\ r <= a')))).
Proof.
  intros Hseg Hfuel.
  destruct (mem_worst_fit_choice m req list L fuel Hseg Hfuel) as [r [Hrun Hch]].
  exists r. split; [exact Hrun|].
  destruct Hch as [[-> Hall] | (s & W1 & W2 & -> & Hreq & Hpos & H1 & H2)].
  - left. split; [reflexivity|]. intros a s Hin.
    destruct (Hall a s Hin) as [H | [_ H]]; [left|right]; exact H.
  - right. destruct (fseg_middle _ _ _ _ _ _ _ Hseg) as [Hnz Hsz].
    split; [exact Hnz|]. exists s, W1, W2.
    split; [reflexivity|]. split; [exact Hsz|]. split; [exact Hreq|]. split; [exact Hpos|].
    split; [exact H1|]. split; [exact H2|].
    intros lo hi Hsp a' s' Hin Hfit.
    destruct (spaced_order W1 W2 r s lo hi Hsp) as (O1 & O2 & O3).
    apply in_app_or in Hin. destruct Hin as [Hin | [Hin | Hin]].
    + left. apply (H1 _ _ Hin Hfit).
    + inversion Hin; subst. right. split; [reflexivity|lia].
    + specialize (H2 _ _ Hin Hfit). specialize (O2 _ _ Hin).
      destruct (Z.eq_dec s s') as [E | E]; [right; split; [symmetry; exact E|] | left]; lia.
Qed.

(** * Allocation: which block, and what it leaves alone *)

(** In an address-ordered list a block occurs at one place only. *)
Lemma split_unique (L1 : list blk) :
  forall (W1 L2 W2 : list blk) (b s1 s2 lo hi : Z),
    spaced lo (L1 ++ (b, s1) :: L2) hi ->
    L1 ++ (b, s1) :: L2 = W1 ++ (b, s2) :: W2 ->
    L1 = W1 /\ s1 = s2 /\ L2 = W2.
Proof.
  induction L1 as [|[a sa] L1 IH]; intros W1 L2 W2 b s1 s2 lo hi Hsp Heq.
  - destruct W1 as [|[a' sa'] W1]; cbn [app] in Heq.
    + inversion Heq. repeat split; reflexivity.
    + inversion Heq; subst a' sa' L2.
      destruct (spaced_order [] (W1 ++ (b, s2) :: W2) b s1 lo hi Hsp) as (_ & O2 & _).
      specialize (O2 b s2 ltac:(apply in_or_app; right; left; reflexivity)).
      pose proof (spaced_In _ _ _ _ _ Hsp (or_introl eq_refl)). lia.
  - destruct W1 as [|[a' sa'] W1]; cbn [app] in Heq.
    + inversion Heq; subst a sa W2.
      destruct (spaced_order [] (L1 ++ (b, s1) :: L2) b s2 lo hi Hsp) as (_ & O2 & _).
      specialize (O2 b s1 ltac:(apply in_or_app; right; left; reflexivity)).
      pose proof (spaced_In _ _ _ _ _ Hsp (or_introl eq_refl)). lia.
    + inversion Heq; subst a' sa'.
      cbn [app spaced] in Hsp. destruct Hsp as (_ & _ & _ & Hsp).
      destruct (IH W1 L2 W2 b s1 s2 _ _ Hsp H2) as (-> & -> & ->).
      repeat split; reflexivity.
Qed.

(** The pointer [mem_alloc] returns is the payload of the block its policy
    returned. *)
Lemma mem_alloc_ptr (fuel : nat) (st : state) (s r : Z) :
  call_fit (current_fit_function st) fuel (bytes st) (free_block_list st)
           (wrap (wrap (s + SECRET_SIZE) + MEM_FREE_ALL_DIFF)) = Done r ->
  is_done (mem_alloc fuel st s) = true ->
  ptr_of (mem_alloc fuel st s) = if r =? NULL then NULL else wrap (r + MEM_ALL_BLOCK_SIZE).
Proof.
  intros Hfit. unfold mem_alloc. cbv zeta. rewrite Hfit. cbn [bind].
  destruct (r =? NULL); [reflexivity|].
  destruct (search_block fuel (bytes st) r (free_block_list_addr st)) as [a| |];
    cbn [bind]; [|intro H; discriminate H|intro H; discriminate H].
  intros _.
  destruct (wrap (wrap (load64 (remove_block (bytes st) r a) r - wrap (s + SECRET_SIZE))
                  - MEM_FREE_ALL_DIFF) <=? wrap (MEM_MAX_BLOCK_SIZE + SECRET_SIZE));
    reflexivity.
Qed.

Lemma mem_alloc_returns_fit (fuel : nat) (st : state) (s r p : Z) (st1 : state) :
  call_fit (current_fit_function st) fuel (bytes st) (free_block_list st)
           (wrap (wrap (s + SECRET_SIZE) + MEM_FREE_ALL_DIFF)) = Done r ->
  mem_alloc fuel st s = Done (p, st1) ->
  (r = NULL /\ p = NULL) \/ (r <> NULL /\ p = wrap (r + MEM_ALL_BLOCK_SIZE)).
Proof.
  intros Hfit Hrun.
  pose proof (mem_alloc_ptr fuel st s r Hfit) as Hp.
  rewrite Hrun in Hp. specialize (Hp eq_refl). change (ptr_of (Done (p, st1))) with p in Hp.
  destruct (r =? NULL) eqn:E.
  - apply Z.eqb_eq in E. left. split; assumption.
  - apply Z.eqb_neq in E. right. split; assumption.
Qed.

Lemma mem_alloc_policy_spec (fuel : nat) (st : state) (N : Z) (L : list blk) (s : Z) :
  free_list_is st N L -> (length L < fuel)%nat ->
  let e := wrap (s + SECRET_SIZE) in
  (nothing_fits (current_fit_function st) e L /\ mem_alloc fuel st s = Done (NULL, st))
  \/ exists L1 b sz L2 m',
      L = L1 ++ (b, sz) :: L2 /\ picks (current_fit_function st) e L1 sz L2
      /\ mem_alloc fuel st s = Done (b + 16, with_bytes st m')
      /\ alloc_post st N L1 b sz L2 e m'.
Proof.
  intros Hinv Hfuel e.
  pose proof Hinv as (Hok & Hseg & Hsp).
  pose proof Hok as [Hhead_lo Hhead_hi Htop Hmin Hmax Hsecret].
  destruct (call_fit_policy (current_fit_function st) (bytes st) (free_block_list st) e L fuel
              Hseg Hfuel) as [r [Hfit Hch]].
  { apply (spaced_size_bound L (memory_area st) (memory_area st + N)); try assumption; lia. }
  assert (wrap (wrap (s + SECRET_SIZE) + MEM_FREE_ALL_DIFF) = e) as Ereq.
  { fold e. consts. rewrite Z.add_0_r. apply wrap_small. apply wrap_range. }
  destruct (mem_alloc_spec fuel st N L s Hinv Hfuel)
    as [[Hnull Hrun] | (L1 & b & sz & L2 & m' & EL & Hfits & Hrun & Hpost)].
  - left. split; [|exact Hrun]. fold e in Hnull.
    rewrite Hnull in Hfit. inversion Hfit; subst r.
    destruct Hch as [[_ Hall] | (s' & W1 & W2 & EW & _)]; [exact Hall|].
    rewrite EW in Hseg. destruct (fseg_middle _ _ _ _ _ _ _ Hseg) as [Hnz _].
    exfalso. apply Hnz. reflexivity.
  - right. fold e in Hfits. rewrite <- Ereq in Hfit.
    pose proof (mem_alloc_returns_fit fuel st s r (b + 16) _ Hfit Hrun) as Hret.
    rewrite EL in Hsp.
    pose proof (spaced_In _ _ _ _ _ Hsp
                  ltac:(apply in_or_app; right; left; reflexivity)
                : memory_area st <= b /\ 0 <= sz /\ b + 16 + sz <= memory_area st + N) as Hb.
    destruct Hret as [[_ Hp] | [Hnz Hp]]; [consts; lia|].
    destruct Hch as [[-> _] | (s' & W1 & W2 & EW & Hpicks)]; [exfalso; apply Hnz; reflexivity|].
    rewrite EL in EW.
    pose proof Hsp as Hsp'. rewrite EW in Hsp'.
    pose proof (spaced_In _ _ _ _ _ Hsp'
                  ltac:(apply in_or_app; right; left; reflexivity)
                : memory_area st <= r /\ 0 <= s' /\ r + 16 + s' <= memory_area st + N) as Hr.
    consts. rewrite (wrap_small (r + 16)) in Hp by lia.
    assert (r = b) as -> by lia.
    destruct (split_unique L1 W1 L2 W2 b sz s' _ _ Hsp EW) as (-> & -> & ->).
    exists W1, b, s', W2, m'.
    split; [exact EL|]. split; [exact Hpicks|]. split; [exact Hrun|exact Hpost].
Qed.

Lemma free_list_is_set_fit_handler (st : state) (N : Z) (L : list blk)
      (f : mem_fit_function_t) :
  free_list_is st N L -> free_list_is (mem_set_fit_handler st f) N L.
Proof.
  intros (Hok & Hseg & Hsp). split; [|split; assumption].
  destruct Hok. constructor; assumption.
Qed.

(** X3: after [mem_set_fit_handler(f)], [mem_alloc] places the request as
    policy [f] says, on the effective size [e] (request plus guard, modulo
    2^64).  It returns [NULL] and changes nothing exactly when the policy
    finds no block; otherwise the block it hands out starts at the block
    the policy picks: the first fitting block for first fit, the first of
    least fitting size for best fit, the first of greatest fitting size
    for worst fit.  The free list afterwards is the old one without that
    block, plus its tail when more than 24 bytes were left over. *)
Theorem mem_alloc_follows_policy
        (fuel : nat) (st : state) (N : Z) (L : list blk) (f : mem_fit_function_t) (s : Z) :
  free_list_is st N L -> (length L < fuel)%nat ->
  let e := wrap (s + SECRET_SIZE) in
  exists r st1,
    mem_alloc fuel (mem_set_fit_handler st f) s = Done (r, st1)
    /\ ((r = NULL /\ st1 = mem_set_fit_handler st f /\ nothing_fits f e L)
        \/ (r <> NULL
            /\ exists sz W1 W2,
                L = W1 ++ (r - 16, sz) :: W2 /\ picks f e W1 sz W2
                /\ free_list_is st1 N (alloc_list W1 (r - 16) sz e W2))).
Proof.
  intros Hinv Hfuel e.
  pose proof (free_list_is_set_fit_handler st N L f Hinv) as Hinv'.
  destruct (mem_alloc_policy_spec fuel (mem_set_fit_handler st f) N L s Hinv' Hfuel)
    as [[Hnone Hrun] | (L1 & b & sz & L2 & m' & EL & Hpicks & Hrun & Hpost)].
  - exists NULL, (mem_set_fit_handler st f). split; [exact Hrun|]. left.
    split; [reflexivity|]. split; [reflexivity|exact Hnone].
  - exists (b + 16), (with_bytes (mem_set_fit_handler st f) m'). split; [exact Hrun|]. right.
    destruct Hinv as (Hok & _ & Hsp). rewrite EL in Hsp.
    pose proof (spaced_In _ _ _ _ _ Hsp
                  ltac:(apply in_or_app; right; left; reflexivity)
                : memory_area st <= b /\ 0 <= sz /\ b + 16 + sz <= memory_area st + N) as Hb.
    pose proof (ao_head_lo _ _ Hok). pose proof (ao_head_hi _ _ Hok).
    split; [consts; lia|].
    replace (b + 16 - 16) with b by lia.
    exists sz, L1, L2. split; [exact EL|]. split; [exact Hpicks|].
    apply (ap_list _ _ _ _ _ _ _ _ Hpost).
Qed.

(** The size query reads the block at [q] only. *)
Lemma mem_get_size_ext (st : state) (m' : mem) (q sq : Z) :
  0 <= q -> 0 <= sq -> q + 16 + sq < 2 ^ 64 ->
  load64 (bytes st) q = sq ->
  (forall y, q <= y < q + 16 + sq -> m' y = bytes st y) ->
  mem_get_size (with_bytes st m') (q + 16) = mem_get_size st (q + 16).
Proof.
  intros Hq Hsq Htop Hsize Hsame.
  unfold mem_get_size, out_of_area, guard_of.
  cbn [bytes with_bytes MEM_SPACE_MIN MEM_SPACE_MAX secret_number]. consts_goal.
  replace (q + 16 - 16) with q by lia. rewrite (wrap_small q) by lia.
  assert (load64 m' q = sq) as Hsize'
    by (rewrite <- Hsize; apply load64_ext; intros i Hi; apply Hsame; lia).
  rewrite Hsize, Hsize'. rewrite (wrap_small (q + 16 + sq - 8)) by lia.
  replace (load64 m' (q + 8)) with (load64 (bytes st) (q + 8))
    by (symmetry; apply load64_ext; intros i Hi; apply Hsame; lia).
  replace (load64 m' (q + 16 + sq - 8)) with (load64 (bytes st) (q + 16 + sq - 8))
    by (symmetry; apply load64_ext; intros i Hi; apply Hsame; lia).
  reflexivity.
Qed.

(** X4: [mem_alloc] never touches a live block.  For every allocated
    block [q] (inside the arena, outside every free block) all its bytes,
    header and guards included, are the same afterwards, so the size query
    on it answers as before; and the block handed out lies inside the
    arena, outside every free block of the new list and outside [q]. *)
Theorem mem_alloc_keeps_live_blocks
        (fuel : nat) (st : state) (N : Z) (L : list blk) (s q sq : Z) :
  free_list_is st N L -> (length L < fuel)%nat ->
  allocated_at st N L q sq -> 0 <= sq ->
  exists r st1,
    mem_alloc fuel st s = Done (r, st1)
    /\ (forall y, q <= y < q + 16 + sq -> bytes st1 y = bytes st y)
    /\ mem_get_size st1 (q + 16) = mem_get_size st (q + 16)
    /\ (r <> NULL ->
        exists L' size,
          free_list_is st1 N L' /\ allocated_at st1 N L' q sq
          /\ allocated_at st1 N L' (r - 16) size
          /\ (r + size <= q \/ q + 16 + sq <= r - 16)).
Proof.
  intros Hinv Hfuel Hlive Hsq.
  pose proof Hinv as (Hok & Hseg & Hsp).
  pose proof Hok as [Hhead_lo Hhead_hi Htop Hmin Hmax Hsecret].
  destruct Hlive as (Hq_lo & Hq_size & Hq_hi & Hq_dis). consts.
  destruct (mem_alloc_spec fuel st N L s Hinv Hfuel)
    as [[_ Hrun] | (L1 & b & sz & L2 & m' & EL & Hfits & Hrun & Hpost)].
  - exists NULL, st. split; [exact Hrun|]. split; [reflexivity|]. split; [reflexivity|].
    intro H. exfalso. apply H. reflexivity.
  - set (e := wrap (s + SECRET_SIZE)) in *.
    pose proof (wrap_range (s + SECRET_SIZE)) as He. fold e in He.
    rewrite EL in Hsp.
    pose proof (spaced_order _ _ _ _ _ _ Hsp) as (O1 & O2 & O3 & O4 & O5).
    destruct Hpost as [Plist Psize _ Pframe].
    assert (b + 16 + sz <= q \/ q + 16 + sq <= b) as Hqb
      by (apply (Hq_dis b sz); rewrite EL; apply in_or_app; right; left; reflexivity).
    assert (forall y, q <= y < q + 16 + sq -> m' y = bytes st y) as Hsame.
    { intros y Hy. apply Pframe; try lia.
      intros a sa Hin.
      pose proof (spaced_In _ _ _ _ _ Hsp ltac:(apply in_or_app; left; exact Hin)
                  : memory_area st <= a /\ 0 <= sa /\ a + 16 + sa <= memory_area st + N).
      destruct (Hq_dis a sa ltac:(rewrite EL; apply in_or_app; left; exact Hin)); lia. }
    exists (b + 16), (with_bytes st m'). split; [exact Hrun|]. split; [exact Hsame|].
    split; [apply (mem_get_size_ext st m' q sq); try assumption; lia|].
    intros _. exists (alloc_list L1 b sz e L2), (alloc_take sz e).
    split; [exact Plist|].
    replace (b + 16 - 16) with b by lia.
    assert (e <= alloc_take sz e <= sz) as Htake
      by (unfold alloc_take; destruct (sz - e <=? 24); lia).
    split; [|split].
    + split; [exact Hq_lo|]. split.
      * cbn [bytes with_bytes]. rewrite <- Hq_size. apply load64_ext.
        intros i Hi. apply Hsame. lia.
      * split; [exact Hq_hi|]. consts_goal.
        intros a sa Hin. unfold alloc_list in Hin.
        destruct (sz - e <=? 24) eqn:Eb.
        -- apply (Hq_dis a sa). rewrite EL. apply in_app_or in Hin.
           apply in_or_app. destruct Hin as [Hin | Hin]; [left|right; right]; exact Hin.
        -- apply Z.leb_gt in Eb. apply in_app_or in Hin. destruct Hin as [Hin | [E | Hin]].
           ++ apply (Hq_dis a sa). rewrite EL. apply in_or_app. left. exact Hin.
           ++ inversion E; subst a sa. lia.
           ++ apply (Hq_dis a sa). rewrite EL. apply in_or_app. right. right. exact Hin.
    + split; [cbn [memory_area with_bytes]; lia|]. split; [exact Psize|].
      split; [cbn [memory_area with_bytes]; consts_goal; lia|]. consts_goal.
      intros a sa Hin. unfold alloc_list in Hin.
      destruct (sz - e <=? 24) eqn:Eb.
      * apply in_app_or in Hin. destruct Hin as [Hin | Hin].
        -- specialize (O1 a sa Hin). lia.
        -- specialize (O2 a sa Hin). lia.
      * apply Z.leb_gt in Eb. unfold alloc_take. rewrite (proj2 (Z.leb_gt _ _) Eb).
        apply in_app_or in Hin. destruct Hin as [Hin | [E | Hin]].
        -- specialize (O1 a sa Hin). lia.
        -- inversion E; subst a sa. lia.
        -- specialize (O2 a sa Hin). lia.
    + lia.
Qed.

(** * Release: merging, and what it leaves alone *)

(** X5: [mem_free] of a live block whose guards are intact puts the block
    on the free list at its place in address order, merged with the free
    block that ends where it starts and with the free block that starts
    where it ends, when there are such.  The list stays well formed, one
    of its blocks covers the released bytes, and every other live block
    keeps all its bytes and stays outside every free block. *)
Theorem mem_free_releases_block
        (fuel : nat) (st : state) (N : Z) (L : list blk) (p s : Z) :
  free_list_is st N L -> (length L < fuel)%nat ->
  allocated_at st N L p s -> guards_ok st p -> 8 <= s ->
  exists st1 L1 L2,
    mem_free fuel st (p + 16) = Done st1
    /\ L = L1 ++ L2
    /\ (forall a sa, In (a, sa) L1 -> a + 16 + sa <= p)
    /\ (forall c sc, In (c, sc) L2 -> p + 16 + s <= c)
    /\ free_list_is st1 N (coalesce L1 (p, s) L2)
    /\ (exists a sa, In (a, sa) (coalesce L1 (p, s) L2) /\ a <= p /\ p + 16 + s <= a + 16 + sa)
    /\ forall q sq,
        allocated_at st N L q sq -> 0 <= sq ->
        q + 16 + sq <= p \/ p + 16 + s <= q ->
        (forall y, q <= y < q + 16 + sq -> bytes st1 y = bytes st y)
        /\ allocated_at st1 N (coalesce L1 (p, s) L2) q sq
        /\ mem_get_size st1 (q + 16) = mem_get_size st (q + 16).
Proof.
  intros Hinv Hfuel Hlive Hguards Hs.
  pose proof Hinv as (Hok & Hseg & Hsp).
  pose proof Hok as [Hhead_lo Hhead_hi Htop Hmin Hmax Hsecret].
  destruct Hlive as (Hp_lo & Hp_size & Hp_hi & Hdis). consts.
  destruct (split_around p s L _ _ Hsp ltac:(lia) Hdis) as (L1 & L2 & EL & A1 & A2).
  subst L.
  destruct (mem_free_spec fuel st N L1 L2 p s Hinv Hfuel Hp_lo Hp_size Hp_hi A1 A2
              Hguards ltac:(rewrite Hmax; lia))
    as (m' & Hfree & Hlist & Hframe).
  pose proof Hsp as Hsp'. apply spaced_app in Hsp'. destruct Hsp' as (Sp1 & Sp2).
  pose proof (past_ge L1 _ _ Sp1) as Hpast.
  assert (spaced (memory_area st) L2 (memory_area st + N)) as Sp2'
    by (apply (spaced_weaken L2 (past (memory_area st) L1) _ (memory_area st + N) _);
        try lia; exact Sp2).
  exists (with_bytes st m'), L1, L2.
  split; [exact Hfree|]. split; [reflexivity|]. split; [exact A1|]. split; [exact A2|].
  split; [exact Hlist|].
  split; [apply (coalesce_covers L1 L2 p s _ _ Sp1 Sp2'); lia|].
  intros q sq (Hq_lo & Hq_size & Hq_hi & Hq_dis) Hsq Hqp. consts.
  assert (forall y, q <= y < q + 16 + sq -> m' y = bytes st y) as Hsame.
  { intros y Hy. apply Hframe; try lia.
    intros a sa Hin.
    pose proof (spaced_In _ _ _ _ _ Sp1 Hin).
    destruct (Hq_dis a sa ltac:(apply in_or_app; left; exact Hin)); lia. }
  split; [exact Hsame|]. split.
  - split; [exact Hq_lo|]. split.
    + cbn [bytes with_bytes]. rewrite <- Hq_size. apply load64_ext.
      intros i Hi. apply Hsame. lia.
    + split; [exact Hq_hi|]. consts_goal.
      apply (coalesce_outside L1 L2 p s q (q + 16 + sq)); try lia.
      * intros a sa Hin. apply (Hq_dis a sa). apply in_or_app. left. exact Hin.
      * intros c sc Hin. apply (Hq_dis c sc). apply in_or_app. right. exact Hin.
  - apply (mem_get_size_ext st m' q sq); try assumption; lia.
Qed.

(** After the release of a live block of size [old], a request whose
    effective size is at most [old] is served, whatever the policy. *)
Lemma alloc_after_free
      (fuel : nat) (st : state) (N : Z) (L : list blk) (p old : Z) :
  free_list_is st N L -> (S (length L) < fuel)%nat ->
  allocated_at st N L p old -> guards_ok st p -> 8 <= old ->
  exists st0,
    mem_free fuel st (p + 16) = Done st0
    /\ forall s, 0 <= s -> s + 8 <= old ->
        exists r st1,
          mem_alloc fuel st0 s = Done (r, st1)
          /\ r <> NULL
          /\ (exists u, mem_get_size st1 r = Done u /\ s <= u <= s + 24)
          /\ exists L', free_list_is st1 N L'.
Proof.
  intros Hinv Hfuel Halloc Hguards Hold.
  pose proof Halloc as (Hp_lo & Hp_size & Hp_hi & Hdis).
  pose proof Hinv as (Hok & Hseg & Hsp).
  pose proof Hok as [Hhead_lo Hhead_hi Htop Hmin Hmax Hsecret].
  consts.
  destruct (split_around p old L _ _ Hsp ltac:(lia) Hdis) as (L1 & L2 & -> & A1 & A2).
  destruct (mem_free_spec fuel st N L1 L2 p old Hinv ltac:(lia) Hp_lo Hp_size Hp_hi A1 A2
              Hguards ltac:(rewrite Hmax; lia))
    as (m' & Hfree & Hlist & _).
  pose proof (coalesce_length L1 L2 (p, old)) as Hlen.
  pose proof Hsp as Hsp'. apply spaced_app in Hsp'. destruct Hsp' as (Sp1 & Sp2).
  pose proof (past_ge L1 _ _ Sp1) as Hpast.
  destruct (coalesce_covers L1 L2 p old (memory_area st) (memory_area st + N) Sp1)
    as (a & sa & Hin & Ha & Hb); [|lia|].
  { apply (spaced_weaken L2 (past (memory_area st) L1) _ (memory_area st + N) _);
      try lia; exact Sp2. }
  exists (with_bytes st m'). split; [exact Hfree|].
  intros s Hs0 Hs.
  assert (forall r st1, mem_alloc fuel (with_bytes st m') s = Done (r, st1) -> r <> NULL)
    as Hnonnull.
  { intros r st1 Hrun.
    destruct (mem_alloc_policy_spec fuel (with_bytes st m') N _ s Hlist ltac:(lia))
      as [[Hnone _] | (La & b & sz & Lb & m'' & EL & _ & Hrun' & _)].
    - exfalso. consts. rewrite (wrap_small (s + 8)) in Hnone by lia.
      destruct (Hnone a sa Hin) as [H | [_ H]]; lia.
    - destruct Hlist as (_ & _ & Hspc). rewrite EL in Hspc.
      pose proof (spaced_In _ _ _ _ _ Hspc
                    ltac:(apply in_or_app; right; left; reflexivity)
                  : memory_area (with_bytes st m') <= b /\ 0 <= sz
                    /\ b + 16 + sz <= memory_area (with_bytes st m') + N) as Hbb.
      cbn [memory_area with_bytes] in Hbb.
      assert (r = b + 16) as -> by congruence. consts. lia. }
  destruct (alloc_size_spec fuel (with_bytes st m') N _ s Hlist ltac:(lia) Hs0 ltac:(lia))
    as [Hnull | (La & b & sz & Lb & st1 & EL & Hfits & Hrun & Hsize & Hlist1 & _)].
  - exfalso. apply (Hnonnull _ _ Hnull). reflexivity.
  - exists (b + 16), st1. split; [exact Hrun|].
    split; [apply (Hnonnull _ _ Hrun)|]. split; [|eexists; exact Hlist1].
    exists (if sz - (s + 8) <=? 24 then sz - 8 else s). split; [exact Hsize|].
    destruct (sz - (s + 8) <=? 24) eqn:Eb; [apply Z.leb_le in Eb|]; lia.
Qed.

(** X15: released memory can be handed out again.  After [mem_free] of a
    live block, any request that fits in it (user size plus guard at most
    the size of the block) is served, under every policy: the space is
    back on the free list in one piece. *)
Theorem freed_space_is_reusable
        (fuel : nat) (st : state) (N : Z) (L : list blk) (p old s : Z) :
  free_list_is st N L -> (S (length L) < fuel)%nat ->
  allocated_at st N L p old -> guards_ok st p -> 8 <= old ->
  0 <= s -> s + 8 <= old ->
  exists st0 r st1,
    mem_free fuel st (p + 16) = Done st0
    /\ mem_alloc fuel st0 s = Done (r, st1)
    /\ r <> NULL
    /\ (exists u, mem_get_size st1 r = Done u /\ s <= u <= s + 24)
    /\ exists L', free_list_is st1 N L'.
Proof.
  intros Hinv Hfuel Halloc Hguards Hold Hs0 Hs.
  destruct (alloc_after_free fuel st N L p old Hinv Hfuel Halloc Hguards Hold)
    as (st0 & Hfree & Hserve).
  destruct (Hserve s Hs0 Hs) as (r & st1 & Hrun & Hnz & Hsize & Hlist).
  exists st0, r, st1.
  split; [exact Hfree|]. split; [exact Hrun|]. split; [exact Hnz|].
  split; [exact Hsize|exact Hlist].
Qed.

(** * Pointers the allocator refuses, and corruption it detects *)

(** X6: a pointer that is [NULL], below the first possible payload
    ([memory_area + 16]) or at or above the last byte of the arena is never
    dereferenced: [mem_free] returns without any effect, the size query
    answers 0, and [mem_realloc] answers [NULL] and changes nothing,
    except that [mem_realloc(NULL, k)] is [mem_alloc(k)]. *)
Theorem invalid_pointers_are_refused
        (fuel : nat) (st : state) (N zone k : Z) :
  arena_ok st N ->
  zone = NULL \/ zone < memory_area st + 16 \/ memory_area st + N - 1 <= zone ->
  mem_free fuel st zone = Done st
  /\ mem_get_size st zone = Done 0
  /\ (zone <> NULL -> mem_realloc fuel st zone k = Done (NULL, st))
  /\ mem_realloc fuel st NULL k = mem_alloc fuel st k.
Proof.
  intros Hok Hzone.
  destruct Hok as [Hhead_lo Hhead_hi Htop Hmin Hmax Hsecret].
  assert (zone <> NULL ->
          ((zone <? MEM_SPACE_MIN st) || (zone >=? MEM_SPACE_MAX st)) = true) as Hb.
  { intro Hnz. rewrite Hmin, Hmax. apply orb_true_iff.
    destruct Hzone as [E | [H | H]]; [contradiction|left|right].
    - apply Z.ltb_lt. exact H.
    - rewrite Z.geb_leb. apply Z.leb_le. exact H. }
  assert (out_of_area st zone = true) as Hout.
  { unfold out_of_area. destruct (zone =? NULL) eqn:E; [reflexivity|].
    apply Z.eqb_neq in E. cbn [orb]. exact (Hb E). }
  split; [unfold mem_free; rewrite Hout; reflexivity|].
  split; [unfold mem_get_size; rewrite Hout; reflexivity|].
  split; [|reflexivity].
  intro Hnz. unfold mem_realloc.
  replace (zone =? NULL) with false by (symmetry; apply Z.eqb_neq; exact Hnz).
  rewrite (Hb Hnz). reflexivity.
Qed.

(** What the three entry points do with a block inside the arena whose
    guards do not both hold. *)
Lemma broken_guard_outcomes (fuel : nat) (st : state) (N p : Z) :
  arena_ok st N -> memory_area st <= p -> p + 16 < memory_area st + N - 1 ->
  ~ guards_ok st p ->
  mem_free fuel st (p + 16) = AssertFailed
  /\ mem_get_size st (p + 16) = Done 0
  /\ (forall k, k <> 0 -> mem_realloc fuel st (p + 16) k = AssertFailed).
Proof.
  intros Hok Hp_lo Hp_hi Hbad.
  pose proof Hok as [Hhead_lo Hhead_hi Htop Hmin Hmax Hsecret].
  destruct (in_area_of_block st N p 2 Hok Hp_lo ltac:(lia) ltac:(lia)) as [E1 E2].
  assert (wrap (p + 16 - MEM_ALL_BLOCK_SIZE) = p) as Ep
    by (consts_goal; replace (p + 16 - 16) with p by lia; apply wrap_small; lia).
  apply guard_mismatch_cases in Hbad.
  split; [|split].
  - unfold mem_free, out_of_area. rewrite E1. cbn [orb]. rewrite E2. cbv zeta. rewrite Ep.
    destruct Hbad as [H1 | [H1 H2]]; [rewrite H1|rewrite H1, H2]; reflexivity.
  - unfold mem_get_size, out_of_area. rewrite E1. cbn [orb]. rewrite E2. cbv zeta. rewrite Ep.
    destruct Hbad as [H1 | [H1 H2]]; [rewrite H1|rewrite H1, H2]; reflexivity.
  - intros k Hk. unfold mem_realloc. rewrite E1, E2.
    replace (k =? 0) with false by (symmetry; apply Z.eqb_neq; exact Hk).
    cbv zeta. rewrite Ep.
    destruct Hbad as [H1 | [H1 H2]]; [rewrite H1|rewrite H1, H2]; reflexivity.
Qed.

(** The guard of a block in the lower half of the address space has its
    top bit set, as the secret number has. *)
Lemma guard_top_bit (p : Z) :
  0 <= p < 2 ^ 63 -> 2 ^ 63 <= Z.lxor p 0xDEADBEEFFEEDFACE.
Proof.
  intro Hp.
  assert (Z.testbit (Z.lxor p 0xDEADBEEFFEEDFACE) 63 = true) as Hbit.
  { rewrite Z.lxor_spec.
    replace (Z.testbit p 63) with false; [reflexivity|].
    symmetry. apply Z.testbit_false; [lia|].
    rewrite Z.div_small by lia. reflexivity. }
  assert (0 <= Z.lxor p 0xDEADBEEFFEEDFACE) as Hnn by (apply Z.lxor_nonneg; lia).
  destruct (Z_lt_le_dec (Z.lxor p 0xDEADBEEFFEEDFACE) (2 ^ 63)) as [Hlt | Hge]; [|exact Hge].
  exfalso.
  assert (Z.testbit (Z.lxor p 0xDEADBEEFFEEDFACE) 63 = false) as Hbit'.
  { apply Z.testbit_false; [lia|]. rewrite Z.div_small by lia. reflexivity. }
  rewrite Hbit in Hbit'. discriminate Hbit'.
Qed.

(** After [insert_block], the [next] field of the inserted header holds
    [NULL] or the address of a block of the list. *)
Lemma insert_block_next (m : mem) (s0 lo hi : Z) (L1 L2 : list blk) (x sx : Z) :
  link_ctx m s0 lo hi L1 L2 x sx ->
  let m' := insert_block m lo x (slot_after s0 L1) in
  load64 m' (x + 8) = NULL \/ (lo <= load64 m' (x + 8) /\ load64 m' (x + 8) + 16 <= hi).
Proof.
  intros Hctx.
  destruct (link_right m s0 lo hi L1 L2 x sx Hctx) as (HR & HRsp & _).
  destruct Hctx as [Hhead_lo Hhead_hi Htop Hseg1 Hseg2 Hsp1 Hsp2 Hx_size Hx_lo Hx_hi
                      Hx_after Hx_before].
  pose proof (slot_after_below L1 x s0 lo hi Hsp1 Hhead_hi Hx_lo Hx_after) as [Hs1 Hs2].
  cbv zeta. rewrite insert_block_unfold. cbv zeta.
  set (m1 := insert_right m x (slot_after s0 L1)) in *.
  set (slot := slot_after s0 L1) in *.
  destruct (fuse_right_shape x sx L2) as (sR & R' & ER). rewrite ER in *.
  lsimpl. destruct HR as (_ & _ & _ & HR'). destruct HRsp as (_ & HsR0 & _ & HRsp').
  pose proof (fseg_hd _ _ _ HR') as Hnext.
  assert (load64 m1 (x + 8) = 0 \/ (lo <= load64 m1 (x + 8) /\ load64 m1 (x + 8) + 16 <= hi))
    as Hval.
  { rewrite Hnext. destruct R' as [|[c sc] R'']; lsimpl; [left; reflexivity|right].
    destruct HRsp' as (? & ? & ? & _). lia. }
  pose proof (load64_range m x) as Hsx. rewrite Hx_size in Hsx.
  rewrite (wrap_small (slot - 8)) by lia.
  assert (forall v w, load64 (store64 (store64 m1 (slot - 8) v) (slot - 8 + 8) w) (x + 8)
                      = load64 m1 (x + 8)) as F2
    by (intros v w; rewrite !load64_store64_other by lia; reflexivity).
  destruct (slot - 8 >=? lo).
  - destruct (wrap (slot - 8 + 16 + load64 m1 (slot - 8)) =? x).
    + rewrite F2. exact Hval.
    + rewrite load64_store64_other by lia. exact Hval.
  - rewrite load64_store64_other by lia. exact Hval.
Qed.

(** X7: a second [mem_free] of the same pointer is caught.  In an arena
    that lies in the lower half of the address space, with the secret
    number [mem_init] sets, releasing a live block overwrites its header
    guard with a list pointer, which cannot equal the guard: releasing it
    again stops on the assertion, the size query on it answers 0, and a
    resize of it stops on the assertion. *)
Theorem double_free_is_caught
        (fuel : nat) (st : state) (N : Z) (L : list blk) (p s : Z) :
  free_list_is st N L -> (length L < fuel)%nat ->
  allocated_at st N L p s -> guards_ok st p -> 8 <= s ->
  secret_number st = 0xDEADBEEFFEEDFACE ->
  memory_area st + N <= 2 ^ 63 ->
  exists st1,
    mem_free fuel st (p + 16) = Done st1
    /\ mem_free fuel st1 (p + 16) = AssertFailed
    /\ mem_get_size st1 (p + 16) = Done 0
    /\ (forall k, k <> 0 -> mem_realloc fuel st1 (p + 16) k = AssertFailed).
Proof.
  intros Hinv Hfuel Hlive Hguards Hs Hsecret_val Hlow.
  pose proof Hinv as (Hok & Hseg & Hsp).
  pose proof Hok as [Hhead_lo Hhead_hi Htop Hmin Hmax Hsecret].
  destruct Hlive as (Hp_lo & Hp_size & Hp_hi & Hdis). consts.
  destruct (split_around p s L _ _ Hsp ltac:(lia) Hdis) as (L1 & L2 & EL & A1 & A2).
  subst L.
  destruct (mem_free_run fuel st N L1 L2 p s Hinv Hfuel Hp_lo Hp_size Hp_hi A1 A2
              Hguards ltac:(rewrite Hmax; lia))
    as (Hctx & Hrun & _).
  pose proof (insert_block_next _ _ _ _ L1 L2 p s Hctx) as Hnext. cbv zeta in Hnext.
  eexists. split; [exact Hrun|].
  apply (broken_guard_outcomes fuel _ N p).
  - apply arena_ok_with_bytes. exact Hok.
  - exact Hp_lo.
  - cbn [memory_area with_bytes]. lia.
  - intros [Hg _]. cbn [bytes with_bytes] in Hg. consts.
    unfold guard_of in Hg. cbn [secret_number with_bytes] in Hg.
    rewrite Hsecret_val in Hg.
    pose proof (guard_top_bit p ltac:(lia)) as Htopbit.
    rewrite <- Hg in Htopbit. lia.
Qed.

(** Changing one byte of a 64-bit word changes the word. *)
Lemma load64_poke (m : mem) (a x v : Z) :
  a <= x < a + 8 -> v mod 256 <> m x mod 256 ->
  load64 (fun y => if y =? x then v else m y) a <> load64 m a.
Proof.
  intros Hx Hv. unfold load64.
  change (2 ^ 8) with 256. change (2 ^ 16) with 65536.
  change (2 ^ 24) with 16777216. change (2 ^ 32) with 4294967296.
  change (2 ^ 40) with 1099511627776. change (2 ^ 48) with 281474976710656.
  change (2 ^ 56) with 72057594037927936.
  assert (x = a \/ x = a + 1 \/ x = a + 2 \/ x = a + 3 \/ x = a + 4 \/ x = a + 5
          \/ x = a + 6 \/ x = a + 7) as Hcase by lia.
  repeat (destruct Hcase as [-> | Hcase]); try subst x;
    repeat match goal with
           | |- context [?u =? ?w] =>
               first [ replace (u =? w) with true by (symmetry; apply Z.eqb_eq; lia)
                     | replace (u =? w) with false by (symmetry; apply Z.eqb_neq; lia) ]
           end;
    lia.
Qed.

(** X8: any change to a byte of either guard of a live block is caught:
    after the caller overwrites one byte of the header guard (an
    underrun, [ptr[-1]]) or of the trailer (an overrun past the capacity)
    with a different value, [mem_free] and a resize stop on the assertion
    and the size query answers 0. *)
Theorem guard_byte_corruption_is_caught
        (fuel : nat) (st : state) (N p s x v : Z) :
  arena_ok st N -> memory_area st <= p -> 8 <= s ->
  p + 16 + s <= memory_area st + N ->
  load64 (bytes st) p = s -> guards_ok st p ->
  p + 8 <= x < p + 16 \/ p + 8 + s <= x < p + 16 + s ->
  v mod 256 <> bytes st x mod 256 ->
  mem_free fuel (poke st x v) (p + 16) = AssertFailed
  /\ mem_get_size (poke st x v) (p + 16) = Done 0
  /\ (forall k, k <> 0 -> mem_realloc fuel (poke st x v) (p + 16) k = AssertFailed).
Proof.
  intros Hok Hp_lo Hs Hp_hi Hp_size (Hg1 & Hg2) Hx Hv.
  pose proof Hok as [Hhead_lo Hhead_hi Htop Hmin Hmax Hsecret].
  apply (broken_guard_outcomes fuel (poke st x v) N p).
  - apply arena_ok_with_bytes. exact Hok.
  - exact Hp_lo.
  - cbn [memory_area poke with_bytes]. lia.
  - unfold guards_ok, poke, guard_of. cbn [bytes with_bytes secret_number].
    fold (guard_of st p). consts. rewrite Hp_size in Hg2.
    assert (load64 (fun y => if y =? x then v else bytes st y) p = s) as Hsize'.
    { rewrite <- Hp_size. apply load64_ext. intros i Hi.
      replace (p + i =? x) with false by (symmetry; apply Z.eqb_neq; lia). reflexivity. }
    rewrite Hsize'. intros [H1 H2].
    destruct Hx as [Hx | Hx].
    + apply (load64_poke (bytes st) (p + 8) x v); [lia|exact Hv|].
      rewrite H1. symmetry. exact Hg1.
    + rewrite (wrap_small (p + 16 + s - 8)) in H2, Hg2 by lia.
      apply (load64_poke (bytes st) (p + 16 + s - 8) x v); [lia|exact Hv|].
      rewrite H2. symmetry. exact Hg2.
Qed.

(** * Resize: what the caller can rely on *)

(** X9: [mem_realloc(ptr, 0)] on a live block releases it and then
    allocates zero bytes, and that allocation cannot fail, whatever the
    policy: the released block, of size at least 8, is on the free list.
    The call therefore never answers [NULL]; it answers a live block of
    capacity 0 to 24 bytes. *)
Theorem realloc_to_zero_returns_a_block
        (fuel : nat) (st : state) (N : Z) (L : list blk) (p old : Z) :
  free_list_is st N L -> (S (length L) < fuel)%nat ->
  allocated_at st N L p old -> guards_ok st p -> 8 <= old ->
  exists r st0 st1,
    mem_free fuel st (p + 16) = Done st0
    /\ mem_alloc fuel st0 0 = Done (r, st1)
    /\ mem_realloc fuel st (p + 16) 0 = Done (r, st1)
    /\ r <> NULL
    /\ (exists u, mem_get_size st1 r = Done u /\ 0 <= u <= 24)
    /\ exists L', free_list_is st1 N L'.
Proof.
  intros Hinv Hfuel Halloc Hguards Hold.
  destruct (alloc_after_free fuel st N L p old Hinv Hfuel Halloc Hguards Hold)
    as (st0 & Hfree & Hserve).
  destruct (Hserve 0 ltac:(lia) ltac:(lia)) as (r & st1 & Hrun & Hnz & (u & Hu & Hb) & Hlist).
  destruct Halloc as (Hp_lo & Hp_size & Hp_hi & _). destruct Hinv as (Hok & _).
  destruct (in_area_of_block st N p old Hok Hp_lo ltac:(lia) Hp_hi) as [E1 E2].
  exists r, st0, st1.
  split; [exact Hfree|]. split; [exact Hrun|]. split.
  - unfold mem_realloc. rewrite E1, E2. rewrite Z.eqb_refl. rewrite Hfree. cbn [bind].
    exact Hrun.
  - split; [exact Hnz|]. split; [exists u; split; [exact Hu|lia]|exact Hlist].
Qed.

(** X10: [mem_realloc] to a non-zero size [s] for which [s + 8] does not
    wrap ([s + 8 < 2^64]) keeps the payload.  Whenever it answers a block,
    the first [min(s, old - 8)] bytes at the answered pointer ([old - 8]
    being the capacity of the block before) are the bytes the payload held
    before the call, whether the block was resized in place or moved. *)
Theorem realloc_preserves_payload
        (fuel : nat) (st : state) (N : Z) (L : list blk) (p old s : Z) :
  free_list_is st N L -> (S (length L) < fuel)%nat ->
  allocated_at st N L p old -> guards_ok st p -> 8 <= old ->
  0 < s -> s + 8 < 2 ^ 64 ->
  exists r st1,
    mem_realloc fuel st (p + 16) s = Done (r, st1)
    /\ (r <> NULL ->
        forall i, 0 <= i < Z.min s (old - 8) -> bytes st1 (r + i) = bytes st (p + 16 + i)).
Proof.
  intros Hinv Hfuel Halloc Hguards Hold Hs0 Hs.
  destruct (realloc_spec fuel st N L p old s Hinv Hfuel Halloc Hguards Hold ltac:(lia) Hs)
    as (r & st1 & Hrun & _ & _ & Hpay & _).
  exists r, st1. split; [exact Hrun|].
  intros Hnz i Hi. apply (Hpay Hnz Hs0 i Hi).
Qed.

(** The bound on [s] is needed.  A size for which [s + 8] wraps is taken
    for a shrink to fewer than 8 bytes: on the three live blocks of 20
    bytes, [mem_realloc(a, 2^64 - 8)] answers [a] after writing the header
    of a free block of 12 bytes over the first 16 bytes of the payload. *)
Lemma realloc_wrapping_size_overwrites_payload :
  ptr_of ex_wrapped = ex_base + 16
  /\ load64 (bytes ex_three) (ex_base + 16) = 0
  /\ load64 (bytes (state_of ex_three ex_wrapped)) (ex_base + 16) = 12
  /\ load64 (bytes (state_of ex_three ex_wrapped)) (ex_base + 24) = ex_base + 132.
Proof. repeat split; vm_compute; reflexivity. Qed.


(** X12: [mem_realloc] never touches another live block.  It writes only
    inside the block it resizes and inside free blocks (and the list
    head), in every case, the relocating one included: every other
    allocated block keeps all its bytes, and the size query on it answers
    as before. *)
Theorem realloc_keeps_live_blocks
        (fuel : nat) (st : state) (N : Z) (L : list blk) (p old s q sq : Z) :
  free_list_is st N L -> (S (length L) < fuel)%nat ->
  allocated_at st N L p old -> guards_ok st p -> 8 <= old ->
  0 <= s -> s + 8 < 2 ^ 64 ->
  allocated_at st N L q sq -> 0 <= sq ->
  q + 16 + sq <= p \/ p + 16 + old <= q ->
  exists r st1,
    mem_realloc fuel st (p + 16) s = Done (r, st1)
    /\ (forall y, q <= y < q + 16 + sq -> bytes st1 y = bytes st y)
    /\ mem_get_size st1 (q + 16) = mem_get_size st (q + 16).
Proof.
  intros Hinv Hfuel Halloc Hguards Hold Hs0 Hs (Hq_lo & Hq_size & Hq_hi & Hq_dis) Hsq Hqp.
  destruct (realloc_spec fuel st N L p old s Hinv Hfuel Halloc Hguards Hold Hs0 Hs)
    as (r & st1 & Hrun & _ & _ & _ & _ & Hstat & Hwr).
  destruct Hinv as (Hok & _ & Hsp).
  pose proof Hok as [Hhead_lo Hhead_hi Htop Hmin Hmax Hsecret]. consts.
  assert (forall y, q <= y < q + 16 + sq -> bytes st1 y = bytes st y) as Hsame.
  { intros y Hy. apply Hwr; consts_goal; try lia.
    intros a sa Hin. destruct (Hq_dis a sa Hin); lia. }
  exists r, st1. split; [exact Hrun|]. split; [exact Hsame|].
  unfold same_statics in Hstat. rewrite Hstat.
  apply (mem_get_size_ext st (bytes st1) q sq); try assumption; lia.
Qed.


(** * The list primitives, and initialisation *)

(** X13: [search_block] stops at the slot that holds the first free block
    whose address is not below the target, past every block that is
    below it.  [remove_block] at that slot removes the target from the
    list when it is there (the rest of the list, and the size of the
    removed block, are as before, and its [next] field is cleared), and
    changes nothing when it is not. *)
Theorem search_then_remove
        (fuel : nat) (st : state) (N : Z) (L : list blk) (t : Z) :
  free_list_is st N L -> (length L < fuel)%nat -> t <> NULL ->
  exists L1 L2 slot,
    L = L1 ++ L2
    /\ (forall a sa, In (a, sa) L1 -> a < t)
    /\ (forall c sc, In (c, sc) L2 -> t <= c)
    /\ search_block fuel (bytes st) t (free_block_list_addr st) = Done slot
    /\ load64 (bytes st) slot = hd_ptr L2
    /\ ((forall sz, ~ In (t, sz) L) -> remove_block (bytes st) t slot = bytes st)
    /\ (forall sz, In (t, sz) L ->
          exists L2',
            L2 = (t, sz) :: L2'
            /\ free_list_is (with_bytes st (remove_block (bytes st) t slot)) N (L1 ++ L2')
            /\ load64 (remove_block (bytes st) t slot) t = sz
            /\ load64 (remove_block (bytes st) t slot) (t + OFF_NEXT) = NULL).
Proof.
  intros Hinv Hfuel Ht.
  pose proof Hinv as (Hok & Hseg & Hsp).
  pose proof Hok as [Hhead_lo Hhead_hi Htop Hmin Hmax Hsecret].
  destruct (search_block_around fuel st N L t Hinv Hfuel)
    as (L1 & L2 & EL & A1 & A2 & Hsearch & Hslot).
  exists L1, L2, (slot_after (free_block_list_addr st) L1).
  split; [exact EL|]. split; [exact A1|]. split; [exact A2|].
  split; [exact Hsearch|]. split; [exact Hslot|]. split.
  - intros Habsent. unfold remove_block. rewrite Hslot.
    destruct (hd_ptr L2 =? t) eqn:E; [|reflexivity].
    apply Z.eqb_eq in E. exfalso.
    destruct L2 as [|[c sc] L2']; cbn [hd_ptr] in E; [apply Ht; symmetry; exact E|].
    subst c. apply (Habsent sc). rewrite EL. apply in_or_app. right. left. reflexivity.
  - intros sz Hin.
    pose proof Hsp as Hsp'. rewrite EL in Hsp', Hin.
    destruct (right_neighbour_is_head L1 L2 t _ _ Hsp' A1 A2 sz Hin) as [L2' EL2].
    exists L2'. split; [exact EL2|]. subst L2. subst L.
    unfold free_block_list in Hseg.
    destruct (unlink_spec (bytes st) (free_block_list_addr st) (memory_area st)
                (memory_area st + N) L1 L2' t sz Hhead_lo Hhead_hi Htop Hseg Hsp)
      as (U1 & U2 & U3 & _).
    pose proof (spaced_In _ _ _ _ _ Hsp
                  ltac:(apply in_or_app; right; left; reflexivity)
                : memory_area st <= t /\ 0 <= sz /\ t + 16 + sz <= memory_area st + N) as Htb.
    split; [|split; [exact U3|]].
    + split; [apply arena_ok_with_bytes; exact Hok|]. split.
      * unfold free_block_list. cbn [bytes with_bytes free_block_list_addr].
        apply fseg_app. exists (hd_ptr L2'). split; assumption.
      * cbn [memory_area with_bytes].
        apply spaced_split in Hsp. destruct Hsp as (S1 & S2 & S3 & S4 & S5).
        apply (spaced_join L1 L2' (memory_area st) t (memory_area st + N));
          try assumption; try lia.
        apply (spaced_weaken L2' (t + 16 + sz + 1) t (memory_area st + N) (memory_area st + N));
          try lia.
        exact S5.
    + unfold remove_block. rewrite Hslot. cbn [hd_ptr]. rewrite Z.eqb_refl. cbv zeta.
      consts_goal. apply load64_store64_same. lia.
Qed.

(** X14: [mem_init] makes the whole arena one free block of size [N - 16]
    under first fit, whatever the memory held before, which establishes
    the heap invariant with no live block; it writes only the list head
    and the first header.  On that arena a request of [s] bytes, whatever
    [s], is served at the first payload address when its effective size
    [(s + 8) mod 2^64] is at most [N - 16], and refused otherwise.  Among
    the sizes for which [s + 8] does not wrap the largest request served
    is [N - 24]; a size for which it wraps is served like the small
    request it wraps to. *)
Theorem mem_init_fresh_arena (m0 : mem) (head B N : Z) (fuel : nat) (s : Z) :
  8 <= head -> head + 8 <= B -> 16 <= N -> B + N < 2 ^ 64 -> (1 < fuel)%nat ->
  heap_ok (mem_init m0 head B N) N [(B, N - 16)] []
  /\ current_fit_function (mem_init m0 head B N) = FirstFit
  /\ (forall y, y < head \/ head + 8 <= y -> y < B \/ B + 16 <= y ->
                bytes (mem_init m0 head B N) y = m0 y)
  /\ (wrap (s + 8) <= N - 16 ->
      exists st1, mem_alloc fuel (mem_init m0 head B N) s = Done (B + 16, st1))
  /\ (N - 16 < wrap (s + 8) ->
      mem_alloc fuel (mem_init m0 head B N) s = Done (NULL, mem_init m0 head B N)).
Proof.
  intros Hhead_lo Hhead_hi HN Htop Hfuel.
  pose proof (mem_init_spec m0 head B N Hhead_lo Hhead_hi HN Htop) as Hinv.
  split.
  { split; [exact Hinv|]. split; [intros q sq []|]. split; [exact I|].
    cbn [block_total fold_right snd]. consts_goal. lia. }
  split; [reflexivity|]. split.
  { intros y Hy1 Hy2. unfold mem_init. cbn [bytes]. consts_goal.
    rewrite !store64_out by lia. reflexivity. }
  destruct (mem_alloc_policy_spec fuel _ N _ s Hinv ltac:(cbn [length]; lia))
    as [[Hnone Hrun] | (L1 & b & sz & L2 & m' & EL & Hpicks & Hrun & _)].
  - consts.
    split; [|intros _; exact Hrun].
    intro Hfit. exfalso.
    destruct (Hnone B (N - 16) (or_introl eq_refl)) as [H | [H _]]; [lia|discriminate H].
  - consts.
    assert (b = B /\ sz = N - 16) as [-> ->].
    { destruct L1 as [|x L1]; cbn [app] in EL.
      - inversion EL. split; reflexivity.
      - inversion EL. destruct L1; discriminate. }
    destruct Hpicks as [Hreq _].
    split; [intros _; eexists; exact Hrun|].
    intro Hbig. lia.
Qed.

(** * The heap invariant *)

(** A range outside the free blocks before an allocation is outside the
    free blocks after it. *)
Lemma alloc_list_outside (L1 L2 : list blk) (b sz e q qe : Z) :
  0 <= e ->
  (forall a sa, In (a, sa) (L1 ++ (b, sz) :: L2) -> a + 16 + sa <= q \/ qe <= a) ->
  forall a sa, In (a, sa) (alloc_list L1 b sz e L2) -> a + 16 + sa <= q \/ qe <= a.
Proof.
  intros He Hout a sa Hin. unfold alloc_list in Hin.
  pose proof (Hout b sz ltac:(apply in_or_app; right; left; reflexivity)) as Hb.
  destruct (sz - e <=? 24).
  - apply (Hout a sa). apply in_app_or in Hin. apply in_or_app.
    destruct Hin as [Hin | Hin]; [left|right; right]; exact Hin.
  - apply in_app_or in Hin. destruct Hin as [Hin | [E | Hin]].
    + apply (Hout a sa). apply in_or_app. left. exact Hin.
    + inversion E; subst a sa. lia.
    + apply (Hout a sa). apply in_or_app. right. right. exact Hin.
Qed.

(** A live block whose header and guards were not written stays live,
    with its guards, against any free list whose blocks avoid it. *)
Lemma live_block_kept_edges
      (st : state) (m' : mem) (N : Z) (L L' : list blk) (q sq : Z) :
  arena_ok st N ->
  allocated_at st N L q sq -> guards_ok st q -> 8 <= sq ->
  (forall y, q <= y < q + 16 \/ q + 8 + sq <= y < q + 16 + sq -> m' y = bytes st y) ->
  (forall a sa, In (a, sa) L' -> a + 16 + sa <= q \/ q + 16 + sq <= a) ->
  allocated_at (with_bytes st m') N L' q sq /\ guards_ok (with_bytes st m') q.
Proof.
  intros Hok (Hq_lo & Hq_size & Hq_hi & _) (Hg1 & Hg2) Hsq Hsame Hout.
  destruct Hok as [Hhead_lo Hhead_hi Htop Hmin Hmax Hsecret]. consts.
  assert (load64 m' q = sq) as Hsize'
    by (rewrite <- Hq_size; apply load64_ext; intros i Hi; apply Hsame; lia).
  split.
  - split; [exact Hq_lo|]. split; [exact Hsize'|]. split; [exact Hq_hi|exact Hout].
  - unfold guards_ok, guard_of. cbn [bytes with_bytes secret_number].
    fold (guard_of st q). consts_goal. rewrite Hsize'. rewrite Hq_size in Hg2.
    rewrite (wrap_small (q + 16 + sq - 8)) in * by lia.
    split.
    + rewrite <- Hg1. apply load64_ext. intros i Hi. apply Hsame. lia.
    + rewrite <- Hg2. apply load64_ext. intros i Hi. apply Hsame. lia.
Qed.

Lemma live_block_kept (st : state) (m' : mem) (N : Z) (L L' : list blk) (q sq : Z) :
  arena_ok st N ->
  allocated_at st N L q sq -> guards_ok st q -> 8 <= sq ->
  (forall y, q <= y < q + 16 + sq -> m' y = bytes st y) ->
  (forall a sa, In (a, sa) L' -> a + 16 + sa <= q \/ q + 16 + sq <= a) ->
  allocated_at (with_bytes st m') N L' q sq /\ guards_ok (with_bytes st m') q.
Proof.
  intros Hok Hlive Hg Hsq Hsame Hout.
  apply (live_block_kept_edges st m' N L L' q sq Hok Hlive Hg Hsq); [|exact Hout].
  intros y Hy. apply Hsame. lia.
Qed.

Lemma apart_split (A1 A2 : list blk) (p s : Z) :
  apart (A1 ++ (p, s) :: A2) ->
  apart (A1 ++ A2)
  /\ forall q sq, In (q, sq) (A1 ++ A2) -> q + 16 + sq <= p \/ p + 16 + s <= q.
Proof.
  induction A1 as [|[a sa] A1 IH]; cbn [app apart]; consts.
  - intros [Hp Hrest]. split; [exact Hrest|].
    intros q sq Hin. destruct (Hp q sq Hin); lia.
  - intros [Ha Hrest]. destruct (IH Hrest) as [IH1 IH2]. split.
    + split; [|exact IH1].
      intros q' sq' Hin. apply (Ha q' sq'). apply in_app_or in Hin. apply in_or_app.
      destruct Hin as [Hin | Hin]; [left|right; right]; exact Hin.
    + intros q sq [E | Hin].
      * inversion E; subst q sq.
        destruct (Ha p s ltac:(apply in_or_app; right; left; reflexivity)); lia.
      * apply (IH2 q sq Hin).
Qed.

(** One allocation, on a heap that satisfies the invariant. *)
Lemma heap_alloc_step
        (fuel : nat) (st : state) (N : Z) (L A : list blk) (s : Z) :
  heap_ok st N L A -> (length L < fuel)%nat ->
  0 <= s -> s + 8 < 2 ^ 64 ->
  exists r st1,
    mem_alloc fuel st s = Done (r, st1)
    /\ ((r = NULL /\ st1 = st)
        \/ (r <> NULL
            /\ exists L' size,
                heap_ok st1 N L' ((r - 16, size) :: A)
                /\ s + 8 <= size <= s + 32
                /\ (length L' <= length L)%nat)).
Proof.
  intros (Hinv & Hlive & Hapart & Hsum) Hfuel Hs0 Hs.
  pose proof Hinv as (Hok & Hseg & Hsp).
  pose proof Hok as [Hhead_lo Hhead_hi Htop Hmin Hmax Hsecret].
  destruct (mem_alloc_spec fuel st N L s Hinv Hfuel)
    as [[_ Hrun] | (L1 & b & sz & L2 & m' & EL & Hfits & Hrun & Hpost)].
  - exists NULL, st. split; [exact Hrun|]. left. split; reflexivity.
  - consts. rewrite (wrap_small (s + 8)) in * by lia. set (e := s + 8) in *.
    rewrite EL in Hsp.
    pose proof (spaced_order _ _ _ _ _ _ Hsp) as (O1 & O2 & O3 & O4 & O5).
    destruct Hpost as [Plist Psize Pguards Pframe].
    assert (e <= alloc_take sz e <= sz /\ alloc_take sz e <= e + 24) as (Ht1 & Ht2).
    { unfold alloc_take. destruct (sz - e <=? 24) eqn:Eb; [apply Z.leb_le in Eb|]; lia. }
    exists (b + 16), (with_bytes st m'). split; [exact Hrun|]. right.
    split; [lia|]. replace (b + 16 - 16) with b by lia.
    exists (alloc_list L1 b sz e L2), (alloc_take sz e).
    split; [|split; [subst e; lia|rewrite EL; apply alloc_list_length]].
    assert (forall q sq, In (q, sq) A ->
                         (forall y, q <= y < q + 16 + sq -> m' y = bytes st y)
                         /\ (b + 16 + sz <= q \/ q + 16 + sq <= b)) as Hold.
    { intros q sq Hin. destruct (Hlive q sq Hin) as ((Hq_lo & _ & Hq_hi & Hq_dis) & _ & Hsq).
      consts.
      assert (b + 16 + sz <= q \/ q + 16 + sq <= b) as Hqb
        by (apply (Hq_dis b sz); rewrite EL; apply in_or_app; right; left; reflexivity).
      split; [|exact Hqb].
      intros y Hy. apply Pframe; try lia.
      intros a sa Hain.
      pose proof (spaced_In _ _ _ _ _ Hsp ltac:(apply in_or_app; left; exact Hain)
                  : memory_area st <= a /\ 0 <= sa /\ a + 16 + sa <= memory_area st + N).
      destruct (Hq_dis a sa ltac:(rewrite EL; apply in_or_app; left; exact Hain)); lia. }
    split; [exact Plist|]. split; [|split].
    + intros q sq [E | Hin].
      * inversion E; subst q sq. split; [|split; [apply Pguards; lia|consts_goal; lia]].
        split; [cbn [memory_area with_bytes]; lia|]. split; [exact Psize|].
        split; [cbn [memory_area with_bytes]; consts_goal; lia|]. consts_goal.
        intros a sa Hain. unfold alloc_list in Hain.
        destruct (sz - e <=? 24) eqn:Eb.
        -- apply in_app_or in Hain. destruct Hain as [Hain | Hain].
           ++ specialize (O1 a sa Hain). lia.
           ++ specialize (O2 a sa Hain). lia.
        -- apply Z.leb_gt in Eb. unfold alloc_take. rewrite (proj2 (Z.leb_gt _ _) Eb).
           apply in_app_or in Hain. destruct Hain as [Hain | [E' | Hain]].
           ++ specialize (O1 a sa Hain). lia.
           ++ inversion E'; subst a sa. lia.
           ++ specialize (O2 a sa Hain). lia.
      * destruct (Hlive q sq Hin) as (Hq_live & Hq_guards & Hsq).
        destruct (Hold q sq Hin) as [Hsame _].
        destruct (live_block_kept st m' N L (alloc_list L1 b sz e L2) q sq Hok Hq_live
                    Hq_guards Hsq Hsame) as [K1 K2].
        { apply (alloc_list_outside L1 L2 b sz e q (q + 16 + sq)); [lia|].
          rewrite <- EL. destruct Hq_live as (_ & _ & _ & Hq_dis). exact Hq_dis. }
        split; [exact K1|]. split; [exact K2|exact Hsq].
    + cbn [apart]. split; [|exact Hapart]. consts_goal.
      intros q sq Hin. destruct (Hold q sq Hin) as [_ Hqb]. lia.
    + rewrite block_total_cons. rewrite EL in Hsum.
      pose proof (block_total_alloc_list L1 L2 b sz e). lia.
Qed.

(** One release, on a heap that satisfies the invariant. *)
Lemma heap_free_step
        (fuel : nat) (st : state) (N : Z) (L A1 A2 : list blk) (p s : Z) :
  heap_ok st N L (A1 ++ (p, s) :: A2) -> (length L < fuel)%nat ->
  exists st1 L',
    mem_free fuel st (p + 16) = Done st1
    /\ heap_ok st1 N L' (A1 ++ A2)
    /\ block_total L' = block_total L + 16 + s
    /\ (length L' <= S (length L))%nat.
Proof.
  intros (Hinv & Hlive & Hapart & Hsum) Hfuel.
  pose proof Hinv as (Hok & Hseg & Hsp).
  pose proof Hok as [Hhead_lo Hhead_hi Htop Hmin Hmax Hsecret].
  destruct (Hlive p s ltac:(apply in_or_app; right; left; reflexivity))
    as ((Hp_lo & Hp_size & Hp_hi & Hdis) & Hguards & Hs). consts.
  destruct (split_around p s L _ _ Hsp ltac:(lia) Hdis) as (L1 & L2 & EL & A1' & A2').
  subst L.
  destruct (mem_free_spec fuel st N L1 L2 p s Hinv Hfuel Hp_lo Hp_size Hp_hi A1' A2'
              Hguards ltac:(rewrite Hmax; lia))
    as (m' & Hfree & Hlist & Hframe).
  destruct (apart_split A1 A2 p s Hapart) as [Hapart' Hpq].
  pose proof Hsp as Hsp'. apply spaced_app in Hsp'. destruct Hsp' as (Sp1 & _).
  exists (with_bytes st m'), (coalesce L1 (p, s) L2).
  split; [exact Hfree|]. split.
  - split; [exact Hlist|]. split; [|split; [exact Hapart'|]].
    + intros q sq Hin.
      assert (In (q, sq) (A1 ++ (p, s) :: A2)) as Hin'.
      { apply in_app_or in Hin. apply in_or_app.
        destruct Hin as [Hin | Hin]; [left|right; right]; exact Hin. }
      destruct (Hlive q sq Hin') as (Hq_live & Hq_guards & Hsq).
      pose proof (Hpq q sq Hin) as Hqp.
      pose proof Hq_live as (Hq_lo & _ & Hq_hi & Hq_dis). consts.
      destruct (live_block_kept st m' N (L1 ++ L2) (coalesce L1 (p, s) L2) q sq Hok Hq_live
                  Hq_guards Hsq) as [K1 K2].
      * intros y Hy. apply Hframe; try lia.
        intros a sa Hain.
        pose proof (spaced_In _ _ _ _ _ Sp1 Hain).
        destruct (Hq_dis a sa ltac:(apply in_or_app; left; exact Hain)); lia.
      * apply (coalesce_outside L1 L2 p s q (q + 16 + sq)); try lia.
        -- intros a sa Hain. apply (Hq_dis a sa). apply in_or_app. left. exact Hain.
        -- intros c sc Hain. apply (Hq_dis c sc). apply in_or_app. right. exact Hain.
      * split; [exact K1|]. split; [exact K2|exact Hsq].
    + rewrite block_total_coalesce. rewrite !block_total_app, block_total_cons in Hsum.
      rewrite block_total_app in *. lia.
  - split; [rewrite block_total_coalesce, block_total_app; lia|].
    apply coalesce_length.
Qed.

(** X16: [mem_alloc] keeps the heap invariant.  If the free list is well
    formed, the live blocks are intact and pairwise disjoint, and free and
    live blocks together account for the [N] bytes of the arena, then
    after a request of [s] bytes ([s + 8 < 2^64]) either nothing changed
    ([NULL]) or all of this holds again with the new block added to the
    live ones; its size field is between [s + 8] and [s + 32]. *)
Theorem mem_alloc_keeps_heap_invariant
        (fuel : nat) (st : state) (N : Z) (L A : list blk) (s : Z) :
  heap_ok st N L A -> (length L < fuel)%nat ->
  0 <= s -> s + 8 < 2 ^ 64 ->
  exists r st1,
    mem_alloc fuel st s = Done (r, st1)
    /\ ((r = NULL /\ st1 = st)
        \/ (r <> NULL
            /\ exists L' size,
                heap_ok st1 N L' ((r - 16, size) :: A)
                /\ s + 8 <= size <= s + 32)).
Proof.
  intros Hheap Hfuel Hs0 Hs.
  destruct (heap_alloc_step fuel st N L A s Hheap Hfuel Hs0 Hs)
    as (r & st1 & Hrun & [Hnull | (Hnz & L' & size & Hheap' & Hb & _)]).
  - exists r, st1. split; [exact Hrun|]. left. exact Hnull.
  - exists r, st1. split; [exact Hrun|]. right. split; [exact Hnz|].
    exists L', size. split; assumption.
Qed.

(** X17: [mem_free] keeps the heap invariant.  Releasing one of the live
    blocks leaves a well-formed free list, the other live blocks intact
    and disjoint, and free and live blocks still account for the [N] bytes
    of the arena: the bytes of the released block, header included, are
    now counted among the free ones. *)
Theorem mem_free_keeps_heap_invariant
        (fuel : nat) (st : state) (N : Z) (L A1 A2 : list blk) (p s : Z) :
  heap_ok st N L (A1 ++ (p, s) :: A2) -> (length L < fuel)%nat ->
  exists st1 L',
    mem_free fuel st (p + 16) = Done st1
    /\ heap_ok st1 N L' (A1 ++ A2)
    /\ block_total L' = block_total L + 16 + s.
Proof.
  intros Hheap Hfuel.
  destruct (heap_free_step fuel st N L A1 A2 p s Hheap Hfuel)
    as (st1 & L' & Hrun & Hheap' & Htot & _).
  exists st1, L'. split; [exact Hrun|]. split; assumption.
Qed.

(** * The heap invariant across a resize *)

(** Two live blocks of a pairwise disjoint population are the same block
    or do not overlap. *)
Lemma apart_In (A : list blk) (b c : blk) :
  apart A -> In b A -> In c A ->
  b = c
  \/ fst b + 16 + snd b <= fst c \/ fst c + 16 + snd c <= fst b.
Proof.
  induction A as [|[a sa] A IH]; cbn [apart In]; consts; [intros _ []|].
  intros [Ha Hrest] [Eb | Hb] [Ec | Hc].
  - left. congruence.
  - subst b. destruct c as [c sc]. cbn [fst snd].
    destruct (Ha c sc Hc); right; lia.
  - subst c. destruct b as [b sb]. cbn [fst snd].
    destruct (Ha b sb Hb); right; lia.
  - apply (IH Hrest Hb Hc).
Qed.

(** Writing into the payload of a live block keeps the heap invariant. *)
Lemma heap_ok_payload_write
      (st : state) (m' : mem) (N : Z) (L A : list blk) (q sq : Z) :
  heap_ok st N L A -> In (q, sq) A ->
  (forall y, y < q + 16 \/ q + 8 + sq <= y -> m' y = bytes st y) ->
  heap_ok (with_bytes st m') N L A.
Proof.
  intros (Hinv & Hlive & Hapart & Hsum) Hin Hsame.
  pose proof Hinv as (Hok & Hseg & Hsp).
  pose proof Hok as [Hhead_lo Hhead_hi Htop Hmin Hmax Hsecret].
  destruct (Hlive q sq Hin) as ((Hq_lo & _ & Hq_hi & Hq_dis) & _ & Hsq). consts.
  split; [|split; [|split; [exact Hapart|exact Hsum]]].
  - apply (free_list_is_frame st N L m' Hinv).
    + intros y Hy. apply Hsame. lia.
    + intros a sa y Hain Hy. apply Hsame.
      pose proof (spaced_In _ _ _ _ _ Hsp Hain). destruct (Hq_dis a sa Hain); lia.
  - intros q' sq' Hin'.
    destruct (Hlive q' sq' Hin') as (Hq'_live & Hq'_guards & Hsq'). consts.
    destruct (live_block_kept_edges st m' N L L q' sq' Hok Hq'_live Hq'_guards Hsq')
      as [K1 K2].
    + intros y Hy. apply Hsame.
      destruct (apart_In A (q', sq') (q, sq) Hapart Hin' Hin) as [E | Hd].
      * inversion E; subst q' sq'. lia.
      * cbn [fst snd] in Hd. lia.
    + destruct Hq'_live as (_ & _ & _ & Hd). exact Hd.
    + split; [exact K1|]. split; [exact K2|consts_goal; exact Hsq'].
Qed.

(** Either the block at [x] is free with room for [k] bytes, header
    included, or no free block at [x] has. *)
Lemma right_room_dec (L : list blk) (x k : Z) :
  (exists sR, In (x, sR) L /\ k <= sR + 16)
  \/ (forall sR, In (x, sR) L -> sR + 16 < k).
Proof.
  induction L as [|[a sa] L IH].
  - right. intros sR [].
  - destruct IH as [(sR & Hin & Hk) | Hnone].
    + left. exists sR. split; [right; exact Hin|exact Hk].
    + destruct (Z.eq_dec a x) as [-> | Hne].
      * destruct (Z_le_gt_dec k (sa + 16)) as [Hle | Hgt].
        -- left. exists sa. split; [left; reflexivity|exact Hle].
        -- right. intros sR [E | Hin]; [inversion E; subst sR; lia|apply (Hnone sR Hin)].
      * right. intros sR [E | Hin]; [inversion E; contradiction|apply (Hnone sR Hin)].
Qed.

(** A block resized in place takes the place of the old one in a heap
    that satisfies the invariant. *)
Lemma heap_resize_in_place
      (st st1 : state) (N : Z) (L L' A1 A2 : list blk) (p old size : Z) :
  heap_ok st N L (A1 ++ (p, old) :: A2) ->
  free_list_is st1 N L' ->
  resized_in_place st st1 N L L' p old size ->
  writes_within st st1 L p old ->
  heap_ok st1 N L' ((p, size) :: A1 ++ A2).
Proof.
  intros (Hinv & Hlive & Hapart & Hsum) Hlist' [Rsize Rguards Rmin Rend Rclear Rtotal Rcov]
         [Hss Hwr].
  pose proof Hinv as (Hok & Hseg & Hsp).
  destruct (Hlive p old ltac:(apply in_or_app; right; left; reflexivity))
    as ((Hp_lo & _ & _ & _) & _ & Hold).
  destruct (apart_split A1 A2 p old Hapart) as [Hapart' Hpq]. consts.
  assert (memory_area st1 = memory_area st) as Harea by (rewrite Hss; reflexivity).
  assert (forall q sq, In (q, sq) (A1 ++ A2) ->
                       allocated_at st N L q sq /\ guards_ok st q /\ 8 <= sq) as Hlive'.
  { intros q sq Hin. apply (Hlive q sq). apply in_app_or in Hin. apply in_or_app.
    destruct Hin as [Hin | Hin]; [left|right; right]; exact Hin. }
  split; [exact Hlist'|]. split; [|split].
  - intros q sq [E | Hin].
    + inversion E; subst q sq. split; [|split; [exact Rguards|consts_goal; exact Rmin]].
      split; [rewrite Harea; exact Hp_lo|]. split; [exact Rsize|].
      split; [rewrite Harea; consts_goal; exact Rend|consts_goal; exact Rclear].
    + destruct (Hlive' q sq Hin) as (Hq_live & Hq_guards & Hsq).
      pose proof (Hpq q sq Hin) as Hqp.
      pose proof Hq_live as (Hq_lo & _ & Hq_hi & Hq_dis). consts.
      destruct (Rcov q (q + 16 + sq) ltac:(lia) Hq_dis ltac:(lia)) as [C1 C2].
      destruct (live_block_kept st (bytes st1) N L L' q sq Hok Hq_live Hq_guards Hsq)
        as [K1 K2].
      * intros y Hy. apply Hwr; try lia.
        intros a sa Hain. pose proof (spaced_In _ _ _ _ _ Hsp Hain).
        destruct (Hq_dis a sa Hain); lia.
      * exact C1.
      * rewrite <- Hss in K1, K2. split; [exact K1|]. split; [exact K2|consts_goal; exact Hsq].
  - cbn [apart]. split; [|exact Hapart']. consts_goal.
    intros q sq Hin.
    destruct (Hlive' q sq Hin) as ((_ & _ & _ & Hq_dis) & _ & Hsq).
    pose proof (Hpq q sq Hin) as Hqp. consts.
    destruct (Rcov q (q + 16 + sq) ltac:(lia) Hq_dis ltac:(lia)) as [_ C2]. lia.
  - rewrite block_total_cons. rewrite !block_total_app, block_total_cons in Hsum.
    rewrite block_total_app. cbn [snd] in *. consts. lia.
Qed.

(** A resize that has to move the block: allocation, copy of the payload
    and release of the old block, on a heap that satisfies the invariant. *)
Lemma heap_relocate
      (fuel : nat) (st : state) (N : Z) (L A1 A2 : list blk) (p old s : Z) :
  heap_ok st N L (A1 ++ (p, old) :: A2) -> (S (length L) < fuel)%nat ->
  0 <= s -> s + 8 < 2 ^ 64 -> old < s + 8 ->
  (forall sR, In (p + old + 16, sR) L -> sR + 16 < s + 8 - old) ->
  exists r st1,
    mem_realloc fuel st (p + 16) s = Done (r, st1)
    /\ ((r = NULL /\ st1 = st)
        \/ (r <> NULL
            /\ exists L' size,
                heap_ok st1 N L' ((r - 16, size) :: A1 ++ A2)
                /\ s + 8 <= size <= s + 32)).
Proof.
  intros Hheap Hfuel Hs0 Hs Hgrow Hright.
  pose proof Hheap as (Hinv & Hlive & Hapart & Hsum).
  destruct (Hlive p old ltac:(apply in_or_app; right; left; reflexivity))
    as (Halloc & Hguards & Hold). consts.
  destruct (relocate_spec fuel st N L p old s Hinv ltac:(lia) Halloc Hguards Hold Hs0 Hs
              Hgrow Hright)
    as [(_ & Hre & _)
       | (r & st1 & st3 & L3 & Hrun & Hnz & Hfree & Hre & _)].
  - exists NULL, st. split; [exact Hre|]. left. split; reflexivity.
  - exists r, st3. split; [exact Hre|]. right. split; [exact Hnz|].
    destruct (heap_alloc_step fuel st N L (A1 ++ (p, old) :: A2) s Hheap ltac:(lia) Hs0 Hs)
      as (r' & st1' & Hrun' & [[Hnull _] | (_ & L1 & size & Hheap1 & Hb & Hlen1)]).
    { exfalso. apply Hnz. congruence. }
    assert (r' = r /\ st1' = st1) as [-> ->] by (split; congruence).
    set (m2 := memcpy (bytes st1) r (p + 16) (old - 8)) in *.
    assert (heap_ok (with_bytes st1 m2) N L1 (((r - 16, size) :: A1) ++ (p, old) :: A2))
      as Hheap2.
    { apply (heap_ok_payload_write st1 m2 N L1 _ (r - 16) size Hheap1);
        [left; reflexivity|].
      intros y Hy. subst m2. apply memcpy_out. lia. }
    destruct (heap_free_step fuel (with_bytes st1 m2) N L1 ((r - 16, size) :: A1) A2 p old
                Hheap2 ltac:(lia))
      as (st3' & L3' & Hfree' & Hheap3 & _).
    assert (st3' = st3) as -> by congruence.
    exists L3', size. split; [exact Hheap3|exact Hb].
Qed.

(** X19: [mem_realloc] keeps the heap invariant, outside the shrink by
    less than 8 bytes next to a free block.  If the free list is well
    formed, the live blocks are intact and pairwise disjoint, and free and
    live blocks together account for the [N] bytes of the arena, then a
    resize of one of the live blocks to [s] bytes ([s + 8 < 2^64]) either
    answers [NULL] and changes nothing, or answers a block and all of this
    holds again, with the answered block in the place of the resized one;
    its size field is between [s + 8] and [s + 32]. *)
Theorem mem_realloc_keeps_heap_invariant
        (fuel : nat) (st : state) (N : Z) (L A1 A2 : list blk) (p old s : Z) :
  heap_ok st N L (A1 ++ (p, old) :: A2) -> (S (length L) < fuel)%nat ->
  0 <= s -> s + 8 < 2 ^ 64 ->
  (0 < s -> forall sR, In (p + old + 16, sR) L -> ~ (s + 8 < old < s + 16)) ->
  exists r st1,
    mem_realloc fuel st (p + 16) s = Done (r, st1)
    /\ ((r = NULL /\ st1 = st)
        \/ (r <> NULL
            /\ exists L' size,
                heap_ok st1 N L' ((r - 16, size) :: A1 ++ A2)
                /\ s + 8 <= size <= s + 32)).
Proof.
  intros Hheap Hfuel Hs0 Hs Hsafe.
  pose proof Hheap as (Hinv & Hlive & Hapart & Hsum).
  pose proof Hinv as (Hok & Hseg & Hsp).
  pose proof Hok as [Hhead_lo Hhead_hi Htop Hmin Hmax Hsecret].
  destruct (Hlive p old ltac:(apply in_or_app; right; left; reflexivity))
    as (Halloc & Hguards & Hold).
  pose proof Halloc as (Hp_lo & Hp_size & Hp_hi & Hdis). consts.
  destruct (apart_split A1 A2 p old Hapart) as [Hapart' Hpq].
  destruct (Z.eq_dec s 0) as [-> | Hsnz].
  - (* release, then a request of zero bytes *)
    destruct (heap_free_step fuel st N L A1 A2 p old Hheap ltac:(lia))
      as (st0 & L0 & Hfree & Hheap0 & _ & Hlen0).
    destruct (alloc_after_free fuel st N L p old Hinv Hfuel Halloc Hguards Hold)
      as (st0' & Hfree' & Hserve).
    assert (st0' = st0) as -> by congruence.
    destruct (Hserve 0 ltac:(lia) ltac:(lia)) as (r & st1 & Hrun & Hnz & _).
    destruct (heap_alloc_step fuel st0 N L0 (A1 ++ A2) 0 Hheap0 ltac:(lia) ltac:(lia) Hs)
      as (r' & st1' & Hrun' & [[Hnull _] | (_ & L' & size & Hheap' & Hb & _)]).
    + exfalso. apply Hnz. congruence.
    + assert (r' = r /\ st1' = st1) as [-> ->] by (split; congruence).
      destruct (in_area_of_block st N p old Hok Hp_lo ltac:(lia) Hp_hi) as [E1 E2].
      exists r, st1. split.
      * unfold mem_realloc. rewrite E1, E2. rewrite Z.eqb_refl. rewrite Hfree. cbn [bind].
        exact Hrun.
      * right. split; [exact Hnz|]. exists L', size. split; assumption.
  - assert (0 < s) as Hpos by lia.
    assert (s + 8 <= old \/ (exists sR, In (p + old + 16, sR) L /\ s + 8 - old <= sR + 16)
            \/ (old < s + 8 /\ forall sR, In (p + old + 16, sR) L -> sR + 16 < s + 8 - old))
      as [Hcond | [Hcond | [Hgrow Hright]]].
    { destruct (Z_le_gt_dec (s + 8) old) as [Hle | Hgt]; [left; exact Hle|].
      destruct (right_room_dec L (p + old + 16) (s + 8 - old)) as [Hroom | Hnone].
      - right. left. exact Hroom.
      - right. right. split; [lia|exact Hnone]. }
    3: exact (heap_relocate fuel st N L A1 A2 p old s Hheap Hfuel Hs0 Hs Hgrow Hright).
    all: destruct (realloc_spec fuel st N L p old s Hinv Hfuel Halloc Hguards Hold Hs0 Hs)
        as (r & st1 & Hrun & _ & Hlist & _ & Hplace & Hwr);
      destruct (Hlist Hsafe) as (L' & HL' & Hrip);
      assert (r = p + 16) as Hr by (apply (Hplace Hpos); auto);
      destruct (Hrip Hpos Hr) as (size & Hrip' & Hb);
      exists r, st1; (split; [exact Hrun|]); right; (split; [consts; lia|]);
      exists L', size; (split; [|exact Hb]);
      replace (r - 16) with p by lia;
      exact (heap_resize_in_place st st1 N L L' A1 A2 p old size Hheap HL' Hrip' Hwr).
Qed.

(** * The size query after a request, case by case *)

(** A resize to zero: the block is released, and the request of zero
    bytes that follows is served from the free list the release left. *)
Lemma realloc_zero_spec (fuel : nat) (st : state) (N : Z) (L : list blk) (p old : Z) :
  free_list_is st N L -> (S (length L) < fuel)%nat ->
  allocated_at st N L p old -> guards_ok st p -> 8 <= old ->
  exists st0 L0 W1 b sz W2 st1,
    mem_free fuel st (p + 16) = Done st0
    /\ free_list_is st0 N L0
    /\ L0 = W1 ++ (b, sz) :: W2 /\ 8 <= sz
    /\ mem_alloc fuel st0 0 = Done (b + 16, st1)
    /\ mem_realloc fuel st (p + 16) 0 = Done (b + 16, st1)
    /\ mem_get_size st1 (b + 16) = Done (if sz - 8 <=? 24 then sz - 8 else 0).
Proof.
  intros Hinv Hfuel Halloc Hguards Hold.
  destruct (alloc_after_free fuel st N L p old Hinv Hfuel Halloc Hguards Hold)
    as (st0 & Hfree & Hserve).
  destruct (Hserve 0 ltac:(lia) ltac:(lia)) as (r & st1 & Hrun & Hnz & _).
  pose proof Halloc as (Hp_lo & Hp_size & Hp_hi & Hdis).
  pose proof Hinv as (Hok & Hseg & Hsp).
  pose proof Hok as [Hhead_lo Hhead_hi Htop Hmin Hmax Hsecret]. consts.
  destruct (split_around p old L _ _ Hsp ltac:(lia) Hdis) as (L1 & L2 & EL & A1 & A2).
  subst L.
  destruct (mem_free_spec fuel st N L1 L2 p old Hinv ltac:(lia) Hp_lo Hp_size Hp_hi A1 A2
              Hguards ltac:(rewrite Hmax; lia))
    as (m' & Hfree' & Hlist & _).
  assert (st0 = with_bytes st m') as -> by congruence.
  pose proof (coalesce_length L1 L2 (p, old)) as Hlen.
  destruct (alloc_size_spec fuel (with_bytes st m') N _ 0 Hlist ltac:(lia) ltac:(lia)
              ltac:(lia))
    as [Hnull | (W1 & b & sz & W2 & st1' & EW & Hfits & Hrun' & Hsize & _)].
  { exfalso. apply Hnz. unfold NULL in *. congruence. }
  assert (r = b + 16 /\ st1' = st1) as [-> ->] by (split; congruence).
  destruct (in_area_of_block st N p old Hok Hp_lo ltac:(lia) Hp_hi) as [E1 E2].
  exists (with_bytes st m'), (coalesce L1 (p, old) L2), W1, b, sz, W2, st1.
  split; [exact Hfree|]. split; [exact Hlist|]. split; [exact EW|]. split; [lia|].
  split; [exact Hrun|]. split; [|exact Hsize].
  unfold mem_realloc. rewrite E1, E2. rewrite Z.eqb_refl. rewrite Hfree. cbn [bind].
  exact Hrun.
Qed.

(** C3 (as the code has it), for requests [s] with [s + 8 < 2^64] on a
    heap with a well-formed free list.  The size query on the pointer a
    request returned answers between [s] and [s + 24], and exactly this:

    - after [mem_alloc s], [s] when the chosen free block was split, and
      the whole block's size minus the guard when the remainder would have
      been at most 24 bytes;
    - after [mem_realloc] of a live block to [s > 0] that does not grow it
      ([s + 8 <= old]), in place: [s] when the block that starts where it
      ends is free; otherwise [s] when more than 24 bytes are given up and
      the old size when at most 24 would be;
    - after a [mem_realloc] that grows the block into the free block that
      starts where it ends (large enough for the growth), in place: [s]
      when more than 24 bytes of the two blocks remain, and the old size
      plus the whole neighbour and its header otherwise;
    - after a [mem_realloc] that grows the block with no such neighbour:
      [NULL] with the state unchanged when [mem_alloc s] answers [NULL],
      otherwise the pointer [mem_alloc s] answers, with the answer of the
      first item for the block it chose;
    - after [mem_realloc] to [0]: the block is released and the first item
      applies to the request of zero bytes on the free list the release
      left; that request is always served. *)
Theorem size_query_after_request
        (fuel : nat) (st : state) (N : Z) (L : list blk) (s p old : Z) :
  free_list_is st N L -> (S (length L) < fuel)%nat ->
  0 <= s -> s + 8 < 2 ^ 64 ->
  (mem_alloc fuel st s = Done (NULL, st)
   \/ exists L1 b sz L2 st1,
       L = L1 ++ (b, sz) :: L2 /\ s + 8 <= sz
       /\ mem_alloc fuel st s = Done (b + 16, st1)
       /\ mem_get_size st1 (b + 16) = Done (if sz - (s + 8) <=? 24 then sz - 8 else s))
  /\ (allocated_at st N L p old -> guards_ok st p -> 8 <= old ->
      exists r st1,
        mem_realloc fuel st (p + 16) s = Done (r, st1)
        /\ (r = NULL \/ exists u, mem_get_size st1 r = Done u /\ s <= u <= s + 24)
        /\ (0 < s -> s + 8 <= old ->
            r = p + 16
            /\ ((exists sR, In (p + old + 16, sR) L) -> mem_get_size st1 r = Done s)
            /\ ((forall sR, ~ In (p + old + 16, sR) L) ->
                mem_get_size st1 r = Done (if old - (s + 8) <=? 24 then old - 8 else s)))
        /\ (0 < s -> old < s + 8 ->
            forall sR, In (p + old + 16, sR) L -> s + 8 - old <= sR + 16 ->
            r = p + 16
            /\ mem_get_size st1 r
               = Done (if sR + 16 + old - (s + 8) <=? 24 then old + 16 + sR - 8 else s))
        /\ (0 < s -> old < s + 8 ->
            (forall sR, In (p + old + 16, sR) L -> sR + 16 < s + 8 - old) ->
            (r = NULL /\ st1 = st /\ mem_alloc fuel st s = Done (NULL, st))
            \/ exists L1 b sz L2 st',
                L = L1 ++ (b, sz) :: L2 /\ s + 8 <= sz
                /\ mem_alloc fuel st s = Done (b + 16, st')
                /\ r = b + 16
                /\ mem_get_size st1 r = Done (if sz - (s + 8) <=? 24 then sz - 8 else s))
        /\ (s = 0 ->
            exists st0 L0 W1 b sz W2,
              mem_free fuel st (p + 16) = Done st0
              /\ free_list_is st0 N L0
              /\ L0 = W1 ++ (b, sz) :: W2 /\ 8 <= sz
              /\ mem_alloc fuel st0 0 = Done (b + 16, st1)
              /\ r = b + 16
              /\ mem_get_size st1 r = Done (if sz - 8 <=? 24 then sz - 8 else 0))).
Proof.
  intros Hinv Hfuel Hs0 Hs. split.
  - destruct (alloc_size_spec fuel st N L s Hinv ltac:(lia) Hs0 Hs)
      as [Hnull | (L1 & b & sz & L2 & st1 & EL & Hfits & Hrun & Hsize & _)];
      [left; exact Hnull|right].
    exists L1, b, sz, L2, st1. repeat split; assumption.
  - intros Halloc Hguards Hold.
    pose proof Halloc as (Hp_lo & _).
    pose proof Hinv as ([Hhead_lo Hhead_hi Htop Hmin Hmax Hsecret] & _). consts.
    destruct (Z.eq_dec s 0) as [-> | Hsnz].
    { destruct (realloc_zero_spec fuel st N L p old Hinv Hfuel Halloc Hguards Hold)
        as (st0 & L0 & W1 & b & sz & W2 & st1 & Hfree & Hlist0 & EW & Hsz & Hrun & Hre
            & Hsize).
      exists (b + 16), st1. split; [exact Hre|]. split.
      { right. eexists. split; [exact Hsize|]. by_leb. }
      split; [intros Hpos; lia|]. split; [intros Hpos; lia|]. split; [intros Hpos; lia|].
      intros _. exists st0, L0, W1, b, sz, W2.
      split; [exact Hfree|]. split; [exact Hlist0|]. split; [exact EW|].
      split; [exact Hsz|]. split; [exact Hrun|]. split; [reflexivity|exact Hsize]. }
    assert (0 < s) as Hpos by lia.
    assert ((s + 8 <= old
             \/ exists sR, In (p + old + 16, sR) L /\ s + 8 - old <= sR + 16)
            \/ (old < s + 8 /\ forall sR, In (p + old + 16, sR) L -> sR + 16 < s + 8 - old))
      as [Hcond | [Hgrow Hright]].
    { destruct (Z_le_gt_dec (s + 8) old) as [Hle | Hgt]; [left; left; exact Hle|].
      destruct (right_room_dec L (p + old + 16) (s + 8 - old)) as [Hroom | Hnone].
      - left. right. exact Hroom.
      - right. split; [lia|exact Hnone]. }
    + (* in place *)
      destruct (realloc_spec fuel st N L p old s Hinv Hfuel Halloc Hguards Hold Hs0 Hs)
        as (r & st1 & Hrun & Hsize & _ & _ & Hplace & _).
      assert (r = p + 16) as Hr by (apply (Hplace Hpos Hcond)).
      destruct Hsize as [Hnull | (u & Hu & Hb & Hans)]; [unfold NULL in Hnull; lia|].
      destruct (Hans Hpos) as [Hshrink Hgrown].
      exists r, st1. split; [exact Hrun|].
      split; [right; exists u; split; assumption|].
      split; [|split; [|split; [|intros Hz; lia]]].
      * intros _ Hle. destruct (Hshrink Hle) as [Ha Hb'].
        split; [exact Hr|].
        split; intro H; rewrite Hu; f_equal; [apply Ha|apply Hb']; exact H.
      * intros _ Hlt sR Hin Hroom. split; [exact Hr|].
        rewrite Hu. f_equal. apply (Hgrown Hlt sR Hin Hroom).
      * intros _ Hlt Hnone. exfalso.
        destruct Hcond as [Hle | (sR & Hin & Hroom)]; [lia|].
        specialize (Hnone sR Hin). lia.
    + (* relocation *)
      destruct (relocate_spec fuel st N L p old s Hinv ltac:(lia) Halloc Hguards Hold Hs0 Hs
                  Hgrow Hright)
        as [(Hanull & Hre & _)
           | (r & st1 & st3 & L3 & Hrun & Hnz & _ & Hre & _ & _ & _ & _
              & (u & Hu & Hb & (L1 & b & sz & L2 & EL & Hfits & Hr & Hval)) & _)].
      * exists NULL, st. split; [exact Hre|]. split; [left; reflexivity|].
        split; [intros _ Hle; lia|].
        split; [intros _ _ sR Hin Hroom; specialize (Hright sR Hin); lia|].
        split; [|intros Hz; lia].
        intros _ _ _. left. split; [reflexivity|]. split; [reflexivity|exact Hanull].
      * exists r, st3. split; [exact Hre|].
        split; [right; exists u; split; assumption|].
        split; [intros _ Hle; lia|].
        split; [intros _ _ sR Hin Hroom; specialize (Hright sR Hin); lia|].
        split; [|intros Hz; lia].
        intros _ _ _. right. exists L1, b, sz, L2, st1.
        split; [exact EL|]. split; [exact Hfits|].
        split; [rewrite <- Hr; exact Hrun|]. split; [exact Hr|].
        rewrite Hu, Hval. reflexivity.
Qed.

Lemma size_query_after_request_witness :
  (mem_alloc 8 ex_three 10 = Done (NULL, ex_three)
   \/ exists L1 b sz L2 st1,
       ex_three_free = L1 ++ (b, sz) :: L2 /\ 10 + 8 <= sz
       /\ mem_alloc 8 ex_three 10 = Done (b + 16, st1)
       /\ mem_get_size st1 (b + 16) = Done (if sz - (10 + 8) <=? 24 then sz - 8 else 10))
  /\ exists r st1,
      mem_realloc 8 ex_three (ex_base + 16) 10 = Done (r, st1)
      /\ (r = NULL \/ exists u, mem_get_size st1 r = Done u /\ 10 <= u <= 10 + 24)
      /\ (0 < 10 -> 10 + 8 <= 28 ->
          r = ex_base + 16
          /\ ((exists sR, In (ex_base + 28 + 16, sR) ex_three_free) ->
              mem_get_size st1 r = Done 10)
          /\ ((forall sR, ~ In (ex_base + 28 + 16, sR) ex_three_free) ->
              mem_get_size st1 r = Done (if 28 - (10 + 8) <=? 24 then 28 - 8 else 10)))
      /\ (0 < 10 -> 28 < 10 + 8 ->
          forall sR, In (ex_base + 28 + 16, sR) ex_three_free -> 10 + 8 - 28 <= sR + 16 ->
          r = ex_base + 16
          /\ mem_get_size st1 r
             = Done (if sR + 16 + 28 - (10 + 8) <=? 24 then 28 + 16 + sR - 8 else 10))
      /\ (0 < 10 -> 28 < 10 + 8 ->
          (forall sR, In (ex_base + 28 + 16, sR) ex_three_free -> sR + 16 < 10 + 8 - 28) ->
          (r = NULL /\ st1 = ex_three /\ mem_alloc 8 ex_three 10 = Done (NULL, ex_three))
          \/ exists L1 b sz L2 st',
              ex_three_free = L1 ++ (b, sz) :: L2 /\ 10 + 8 <= sz
              /\ mem_alloc 8 ex_three 10 = Done (b + 16, st')
              /\ r = b + 16
              /\ mem_get_size st1 r = Done (if sz - (10 + 8) <=? 24 then sz - 8 else 10))
      /\ (10 = 0 ->
          exists st0 L0 W1 b sz W2,
            mem_free 8 ex_three (ex_base + 16) = Done st0
            /\ free_list_is st0 ex_total L0
            /\ L0 = W1 ++ (b, sz) :: W2 /\ 8 <= sz
            /\ mem_alloc 8 st0 0 = Done (b + 16, st1)
            /\ r = b + 16
            /\ mem_get_size st1 r = Done (if sz - 8 <=? 24 then sz - 8 else 0)).
Proof.
  destruct (size_query_after_request 8 ex_three ex_total ex_three_free 10 ex_base 28)
    as [Halloc Hrealloc].
  - exact ex_three_free_list.
  - simpl. lia.
  - lia.
  - lia.
  - split; [exact Halloc|]. apply Hrealloc.
    + exact ex_three_first_block.
    + split; by_compute.
    + lia.
Defined.

(** * The statements above at the worked scenarios *)

Lemma ex_three_arena : arena_ok ex_three ex_total.
Proof. constructor; by_compute. Qed.

Lemma ex_three_first_guards : guards_ok ex_three ex_base.
Proof. split; by_compute. Qed.

Lemma ex_three_third_block : allocated_at ex_three ex_total ex_three_free (ex_base + 88) 28.
Proof.
  split; [by_compute|]. split; [by_compute|]. split; [by_compute|].
  intros a sa [E | []]. inversion E; subst a sa. right. by_compute.
Qed.

Lemma ex_three_second_block : allocated_at ex_three ex_total ex_three_free (ex_base + 44) 28.
Proof.
  split; [by_compute|]. split; [by_compute|]. split; [by_compute|].
  intros a sa [E | []]. inversion E; subst a sa. right. by_compute.
Qed.

Lemma ex_three_heap :
  heap_ok ex_three ex_total ex_three_free
          [(ex_base, 28); (ex_base + 44, 28); (ex_base + 88, 28)].
Proof.
  split; [exact ex_three_free_list|]. split; [|split].
  - intros q sq [E | [E | [E | []]]]; inversion E; subst q sq.
    + split; [exact ex_three_first_block|]. split; [split; by_compute|by_compute].
    + split; [exact ex_three_second_block|]. split; [split; by_compute|by_compute].
    + split; [exact ex_three_third_block|]. split; [split; by_compute|by_compute].
  - cbn [apart]. repeat split;
      try (intros q' sq' Hin; cbn [In] in Hin;
           repeat (destruct Hin as [E | Hin]; [inversion E; subst q' sq'; left; by_compute|]);
           destruct Hin).
  - reflexivity.
Qed.

Lemma mem_first_fit_lowest_fitting_witness :
  exists r : Z,
    mem_first_fit 8 (bytes ex_holes) (free_block_list ex_holes) 100 = Done r /\
    (r = NULL /\ (forall a s : Z, In (a, s) ex_holes_free -> s < 100) \/
     r <> NULL /\
     exists (s : Z) (W1 W2 : list (Z * Z)),
       ex_holes_free = W1 ++ (r, s) :: W2 /\
       load64 (bytes ex_holes) r = s /\
       100 <= s /\
       (forall a' s' : Z, In (a', s') W1 -> s' < 100) /\
       (forall lo hi : Z,
        spaced lo ex_holes_free hi ->
        forall a' s' : Z, In (a', s') ex_holes_free -> 100 <= s' -> r <= a')).
Proof.
  apply (mem_first_fit_lowest_fitting (bytes ex_holes) ex_holes_free 8 (free_block_list ex_holes) 100).
  - by_compute.
  - simpl; lia.
Defined.

Lemma mem_worst_fit_largest_fitting_witness :
  exists r : Z,
    mem_worst_fit 8 (bytes ex_holes) (free_block_list ex_holes) 20 = Done r /\
    (r = NULL /\ (forall a s : Z, In (a, s) ex_holes_free -> s < 20 \/ s = 0) \/
     r <> NULL /\
     exists (s : Z) (W1 W2 : list (Z * Z)),
       ex_holes_free = W1 ++ (r, s) :: W2 /\
       load64 (bytes ex_holes) r = s /\
       20 <= s /\
       0 < s /\
       (forall a' s' : Z, In (a', s') W1 -> 20 <= s' -> s' < s) /\
       (forall a' s' : Z, In (a', s') W2 -> 20 <= s' -> s' <= s) /\
       (forall lo hi : Z,
        spaced lo ex_holes_free hi ->
        forall a' s' : Z, In (a', s') ex_holes_free -> 20 <= s' -> s' < s \/ s' = s /\ r <= a')).
Proof.
  apply (mem_worst_fit_largest_fitting (bytes ex_holes) ex_holes_free 8 (free_block_list ex_holes) 20).
  - by_compute.
  - simpl; lia.
Defined.

Lemma mem_alloc_follows_policy_witness :
  exists (r : Z) (st1 : state),
    mem_alloc 8 (mem_set_fit_handler ex_holes BestFit) 20 = Done (r, st1) /\
    (r = NULL /\
     st1 = mem_set_fit_handler ex_holes BestFit /\ nothing_fits BestFit (wrap (20 + SECRET_SIZE)) ex_holes_free \/
     r <> NULL /\
     exists (sz : Z) (W1 W2 : list (Z * Z)),
       ex_holes_free = W1 ++ (r - 16, sz) :: W2 /\
       picks BestFit (wrap (20 + SECRET_SIZE)) W1 sz W2 /\ free_list_is st1 ex_total (alloc_list W1 (r - 16) sz (wrap (20 + SECRET_SIZE)) W2)).
Proof.
  apply (mem_alloc_follows_policy 8 ex_holes ex_total ex_holes_free BestFit 20).
  - exact ex_holes_free_list.
  - simpl; lia.
Defined.

Lemma mem_alloc_keeps_live_blocks_witness :
  exists (r : Z) (st1 : state),
    mem_alloc 8 ex_three 100 = Done (r, st1) /\
    (forall y : Z, ex_base <= y < ex_base + 16 + 28 -> bytes st1 y = bytes ex_three y) /\
    mem_get_size st1 (ex_base + 16) = mem_get_size ex_three (ex_base + 16) /\
    (r <> NULL ->
     exists (L' : list (Z * Z)) (size : Z),
       free_list_is st1 ex_total L' /\
       allocated_at st1 ex_total L' ex_base 28 /\
       allocated_at st1 ex_total L' (r - 16) size /\
       (r + size <= ex_base \/ ex_base + 16 + 28 <= r - 16)).
Proof.
  apply (mem_alloc_keeps_live_blocks 8 ex_three ex_total ex_three_free 100 ex_base 28).
  - exact ex_three_free_list.
  - simpl; lia.
  - exact ex_three_first_block.
  - lia.
Defined.

Lemma mem_free_releases_block_witness :
  exists (st1 : state) (L1 L2 : list (Z * Z)),
    mem_free 8 ex_three (ex_base + 16) = Done st1 /\
    ex_three_free = L1 ++ L2 /\
    (forall a sa : Z, In (a, sa) L1 -> a + 16 + sa <= ex_base) /\
    (forall c sc : Z, In (c, sc) L2 -> ex_base + 16 + 28 <= c) /\
    free_list_is st1 ex_total (coalesce L1 (ex_base, 28) L2) /\
    (exists a sa : Z,
       In (a, sa) (coalesce L1 (ex_base, 28) L2) /\
       a <= ex_base /\ ex_base + 16 + 28 <= a + 16 + sa) /\
    (forall q sq : Z,
     allocated_at ex_three ex_total ex_three_free q sq ->
     0 <= sq ->
     q + 16 + sq <= ex_base \/ ex_base + 16 + 28 <= q ->
     (forall y : Z, q <= y < q + 16 + sq -> bytes st1 y = bytes ex_three y) /\
     allocated_at st1 ex_total (coalesce L1 (ex_base, 28) L2) q sq /\
     mem_get_size st1 (q + 16) = mem_get_size ex_three (q + 16)).
Proof.
  apply (mem_free_releases_block 8 ex_three ex_total ex_three_free ex_base 28).
  - exact ex_three_free_list.
  - simpl; lia.
  - exact ex_three_first_block.
  - exact ex_three_first_guards.
  - lia.
Defined.

Lemma invalid_pointers_are_refused_witness :
  mem_free 8 ex_init 0x12345678 = Done ex_init /\
  mem_get_size ex_init 0x12345678 = Done 0 /\
  (0x12345678 <> NULL -> mem_realloc 8 ex_init 0x12345678 10 = Done (NULL, ex_init)) /\
  mem_realloc 8 ex_init NULL 10 = mem_alloc 8 ex_init 10.
Proof.
  apply (invalid_pointers_are_refused 8 ex_init ex_total 0x12345678 10).
  - apply mem_init_arena; unfold ex_head, ex_base, ex_total; lia.
  - right; right; by_compute.
Defined.

Lemma double_free_is_caught_witness :
  exists st1 : state,
    mem_free 8 ex_three (ex_base + 16) = Done st1 /\
    mem_free 8 st1 (ex_base + 16) = AssertFailed /\
    mem_get_size st1 (ex_base + 16) = Done 0 /\
    (forall k : Z, k <> 0 -> mem_realloc 8 st1 (ex_base + 16) k = AssertFailed).
Proof.
  apply (double_free_is_caught 8 ex_three ex_total ex_three_free ex_base 28).
  - exact ex_three_free_list.
  - simpl; lia.
  - exact ex_three_first_block.
  - exact ex_three_first_guards.
  - lia.
  - by_compute.
  - by_compute.
Defined.

Lemma guard_byte_corruption_is_caught_witness :
  mem_free 8 (poke ex_three (ex_base + 36) 65) (ex_base + 16) = AssertFailed /\
  mem_get_size (poke ex_three (ex_base + 36) 65) (ex_base + 16) = Done 0 /\
  (forall k : Z,
   k <> 0 -> mem_realloc 8 (poke ex_three (ex_base + 36) 65) (ex_base + 16) k = AssertFailed).
Proof.
  apply (guard_byte_corruption_is_caught 8 ex_three ex_total ex_base 28 (ex_base + 36) 65).
  - exact ex_three_arena.
  - by_compute.
  - lia.
  - by_compute.
  - by_compute.
  - exact ex_three_first_guards.
  - right; lia.
  - by_compute.
Defined.

Lemma realloc_to_zero_returns_a_block_witness :
  exists (r : Z) (st0 st1 : state),
    mem_free 8 ex_three (ex_base + 16) = Done st0 /\
    mem_alloc 8 st0 0 = Done (r, st1) /\
    mem_realloc 8 ex_three (ex_base + 16) 0 = Done (r, st1) /\
    r <> NULL /\
    (exists u : Z, mem_get_size st1 r = Done u /\ 0 <= u <= 24) /\
    exists L' : list (Z * Z), free_list_is st1 ex_total L'.
Proof.
  apply (realloc_to_zero_returns_a_block 8 ex_three ex_total ex_three_free ex_base 28).
  - exact ex_three_free_list.
  - simpl; lia.
  - exact ex_three_first_block.
  - exact ex_three_first_guards.
  - lia.
Defined.

Lemma realloc_preserves_payload_witness :
  exists (r : Z) (st1 : state),
    mem_realloc 8 ex_three (ex_base + 16) 100 = Done (r, st1) /\
    (r <> NULL ->
     forall i : Z,
     0 <= i < Z.min 100 (28 - 8) -> bytes st1 (r + i) = bytes ex_three (ex_base + 16 + i)).
Proof.
  apply (realloc_preserves_payload 8 ex_three ex_total ex_three_free ex_base 28 100).
  - exact ex_three_free_list.
  - simpl; lia.
  - exact ex_three_first_block.
  - exact ex_three_first_guards.
  - lia.
  - lia.
  - lia.
Defined.


Lemma realloc_keeps_live_blocks_witness :
  exists (r : Z) (st1 : state),
    mem_realloc 8 ex_three (ex_base + 16) 100 = Done (r, st1) /\
    (forall y : Z,
     ex_base + 44 <= y < ex_base + 44 + 16 + 28 -> bytes st1 y = bytes ex_three y) /\
    mem_get_size st1 (ex_base + 44 + 16) = mem_get_size ex_three (ex_base + 44 + 16).
Proof.
  apply (realloc_keeps_live_blocks 8 ex_three ex_total ex_three_free ex_base 28 100 (ex_base + 44) 28).
  - exact ex_three_free_list.
  - simpl; lia.
  - exact ex_three_first_block.
  - exact ex_three_first_guards.
  - lia.
  - lia.
  - lia.
  - exact ex_three_second_block.
  - lia.
  - right; lia.
Defined.

Lemma search_then_remove_witness :
  exists (L1 L2 : list (Z * Z)) (slot : Z),
    ex_holes_free = L1 ++ L2 /\
    (forall a sa : Z, In (a, sa) L1 -> a < ex_base + 132) /\
    (forall c sc : Z, In (c, sc) L2 -> ex_base + 132 <= c) /\
    search_block 8 (bytes ex_holes) (ex_base + 132) (free_block_list_addr ex_holes) =
    Done slot /\
    load64 (bytes ex_holes) slot = hd_ptr L2 /\
    ((forall sz : Z, ~ In (ex_base + 132, sz) ex_holes_free) ->
     remove_block (bytes ex_holes) (ex_base + 132) slot = bytes ex_holes) /\
    (forall sz : Z,
     In (ex_base + 132, sz) ex_holes_free ->
     exists L2' : list (Z * Z),
       L2 = (ex_base + 132, sz) :: L2' /\
       free_list_is (with_bytes ex_holes (remove_block (bytes ex_holes) (ex_base + 132) slot))
         ex_total (L1 ++ L2') /\
       load64 (remove_block (bytes ex_holes) (ex_base + 132) slot) (ex_base + 132) = sz /\
       load64 (remove_block (bytes ex_holes) (ex_base + 132) slot) (ex_base + 132 + OFF_NEXT) =
       NULL).
Proof.
  apply (search_then_remove 8 ex_holes ex_total ex_holes_free (ex_base + 132)).
  - exact ex_holes_free_list.
  - simpl; lia.
  - unfold ex_base, NULL; lia.
Defined.

Lemma mem_init_fresh_arena_witness :
  heap_ok (mem_init (fun _ : Z => 0) ex_head ex_base ex_total) ex_total
    [(ex_base, ex_total - 16)] [] /\
  current_fit_function (mem_init (fun _ : Z => 0) ex_head ex_base ex_total) = FirstFit /\
  (forall y : Z,
   y < ex_head \/ ex_head + 8 <= y ->
   y < ex_base \/ ex_base + 16 <= y ->
   bytes (mem_init (fun _ : Z => 0) ex_head ex_base ex_total) y = 0) /\
  (wrap (100 + 8) <= ex_total - 16 ->
   exists st1 : state,
     mem_alloc 8 (mem_init (fun _ : Z => 0) ex_head ex_base ex_total) 100 =
     Done (ex_base + 16, st1)) /\
  (ex_total - 16 < wrap (100 + 8) ->
   mem_alloc 8 (mem_init (fun _ : Z => 0) ex_head ex_base ex_total) 100 =
   Done (NULL, mem_init (fun _ : Z => 0) ex_head ex_base ex_total)).
Proof.
  apply (mem_init_fresh_arena (fun _ : Z => 0) ex_head ex_base ex_total 8 100).
  - unfold ex_head; lia.
  - unfold ex_head, ex_base; lia.
  - unfold ex_total; lia.
  - unfold ex_base, ex_total; lia.
  - lia.
Defined.

Lemma freed_space_is_reusable_witness :
  exists (st0 : state) (r : Z) (st1 : state),
    mem_free 8 ex_three (ex_base + 16) = Done st0 /\
    mem_alloc 8 st0 20 = Done (r, st1) /\
    r <> NULL /\
    (exists u : Z, mem_get_size st1 r = Done u /\ 20 <= u <= 20 + 24) /\
    exists L' : list (Z * Z), free_list_is st1 ex_total L'.
Proof.
  apply (freed_space_is_reusable 8 ex_three ex_total ex_three_free ex_base 28 20).
  - exact ex_three_free_list.
  - simpl; lia.
  - exact ex_three_first_block.
  - exact ex_three_first_guards.
  - lia.
  - lia.
  - lia.
Defined.

Lemma mem_alloc_keeps_heap_invariant_witness :
  exists (r : Z) (st1 : state),
    mem_alloc 8 ex_three 100 = Done (r, st1) /\
    (r = NULL /\ st1 = ex_three \/
     r <> NULL /\
     exists (L' : list (Z * Z)) (size : Z),
       heap_ok st1 ex_total L'
         [(r - 16, size); (ex_base, 28); (ex_base + 44, 28); (ex_base + 88, 28)] /\
       100 + 8 <= size <= 100 + 32).
Proof.
  apply (mem_alloc_keeps_heap_invariant 8 ex_three ex_total ex_three_free
  [(ex_base, 28); (ex_base + 44, 28); (ex_base + 88, 28)] 100).
  - exact ex_three_heap.
  - simpl; lia.
  - lia.
  - lia.
Defined.

Lemma mem_free_keeps_heap_invariant_witness :
  exists (st1 : state) (L' : list (Z * Z)),
    mem_free 8 ex_three (ex_base + 44 + 16) = Done st1 /\
    heap_ok st1 ex_total L' ([(ex_base, 28)] ++ [(ex_base + 88, 28)]) /\
    block_total L' = block_total ex_three_free + 16 + 28.
Proof.
  apply (mem_free_keeps_heap_invariant 8 ex_three ex_total ex_three_free [(ex_base, 28)]
  [(ex_base + 88, 28)] (ex_base + 44) 28).
  - exact ex_three_heap.
  - simpl; lia.
Defined.


Lemma mem_realloc_keeps_heap_invariant_witness :
  exists (r : Z) (st1 : state),
    mem_realloc 8 ex_three (ex_base + 88 + 16) 40 = Done (r, st1) /\
    (r = NULL /\ st1 = ex_three \/
     r <> NULL /\
     exists (L' : list blk) (size : Z),
       heap_ok st1 ex_total L' ((r - 16, size) :: [(ex_base, 28); (ex_base + 44, 28)] ++ []) /\
       40 + 8 <= size <= 40 + 32).
Proof.
  apply (mem_realloc_keeps_heap_invariant 8 ex_three ex_total ex_three_free
           [(ex_base, 28); (ex_base + 44, 28)] [] (ex_base + 88) 28 40).
  - exact ex_three_heap.
  - simpl; lia.
  - lia.
  - lia.
  - intros _ sR _; lia.
Defined.
